(** * cache-cpp: LRU, LRU-K, LFU and ARC caches

    A shallow embedding of the cache classes of the repository
    (LruCache.h, LfuCache.h, ArcCache/ArcLfuPart.h, ArcCache/ArcCache.h)
    and the properties of their [put] / [get] / [remove] / [purge]
    operations.

    Conventions.
    - [int] fields are integers in [Z]; [size_t] fields are integers in
      [Z] kept in the range [0 .. SIZE_MAX], with the wrap-around of
      [++] and of the [int -> size_t] conversion written out.
    - Every operation runs under the instance's [std::mutex]; an
      operation is therefore one atomic state transition.
    - A function whose C++ body dereferences a null pointer or an end
      iterator has no defined result: it returns [None]. *)

From Stdlib Require Import ZArith String.
From stdpp Require Import base option list gmap strings.

Local Open Scope Z_scope.

(** ** Machine integers *)

Module MachineInt.

Definition SIZE_MAX : Z := 2 ^ 64 - 1.

Definition INT8_MAX : Z := 127.

(** Conversion of a signed [int] to [size_t] (modulo 2^64), as the
    usual arithmetic conversions do in [nodeMap_.size() >= capacity_]. *)
Definition to_size_t (z : Z) : Z := z mod 2 ^ 64.

(** Conversion of a [size_t] result back to [int] (modulo 2^32). *)
Definition to_int (z : Z) : Z := (z + 2 ^ 31) mod 2 ^ 32 - 2 ^ 31.

(** [++x] on a [size_t]. *)
Definition incr (z : Z) : Z := to_size_t (z + 1).

End MachineInt.

(** ** Node handles

    The identity of a node object together with its immutable key: what
    a linked list of the repository needs of a [std::shared_ptr] to a
    node. *)

Record NodePtr (Key : Type) := mkPtr { ptr_id : nat; ptr_key : Key }.
Arguments mkPtr {Key} _ _.
Arguments ptr_id {Key} _.
Arguments ptr_key {Key} _.

Global Instance NodePtr_eq_dec {Key : Type} `{EqDecision Key} :
  EqDecision (NodePtr Key).
Proof. solve_decision. Defined.

(** ** LruCache (LruCache.h)

  A node is reached through [nodeMap_] whenever its value or access
  count is read or written; the recency list only ever asks a node for
  its (immutable) key.  The store of nodes is therefore kept in the map
  itself, and the doubly-linked list between [dummyHead_] and
  [dummyTail_] is the sequence [links] of node handles, from the
  head-adjacent (least recent) to the tail-adjacent (most recent) one.
  A handle is the identity of the node together with its key.
  [links = None] stands for null sentinels.

  In the sequence every node has its successor as [next_] and its
  predecessor as [prev_] (the head sentinel for the first node), and
  [dummyTail_->prev_] is the last node.  Only the [next_] of the last
  node is not determined by the sequence: it is the tail sentinel in a
  list that is linked in both directions, and null after [insertNode],
  which copies [dummyTail_->next_].  [closed] records which: [true]
  when the [next_] of the last node (of the head sentinel, in an empty
  list) is the tail sentinel.  Nothing assigns the [next_] of the tail
  sentinel, which [initList] leaves null. *)

Module Lru.

Record LruNode (Key Value : Type) := mkNode {
  self : nat;
  key_ : Key;
  value_ : Value;
  accessCount_ : Z
}.
Arguments mkNode {Key Value} _ _ _ _.
Arguments self {Key Value} _.
Arguments key_ {Key Value} _.
Arguments value_ {Key Value} _.
Arguments accessCount_ {Key Value} _.

Record LruCache (Key : Type) `{Countable Key} (Value : Type) := mkCache {
  capacity_ : Z;
  nodeMap_ : gmap Key (LruNode Key Value);
  links : option (list (NodePtr Key));
  closed : bool;
  allocated : nat
}.
Arguments mkCache {Key _ _ Value} _ _ _ _ _.
Arguments capacity_ {Key _ _ Value} _.
Arguments nodeMap_ {Key _ _ Value} _.
Arguments links {Key _ _ Value} _.
Arguments closed {Key _ _ Value} _.
Arguments allocated {Key _ _ Value} _.

(** The public operations. *)
Inductive Op (Key Value : Type) :=
  | Put (key : Key) (value : Value)
  | Get (key : Key) (value : Value)
  | GetValue (key : Key)
  | Remove (key : Key).
Arguments Put {Key Value} _ _.
Arguments Get {Key Value} _ _.
Arguments GetValue {Key Value} _.
Arguments Remove {Key Value} _.

Section Ops.
Context {Key : Type} `{Countable Key} {Value : Type}.
Variable dflt : Value.

Local Abbreviation Cache := (LruCache Key Value).
Local Abbreviation Node := (LruNode Key Value).

Definition ptr_of (n : Node) : NodePtr Key := mkPtr (self n) (key_ n).

Definition set_links (l : list (NodePtr Key)) (c : Cache) : Cache :=
  mkCache (capacity_ c) (nodeMap_ c) (Some l) (closed c) (allocated c).

Definition set_nodeMap (m : gmap Key Node) (c : Cache) : Cache :=
  mkCache (capacity_ c) m (links c) (closed c) (allocated c).

(** [LruCache(int capacity) : capacity_(capacity) {}]: the body is
    empty, [initList] is not called, both sentinels stay null. *)
Definition new (capacity : Z) : Cache := mkCache capacity ∅ None false 0%nat.

(** [dummyHead_->next_ = dummyTail_; dummyTail_->prev_ = dummyHead_] *)
Definition initList (c : Cache) : Cache :=
  mkCache (capacity_ c) (nodeMap_ c) (Some []) true (allocated c).

(** [node->prev_->next_ = node->next_; node->next_->prev_ = node->prev_]:
    unlinks a linked node.  The second statement dereferences
    [node->next_], which is null for the last node of a list that is
    not closed; a node that is not linked has null neighbours.  When
    the last node of a closed list is unlinked, its predecessor gets
    the tail sentinel as [next_]: the list stays closed. *)
Definition removeNode (node : NodePtr Key) (c : Cache) : option Cache :=
  l ← links c;
  if decide (node ∈ l)
  then if decide (last l = Some node ∧ closed c = false)
       then None
       else Some (set_links (filter (λ p, p ≠ node) l) c)
  else None.

(** Links the node behind the last node:
    [node->prev_ = dummyTail_->prev_; dummyTail_->prev_->next_ = node;
    dummyTail_->prev_ = node].  The first assignment of the function
    reads [dummyTail_->next], which is not a member of the node; it is
    read as the member [next_], which is null on the tail sentinel: the
    new last node has a null [next_] and the list is not closed. *)
Definition insertNode (node : NodePtr Key) (c : Cache) : option Cache :=
  l ← links c;
  Some (mkCache (capacity_ c) (nodeMap_ c) (Some (l ++ [node])) false
          (allocated c)).

(** [dummyHead_->next_] is the first node; in an empty list it is the
    tail sentinel, whose [next_] is null. *)
Definition evictLeastRecent (c : Cache) : option Cache :=
  l ← links c;
  match l with
  | [] => None
  | leastRecent :: _ =>
      c1 ← removeNode leastRecent c;
      Some (set_nodeMap (delete (ptr_key leastRecent) (nodeMap_ c1)) c1)
  end.

Definition move2MostRecent (node : NodePtr Key) (c : Cache) : option Cache :=
  c1 ← removeNode node c;
  insertNode node c1.

Definition setValue (value : Value) (n : Node) : Node :=
  mkNode (self n) (key_ n) value (accessCount_ n).

Definition updateExistingNode (key : Key) (node : Node) (value : Value)
    (c : Cache) : option Cache :=
  move2MostRecent (ptr_of node)
    (set_nodeMap (<[key := setValue value node]> (nodeMap_ c)) c).

Definition addNewNode (key : Key) (value : Value) (c : Cache) : option Cache :=
  c1 ← (if decide (MachineInt.to_size_t (capacity_ c) ≤ Z.of_nat (size (nodeMap_ c)))
        then evictLeastRecent c else Some c);
  let newNode := mkNode (allocated c1) key value 1 in
  c2 ← insertNode (ptr_of newNode)
         (mkCache (capacity_ c1) (nodeMap_ c1) (links c1) (closed c1)
            (S (allocated c1)));
  Some (set_nodeMap (<[key := newNode]> (nodeMap_ c2)) c2).

(** [put]: after the lookup only the branch of a present key has a
    body; the function ends after it.  The branch passes [node], which
    is not declared, to [updateExistingNode]; it is read as the node
    found, [it->second]. *)
Definition put (key : Key) (value : Value) (c : Cache) : option Cache :=
  if decide (capacity_ c ≤ 0) then Some c
  else match nodeMap_ c !! key with
       | Some node => updateExistingNode key node value c
       | None => Some c
       end.

(** [bool get(Key key, Value& value)]: the result is the returned
    flag, the final content of the out parameter and the new state. *)
Definition get (key : Key) (value : Value) (c : Cache)
    : option (bool * Value * Cache) :=
  match nodeMap_ c !! key with
  | Some node =>
      c1 ← move2MostRecent (ptr_of node) c;
      Some (true, value_ node, c1)
  | None => Some (false, value, c)
  end.

(** [Value get(Key key)] *)
Definition get_value (key : Key) (c : Cache) : option (Value * Cache) :=
  r ← get key dflt c;
  Some (r.1.2, r.2).

Definition remove (key : Key) (c : Cache) : option Cache :=
  match nodeMap_ c !! key with
  | Some node =>
      c1 ← removeNode (ptr_of node) c;
      Some (set_nodeMap (delete key (nodeMap_ c1)) c1)
  | None => Some c
  end.

(** One call of a public operation, and a sequence of calls. *)
Definition step (o : Op Key Value) (c : Cache) : option Cache :=
  match o with
  | Put key value => put key value c
  | Get key value => r ← get key value c; Some r.2
  | GetValue key => r ← get_value key c; Some r.2
  | Remove key => remove key c
  end.

Definition run (ops : list (Op Key Value)) (c : Cache) : option Cache :=
  foldl (λ s o, s ≫= step o) (Some c) ops.

End Ops.

End Lru.


(** ** LruKCache (LruCache.h)

    [LruKCache] derives from [LruCache<Key, Value>] (the main cache, its
    [base] object) and owns [historyList_], an [LruCache<Key, size_t>] of
    observation counts.  [put] compares a stored value with the string
    literal of no characters, so [Value] is a string type; [empty] is
    that string, which is also the value-initialised [Value{}]. *)

Module LruK.

Record LruKCache (Key : Type) `{Countable Key} (Value : Type) := mkCache {
  base : Lru.LruCache Key Value;
  k_ : Z;
  historyList_ : Lru.LruCache Key Z
}.
Arguments mkCache {Key _ _ Value} _ _ _.
Arguments base {Key _ _ Value} _.
Arguments k_ {Key _ _ Value} _.
Arguments historyList_ {Key _ _ Value} _.

(** The public operations the class overrides. *)
Inductive Op (Key Value : Type) :=
  | Put (key : Key) (value : Value)
  | GetValue (key : Key).
Arguments Put {Key Value} _ _.
Arguments GetValue {Key Value} _.

Section Ops.
Context {Key : Type} `{Countable Key} {Value : Type} `{EqDecision Value}.
Variable empty : Value.

Local Abbreviation Cache := (LruKCache Key Value).

(** The constructor initialises its base with [capacity] (the
    initialiser names the class itself for the base class). *)
Definition new (capacity historyCapacity k : Z) : Cache :=
  mkCache (Lru.new capacity) k (Lru.new historyCapacity).

(** [Value get(Key key)] *)
Definition get (key : Key) (c : Cache) : option (Value * Cache) :=
  r ← Lru.get_value 0 key (historyList_ c);
  let historyCount := MachineInt.incr r.1 in
  h ← Lru.put key historyCount r.2;
  m ← Lru.get_value empty key (base c);
  Some (m.1, mkCache m.2 (k_ c) h).

(** [void put(Key key, Value value)]: the branch of a resident key has
    no [return]; the history bookkeeping below it runs on every call.
    [historyCount >= k_] compares a [size_t] with an [int]. *)
Definition put (key : Key) (value : Value) (c : Cache) : option Cache :=
  m ← Lru.get_value empty key (base c);
  b ← (if decide (m.1 ≠ empty) then Lru.put key value m.2 else Some m.2);
  r ← Lru.get_value 0 key (historyList_ c);
  let historyCount := MachineInt.incr r.1 in
  h ← Lru.put key historyCount r.2;
  if decide (MachineInt.to_size_t (k_ c) ≤ historyCount)
  then h' ← Lru.remove key h;
       b' ← Lru.put key value b;
       Some (mkCache b' (k_ c) h')
  else Some (mkCache b (k_ c) h).

(** One call of a public operation, and a sequence of calls. *)
Definition step (o : Op Key Value) (c : Cache) : option Cache :=
  match o with
  | Put key value => put key value c
  | GetValue key => r ← get key c; Some r.2
  end.

Definition run (ops : list (Op Key Value)) (c : Cache) : option Cache :=
  foldl (λ s o, s ≫= step o) (Some c) ops.

End Ops.

End LruK.

(** ** FreqList and LfuCache (LfuCache.h)

    [FreqList::addNode] writes [dummyHead_->prev] where a list insertion
    writes [dummyTail_->prev], so a bucket is not in general a
    well-formed list; buckets are therefore modelled on an explicit
    store of nodes with their [prev] / [next] pointers.  A [NodePtr] is
    an index into [store]; [None] is the null pointer.  The pointers
    held by [nodeMap_], by a [FreqList] and by [freqToFreqList_] are
    never null. *)

Module Lfu.

Definition NodePtr := nat.

Record Node (Key Value : Type) := mkNode {
  freq : Z;
  key : Key;
  value : Value;
  prev : option NodePtr;
  next : option NodePtr
}.
Arguments mkNode {Key Value} _ _ _ _ _.
Arguments freq {Key Value} _.
Arguments key {Key Value} _.
Arguments value {Key Value} _.
Arguments prev {Key Value} _.
Arguments next {Key Value} _.

Record FreqList := mkFreqList {
  freq_ : Z;
  dummyHead_ : NodePtr;
  dummyTail_ : NodePtr
}.

Record LfuCache (Key : Type) `{Countable Key} (Value : Type) := mkCache {
  capacity_ : Z;
  minFreq_ : Z;
  maxAvgNum_ : Z;
  curAvgNum_ : Z;
  curTotalNum_ : Z;
  nodeMap_ : gmap Key NodePtr;
  freqToFreqList_ : gmap Z FreqList;
  store : list (Node Key Value)
}.
Arguments mkCache {Key _ _ Value} _ _ _ _ _ _ _ _.
Arguments capacity_ {Key _ _ Value} _.
Arguments minFreq_ {Key _ _ Value} _.
Arguments maxAvgNum_ {Key _ _ Value} _.
Arguments curAvgNum_ {Key _ _ Value} _.
Arguments curTotalNum_ {Key _ _ Value} _.
Arguments nodeMap_ {Key _ _ Value} _.
Arguments freqToFreqList_ {Key _ _ Value} _.
Arguments store {Key _ _ Value} _.

(** A loop whose body can fail. *)
Fixpoint foldM {A B : Type} (f : B → A → option B) (l : list A) (b : B)
    : option B :=
  match l with
  | [] => Some b
  | a :: l' => b' ← f b a; foldM f l' b'
  end.

(** The public operations. *)
Inductive Op (Key Value : Type) :=
  | Put (key : Key) (value : Value)
  | Get (key : Key) (value : Value)
  | GetValue (key : Key)
  | Purge.
Arguments Put {Key Value} _ _.
Arguments Get {Key Value} _ _.
Arguments GetValue {Key Value} _.
Arguments Purge {Key Value}.

Section Ops.
Context {Key : Type} `{Countable Key} {Value : Type}.
(** The default-constructed key and value of a sentinel [Node()]. *)
Variable dkey : Key.
Variable dflt : Value.

Local Abbreviation Cache := (LfuCache Key Value).
Local Abbreviation Store := (list (Node Key Value)).

Definition set_freq (f : Z) (n : Node Key Value) : Node Key Value :=
  mkNode f (key n) (value n) (prev n) (next n).

Definition set_value (v : Value) (n : Node Key Value) : Node Key Value :=
  mkNode (freq n) (key n) v (prev n) (next n).

Definition set_prev (p : option NodePtr) (n : Node Key Value) : Node Key Value :=
  mkNode (freq n) (key n) (value n) p (next n).

Definition set_next (p : option NodePtr) (n : Node Key Value) : Node Key Value :=
  mkNode (freq n) (key n) (value n) (prev n) p.

(** [p->field = ...] *)
Definition update (p : NodePtr) (f : Node Key Value → Node Key Value)
    (h : Store) : option Store :=
  n ← h !! p;
  Some (<[p := f n]> h).

(** *** FreqList *)

Definition FreqList_new (n : Z) (h : Store) : FreqList * Store :=
  let hd := length h in
  let tl := S (length h) in
  (mkFreqList n hd tl,
   h ++ [mkNode 1 dkey dflt None (Some tl); mkNode 1 dkey dflt (Some hd) None]).

Definition isEmpty (l : FreqList) (h : Store) : option bool :=
  hd ← h !! dummyHead_ l;
  Some (bool_decide (next hd = Some (dummyTail_ l))).

Definition addNode (l : FreqList) (node : NodePtr) (h : Store) : option Store :=
  tl ← h !! dummyTail_ l;
  h1 ← update node (set_prev (prev tl)) h;
  h2 ← update node (set_next (Some (dummyTail_ l))) h1;
  tl2 ← h2 !! dummyTail_ l;
  tp ← prev tl2;
  h3 ← update tp (set_next (Some node)) h2;
  update (dummyHead_ l) (set_prev (Some node)) h3.

Definition removeNode (l : FreqList) (node : NodePtr) (h : Store) : option Store :=
  n ← h !! node;
  match prev n, next n with
  | Some p, Some _ =>
      h1 ← update p (set_next (next n)) h;
      n1 ← h1 !! node;
      nx ← next n1;
      h2 ← update nx (set_prev (prev n1)) h1;
      update node (λ x, set_next None (set_prev None x)) h2
  | _, _ => Some h
  end.

Definition getFirstNode (l : FreqList) (h : Store) : option NodePtr :=
  hd ← h !! dummyHead_ l;
  next hd.

(** *** LfuCache *)

Definition set_store (h : Store) (c : Cache) : Cache :=
  mkCache (capacity_ c) (minFreq_ c) (maxAvgNum_ c) (curAvgNum_ c)
    (curTotalNum_ c) (nodeMap_ c) (freqToFreqList_ c) h.

Definition set_minFreq (f : Z) (c : Cache) : Cache :=
  mkCache (capacity_ c) f (maxAvgNum_ c) (curAvgNum_ c)
    (curTotalNum_ c) (nodeMap_ c) (freqToFreqList_ c) (store c).

Definition set_nodeMap (m : gmap Key NodePtr) (c : Cache) : Cache :=
  mkCache (capacity_ c) (minFreq_ c) (maxAvgNum_ c) (curAvgNum_ c)
    (curTotalNum_ c) m (freqToFreqList_ c) (store c).

(** Sets [curTotalNum_] and recomputes [curAvgNum_] from it:
    [curTotalNum_ / nodeMap_.size()] divides in [size_t]. *)
Definition set_total (t : Z) (c : Cache) : Cache :=
  let avg := if decide (size (nodeMap_ c) = 0%nat) then 0
             else MachineInt.to_int
                    (MachineInt.to_size_t t / Z.of_nat (size (nodeMap_ c))) in
  mkCache (capacity_ c) (minFreq_ c) (maxAvgNum_ c) avg t
    (nodeMap_ c) (freqToFreqList_ c) (store c).

Definition new (capacity maxAvgNum : Z) : Cache :=
  mkCache capacity MachineInt.INT8_MAX maxAvgNum 0 0 ∅ ∅ [].

Definition removeFromFreqList (node : NodePtr) (c : Cache) : option Cache :=
  n ← store c !! node;
  match freqToFreqList_ c !! freq n with
  | Some l => h ← removeNode l node (store c); Some (set_store h c)
  | None => Some c
  end.

(** When the bucket of the node's frequency is absent it is created,
    and then [it], still the end iterator, is dereferenced. *)
Definition addToFreqList (node : NodePtr) (c : Cache) : option Cache :=
  n ← store c !! node;
  match freqToFreqList_ c !! freq n with
  | Some l => h ← addNode l node (store c); Some (set_store h c)
  | None => None
  end.

Definition updateMinFreq (c : Cache) : option Cache :=
  m ← foldM (λ m (b : Z * FreqList),
               e ← isEmpty b.2 (store c);
               Some (if e : bool then m else Z.min m b.1))
            (map_to_list (freqToFreqList_ c)) MachineInt.INT8_MAX;
  Some (set_minFreq (if decide (m = MachineInt.INT8_MAX) then 1 else m) c).

(** The body of the loop of [handleOverMaxAvgNum] for one node. *)
Definition ageNode (c : Cache) (node : NodePtr) : option Cache :=
  c1 ← removeFromFreqList node c;
  n ← store c1 !! node;
  let f := freq n - Z.quot (maxAvgNum_ c1) 2 in
  let f' := if decide (f ≤ 0) then 1 else f in
  addToFreqList node (set_store (<[node := set_freq f' n]> (store c1)) c1).

(** The loop visits the nodes of [nodeMap_] in the iteration order of
    the unordered map, here that of [map_to_list]. *)
Definition handleOverMaxAvgNum (c : Cache) : option Cache :=
  if decide (size (nodeMap_ c) = 0%nat) then Some c
  else c1 ← foldM ageNode (map_to_list (nodeMap_ c)).*2 c;
       updateMinFreq c1.

Definition addFreqNum (c : Cache) : option Cache :=
  let c1 := set_total (curTotalNum_ c + 1) c in
  if decide (maxAvgNum_ c1 < curAvgNum_ c1)
  then handleOverMaxAvgNum c1
  else Some c1.

Definition decreaseFreqNum (num : Z) (c : Cache) : Cache :=
  set_total (curTotalNum_ c - num) c.

Definition kickOut (c : Cache) : option Cache :=
  l ← freqToFreqList_ c !! minFreq_ c;
  node ← getFirstNode l (store c);
  c1 ← removeFromFreqList node c;
  n ← store c1 !! node;
  Some (decreaseFreqNum (freq n) (set_nodeMap (delete (key n) (nodeMap_ c1)) c1)).

Definition putInternal (k : Key) (v : Value) (c : Cache) : option Cache :=
  c1 ← (if decide (MachineInt.to_size_t (capacity_ c) ≤ Z.of_nat (size (nodeMap_ c)))
        then kickOut c else Some c);
  let newNode := length (store c1) in
  let c2 := set_nodeMap (<[k := newNode]> (nodeMap_ c1))
              (set_store (store c1 ++ [mkNode 1 k v None None]) c1) in
  c3 ← addToFreqList newNode c2;
  c4 ← addFreqNum c3;
  Some (set_minFreq (Z.min (minFreq_ c4) 1) c4).

Definition getInternal (node : NodePtr) (c : Cache) : option (Value * Cache) :=
  n ← store c !! node;
  c1 ← removeFromFreqList node c;
  n1 ← store c1 !! node;
  c2 ← addToFreqList node
         (set_store (<[node := set_freq (freq n1 + 1) n1]> (store c1)) c1);
  n2 ← store c2 !! node;
  c3 ← (if decide (freq n2 = minFreq_ c2 + 1)
        then l ← freqToFreqList_ c2 !! minFreq_ c2;
             e ← isEmpty l (store c2);
             Some (if e : bool then set_minFreq (minFreq_ c2 + 1) c2 else c2)
        else Some c2);
  c4 ← addFreqNum c3;
  Some (value n, c4).

(** [put]: the branch of a present key assigns the value and returns;
    nothing follows the branch. *)
Definition put (k : Key) (v : Value) (c : Cache) : option Cache :=
  if decide (capacity_ c = 0) then Some c
  else match nodeMap_ c !! k with
       | Some node => h ← update node (set_value v) (store c); Some (set_store h c)
       | None => Some c
       end.

(** [bool get(Key key, Value& value)]: the branch of a present key
    only returns [true]. *)
Definition get (k : Key) (v : Value) (c : Cache) : bool * Value * Cache :=
  match nodeMap_ c !! k with
  | Some _ => (true, v, c)
  | None => (false, v, c)
  end.

(** [Value get(Key key)] *)
Definition get_value (k : Key) (c : Cache) : Value * Cache :=
  let r := get k dflt c in (r.1.2, r.2).

Definition purge (c : Cache) : Cache :=
  mkCache (capacity_ c) (minFreq_ c) (maxAvgNum_ c) (curAvgNum_ c)
    (curTotalNum_ c) ∅ ∅ (store c).

(** One call of a public operation, and a sequence of calls. *)
Definition step (o : Op Key Value) (c : Cache) : option Cache :=
  match o with
  | Put k v => put k v c
  | Get k v => Some (get k v c).2
  | GetValue k => Some (get_value k c).2
  | Purge => Some (purge c)
  end.

Definition run (ops : list (Op Key Value)) (c : Cache) : option Cache :=
  foldl (λ s o, s ≫= step o) (Some c) ops.

End Ops.

End Lfu.

(** ** ArcLfuPart (ArcCache/ArcLfuPart.h)

    The frequency lists are [std::list]s of node pointers and the ghost
    list is a doubly-linked list between [ghostHead_] and [ghostTail_],
    installed by the constructor; both are sequences of node handles.
    As in [Lru], the nodes of the main cache are stored in [mainCache_]
    itself: values and access counts are only reached through it. *)

Module ArcLfu.

(** Modelled from the spec: ArcCacheNode.h is not among the sources.
    A node carries a key, a value and an access count, which starts at 1
    (data model, Entry); [getKey], [getValue], [setValue],
    [getAccessCount] and [incrementAccessCount] are the accessors the
    part calls. *)
Record ArcNode (Key Value : Type) := mkNode {
  self : nat;
  key_ : Key;
  value_ : Value;
  accessCount_ : Z
}.
Arguments mkNode {Key Value} _ _ _ _.
Arguments self {Key Value} _.
Arguments key_ {Key Value} _.
Arguments value_ {Key Value} _.
Arguments accessCount_ {Key Value} _.

Record ArcLfuPart (Key : Type) `{Countable Key} (Value : Type) := mkPart {
  capacity_ : Z;
  ghostCapacity_ : Z;
  transformThreshold_ : Z;
  minFreq_ : Z;
  mainCache_ : gmap Key (ArcNode Key Value);
  ghostCache_ : gmap Key (NodePtr Key);
  freqMap_ : gmap Z (list (NodePtr Key));
  ghost : list (NodePtr Key);
  allocated : nat
}.
Arguments mkPart {Key _ _ Value} _ _ _ _ _ _ _ _ _.
Arguments capacity_ {Key _ _ Value} _.
Arguments ghostCapacity_ {Key _ _ Value} _.
Arguments transformThreshold_ {Key _ _ Value} _.
Arguments minFreq_ {Key _ _ Value} _.
Arguments mainCache_ {Key _ _ Value} _.
Arguments ghostCache_ {Key _ _ Value} _.
Arguments freqMap_ {Key _ _ Value} _.
Arguments ghost {Key _ _ Value} _.
Arguments allocated {Key _ _ Value} _.

(** [m.begin()->first] of a non-empty [std::map]: its least key. *)
Definition min_key {A : Type} (m : gmap Z A) : option Z :=
  match (map_to_list m).*1 with
  | [] => None
  | k :: ks => Some (foldr Z.min k ks)
  end.

(** The public operations of the part. *)
Inductive Op (Key Value : Type) :=
  | Put (key : Key) (value : Value)
  | Get (key : Key) (value : Value)
  | CheckGhost (key : Key)
  | IncreaseCapacity
  | DecreaseCapacity.
Arguments Put {Key Value} _ _.
Arguments Get {Key Value} _ _.
Arguments CheckGhost {Key Value} _.
Arguments IncreaseCapacity {Key Value}.
Arguments DecreaseCapacity {Key Value}.

Section Ops.
Context {Key : Type} `{Countable Key} {Value : Type}.

Local Abbreviation Part := (ArcLfuPart Key Value).
Local Abbreviation Node := (ArcNode Key Value).

Definition ptr_of (n : Node) : NodePtr Key := mkPtr (self n) (key_ n).

Definition setValue (value : Value) (n : Node) : Node :=
  mkNode (self n) (key_ n) value (accessCount_ n).

Definition incrementAccessCount (n : Node) : Node :=
  mkNode (self n) (key_ n) (value_ n) (MachineInt.incr (accessCount_ n)).

Definition set_capacity (z : Z) (p : Part) : Part :=
  mkPart z (ghostCapacity_ p) (transformThreshold_ p) (minFreq_ p)
    (mainCache_ p) (ghostCache_ p) (freqMap_ p) (ghost p) (allocated p).

Definition set_main (m : gmap Key Node) (p : Part) : Part :=
  mkPart (capacity_ p) (ghostCapacity_ p) (transformThreshold_ p) (minFreq_ p)
    m (ghostCache_ p) (freqMap_ p) (ghost p) (allocated p).

Definition set_ghost (m : gmap Key (NodePtr Key)) (l : list (NodePtr Key))
    (p : Part) : Part :=
  mkPart (capacity_ p) (ghostCapacity_ p) (transformThreshold_ p) (minFreq_ p)
    (mainCache_ p) m (freqMap_ p) l (allocated p).

Definition set_freq (f : gmap Z (list (NodePtr Key))) (mf : Z) (p : Part) : Part :=
  mkPart (capacity_ p) (ghostCapacity_ p) (transformThreshold_ p) mf
    (mainCache_ p) (ghostCache_ p) f (ghost p) (allocated p).

Definition new (capacity transformThreshold : Z) : Part :=
  mkPart capacity capacity transformThreshold 0 ∅ ∅ ∅ [] 0%nat.

Definition removeFromGhost (node : NodePtr Key) (p : Part) : option Part :=
  if decide (node ∈ ghost p)
  then Some (set_ghost (ghostCache_ p) (filter (λ x, x ≠ node) (ghost p)) p)
  else None.

Definition addToGhost (node : NodePtr Key) (p : Part) : Part :=
  set_ghost (<[ptr_key node := node]> (ghostCache_ p)) (ghost p ++ [node]) p.

Definition removeOldestGhost (p : Part) : option Part :=
  match ghost p with
  | [] => Some p
  | oldestGhost :: _ =>
      p1 ← removeFromGhost oldestGhost p;
      Some (set_ghost (delete (ptr_key oldestGhost) (ghostCache_ p1)) (ghost p1) p1)
  end.

Definition evictLeastFrequency (p : Part) : option Part :=
  if decide (size (freqMap_ p) = 0%nat) then Some p
  else match default [] (freqMap_ p !! minFreq_ p) with
       | [] => Some (set_freq (delete (minFreq_ p) (freqMap_ p)) (minFreq_ p) p)
       | leastNode :: rest =>
           let p1 :=
             match rest with
             | [] =>
                 let f := delete (minFreq_ p) (freqMap_ p) in
                 set_freq f (default (minFreq_ p) (min_key f)) p
             | _ :: _ => set_freq (<[minFreq_ p := rest]> (freqMap_ p)) (minFreq_ p) p
             end in
           p2 ← (if decide (ghostCapacity_ p1 ≤ Z.of_nat (size (ghostCache_ p1)))
                 then removeOldestGhost p1 else Some p1);
           let p3 := addToGhost leastNode p2 in
           Some (set_main (delete (ptr_key leastNode) (mainCache_ p3)) p3)
       end.

(** [node] is the object [mainCache_] holds under [key]. *)
Definition updateNodeFrequency (key : Key) (node : Node) (p : Part) : Part :=
  let oldFreq := accessCount_ node in
  let node' := incrementAccessCount node in
  let newFreq := accessCount_ node' in
  let oldFreqList :=
    filter (λ x, x ≠ ptr_of node) (default [] (freqMap_ p !! oldFreq)) in
  let p1 :=
    match oldFreqList with
    | [] => set_freq (delete oldFreq (freqMap_ p))
              (if decide (minFreq_ p = oldFreq) then newFreq else minFreq_ p) p
    | _ :: _ => set_freq (<[oldFreq := oldFreqList]> (freqMap_ p)) (minFreq_ p) p
    end in
  set_main (<[key := node']> (mainCache_ p1))
    (set_freq (<[newFreq := default [] (freqMap_ p1 !! newFreq) ++ [ptr_of node]]>
                 (freqMap_ p1)) (minFreq_ p1) p1).

(** The second statement of the body is the fragment [updateNode];
    it is read as the call [updateNodeFrequency(node)]. *)
Definition updateExistingNode (key : Key) (node : Node) (value : Value)
    (p : Part) : bool * Part :=
  (true, updateNodeFrequency key (setValue value node) p).

Definition addNewNode (key : Key) (value : Value) (p : Part) : option (bool * Part) :=
  p1 ← (if decide (capacity_ p ≤ Z.of_nat (size (mainCache_ p)))
        then evictLeastFrequency p else Some p);
  let newNode := mkNode (allocated p1) key value 1 in
  Some (true,
        mkPart (capacity_ p1) (ghostCapacity_ p1) (transformThreshold_ p1) 1
          (<[key := newNode]> (mainCache_ p1)) (ghostCache_ p1)
          (<[1 := default [] (freqMap_ p1 !! 1) ++ [ptr_of newNode]]> (freqMap_ p1))
          (ghost p1) (S (allocated p1))).

Definition put (key : Key) (value : Value) (p : Part) : option (bool * Part) :=
  if decide (capacity_ p = 0) then Some (false, p)
  else match mainCache_ p !! key with
       | Some node => Some (updateExistingNode key node value p)
       | None => addNewNode key value p
       end.

Definition get (key : Key) (value : Value) (p : Part) : bool * Value * Part :=
  match mainCache_ p !! key with
  | Some node => (true, value_ node, updateNodeFrequency key node p)
  | None => (false, value, p)
  end.

Definition checkGhost (key : Key) (p : Part) : option (bool * Part) :=
  match ghostCache_ p !! key with
  | Some node =>
      p1 ← removeFromGhost node p;
      Some (true, set_ghost (delete key (ghostCache_ p1)) (ghost p1) p1)
  | None => Some (false, p)
  end.

Definition increaseCapacity (p : Part) : Part :=
  set_capacity (MachineInt.incr (capacity_ p)) p.

Definition decreaseCapacity (p : Part) : option (bool * Part) :=
  if decide (capacity_ p ≤ 0) then Some (false, p)
  else p1 ← (if decide (Z.of_nat (size (mainCache_ p)) = capacity_ p)
             then evictLeastFrequency p else Some p);
       Some (true, set_capacity (capacity_ p1 - 1) p1).

(** One call of a public operation. *)
Definition step (o : Op Key Value) (p : Part) : option Part :=
  match o with
  | Put key value => r ← put key value p; Some r.2
  | Get key value => Some (get key value p).2
  | CheckGhost key => r ← checkGhost key p; Some r.2
  | IncreaseCapacity => Some (increaseCapacity p)
  | DecreaseCapacity => r ← decreaseCapacity p; Some r.2
  end.

End Ops.

End ArcLfu.

(** ** ArcLruPart

    ArcCache/ArcLruPart.h is not among the sources; the part is modelled
    from section 4.4 of the specification, on keys: [order] is the main
    segment from its least to its most recently used key, [ghost] the
    ghost list from its oldest to its newest key. *)

Module ArcLru.

(** Modelled from the spec: the state of ArcLruPart (absent from the
    sources): a main LRU segment of entries with their access counts, a
    ghost list of victim keys, and the parameters [capacity] (mutable),
    [ghostCapacity] and [transformThreshold]. *)
Record ArcLruPart (Key : Type) `{Countable Key} (Value : Type) := mkPart {
  capacity_ : Z;
  ghostCapacity_ : Z;
  transformThreshold_ : Z;
  mainCache_ : gmap Key (Value * Z);
  order : list Key;
  ghost : list Key
}.
Arguments mkPart {Key _ _ Value} _ _ _ _ _ _.
Arguments capacity_ {Key _ _ Value} _.
Arguments ghostCapacity_ {Key _ _ Value} _.
Arguments transformThreshold_ {Key _ _ Value} _.
Arguments mainCache_ {Key _ _ Value} _.
Arguments order {Key _ _ Value} _.
Arguments ghost {Key _ _ Value} _.

Section Ops.
Context {Key : Type} `{Countable Key} {Value : Type}.

Local Abbreviation Part := (ArcLruPart Key Value).

Definition set_capacity (z : Z) (p : Part) : Part :=
  mkPart z (ghostCapacity_ p) (transformThreshold_ p) (mainCache_ p)
    (order p) (ghost p).

(** Modelled from the spec: ArcLruPart's constructor (absent); the
    ghost capacity equals the initial capacity. *)
Definition new (capacity transformThreshold : Z) : Part :=
  mkPart capacity capacity transformThreshold ∅ [] [].

(** Modelled from the spec: ArcLruPart's eviction (absent): remove the
    least recently used entry from the main map and list, append its key
    to the ghost, removing the ghost's oldest key if the ghost is full. *)
Definition evictLeastRecent (p : Part) : Part :=
  match order p with
  | [] => p
  | k :: rest =>
      let g := if decide (ghostCapacity_ p ≤ Z.of_nat (length (ghost p)))
               then tail (ghost p) else ghost p in
      mkPart (capacity_ p) (ghostCapacity_ p) (transformThreshold_ p)
        (delete k (mainCache_ p)) rest (g ++ [k])
  end.

(** Modelled from the spec: ArcLruPart::put (absent): a present key is
    overwritten and moved to the most recent end; an absent key is
    inserted with access count 1, after the eviction of the least recent
    entry if the part is at capacity.  The result is whether the
    entry's access count has reached [transformThreshold].  A part of
    capacity 0 holds nothing ([put] is a no-op when the capacity is 0,
    sections 4.1 and 7), as in the LFU half. *)
Definition put (key : Key) (value : Value) (p : Part) : bool * Part :=
  if decide (capacity_ p = 0) then (false, p)
  else match mainCache_ p !! key with
  | Some e =>
      (bool_decide (transformThreshold_ p ≤ e.2),
       mkPart (capacity_ p) (ghostCapacity_ p) (transformThreshold_ p)
         (<[key := (value, e.2)]> (mainCache_ p))
         (filter (λ k, k ≠ key) (order p) ++ [key]) (ghost p))
  | None =>
      let p1 := if decide (capacity_ p ≤ Z.of_nat (size (mainCache_ p)))
                then evictLeastRecent p else p in
      (bool_decide (transformThreshold_ p ≤ 1),
       mkPart (capacity_ p1) (ghostCapacity_ p1) (transformThreshold_ p1)
         (<[key := (value, 1)]> (mainCache_ p1))
         (order p1 ++ [key]) (ghost p1))
  end.

(** Modelled from the spec: ArcLruPart::get (absent): on a hit the
    entry moves to the most recent end, its access count is incremented,
    and [shouldTransform] tells whether the count has reached the
    threshold.  The result is the returned flag, the out value, the out
    flag [shouldTransform] and the new state. *)
Definition get (key : Key) (value : Value) (shouldTransform : bool) (p : Part)
    : bool * Value * bool * Part :=
  match mainCache_ p !! key with
  | Some e =>
      let cnt := MachineInt.incr e.2 in
      (true, e.1, bool_decide (transformThreshold_ p ≤ cnt),
       mkPart (capacity_ p) (ghostCapacity_ p) (transformThreshold_ p)
         (<[key := (e.1, cnt)]> (mainCache_ p))
         (filter (λ k, k ≠ key) (order p) ++ [key]) (ghost p))
  | None => (false, value, shouldTransform, p)
  end.

(** Modelled from the spec: ArcLruPart::checkGhost (absent): a key of
    the ghost is unlinked and erased. *)
Definition checkGhost (key : Key) (p : Part) : bool * Part :=
  if decide (key ∈ ghost p)
  then (true,
        mkPart (capacity_ p) (ghostCapacity_ p) (transformThreshold_ p)
          (mainCache_ p) (order p) (filter (λ k, k ≠ key) (ghost p)))
  else (false, p).

(** Modelled from the spec: ArcLruPart::increaseCapacity (absent); the
    capacity is the [size_t] ArcCache constructs the part with. *)
Definition increaseCapacity (p : Part) : Part :=
  set_capacity (MachineInt.incr (capacity_ p)) p.

(** Modelled from the spec: ArcLruPart::decreaseCapacity (absent):
    false when the capacity is already 0; otherwise one entry is evicted
    first if the part is full, and the capacity decreases by one. *)
Definition decreaseCapacity (p : Part) : bool * Part :=
  if decide (capacity_ p ≤ 0) then (false, p)
  else let p1 := if decide (Z.of_nat (size (mainCache_ p)) = capacity_ p)
                 then evictLeastRecent p else p in
       (true, set_capacity (capacity_ p1 - 1) p1).

End Ops.

End ArcLru.

(** ** ArcCache (ArcCache/ArcCache.h) *)

Module Arc.

Record ArcCache (Key : Type) `{Countable Key} (Value : Type) := mkCache {
  capacity_ : Z;
  transformThreshold_ : Z;
  lfuPart_ : ArcLfu.ArcLfuPart Key Value;
  lruPart_ : ArcLru.ArcLruPart Key Value
}.
Arguments mkCache {Key _ _ Value} _ _ _ _.
Arguments capacity_ {Key _ _ Value} _.
Arguments transformThreshold_ {Key _ _ Value} _.
Arguments lfuPart_ {Key _ _ Value} _.
Arguments lruPart_ {Key _ _ Value} _.

Inductive Op (Key Value : Type) :=
  | Put (key : Key) (value : Value)
  | Get (key : Key) (value : Value).
Arguments Put {Key Value} _ _.
Arguments Get {Key Value} _ _.

Section Ops.
Context {Key : Type} `{Countable Key} {Value : Type}.
Variable dflt : Value.

Local Abbreviation Cache := (ArcCache Key Value).

Definition set_parts (lfu : ArcLfu.ArcLfuPart Key Value)
    (lru : ArcLru.ArcLruPart Key Value) (c : Cache) : Cache :=
  mkCache (capacity_ c) (transformThreshold_ c) lfu lru.

Definition new (capacity transformThreshold : Z) : Cache :=
  mkCache capacity transformThreshold
    (ArcLfu.new capacity transformThreshold)
    (ArcLru.new capacity transformThreshold).

Definition checkGhostCaches (key : Key) (c : Cache) : option (bool * Cache) :=
  let '(inLru, lru) := ArcLru.checkGhost key (lruPart_ c) in
  if inLru : bool then
    '(ok, lfu) ← ArcLfu.decreaseCapacity (lfuPart_ c);
    Some (true,
          set_parts lfu (if ok : bool then ArcLru.increaseCapacity lru else lru) c)
  else
    '(inLfu, lfu) ← ArcLfu.checkGhost key (lfuPart_ c);
    if inLfu : bool then
      let '(ok, lru') := ArcLru.decreaseCapacity lru in
      Some (true,
            set_parts (if ok : bool then ArcLfu.increaseCapacity lfu else lfu) lru' c)
    else Some (false, set_parts lfu lru c).

(** The condition of the inner [if] is the call [lruPart_->put(key, value)]. *)
Definition put (key : Key) (value : Value) (c : Cache) : option Cache :=
  '(inGhost, c1) ← checkGhostCaches key c;
  let '(promoted, lru) := ArcLru.put key value (lruPart_ c1) in
  if inGhost : bool then Some (set_parts (lfuPart_ c1) lru c1)
  else if promoted : bool then
    '(_, lfu) ← ArcLfu.put key value (lfuPart_ c1);
    Some (set_parts lfu lru c1)
  else Some (set_parts (lfuPart_ c1) lru c1).

Definition get (key : Key) (value : Value) (c : Cache)
    : option (bool * Value * Cache) :=
  '(_, c1) ← checkGhostCaches key c;
  let '(hit, v, shouldTransform, lru) :=
    ArcLru.get key value false (lruPart_ c1) in
  if hit : bool then
    if shouldTransform : bool then
      '(_, lfu) ← ArcLfu.put key v (lfuPart_ c1);
      Some (true, v, set_parts lfu lru c1)
    else Some (true, v, set_parts (lfuPart_ c1) lru c1)
  else
    let '(hit', v', lfu) := ArcLfu.get key v (lfuPart_ c1) in
    Some (hit', v', set_parts lfu lru c1).

(** [Value get(Key key)] *)
Definition get_value (key : Key) (c : Cache) : option (Value * Cache) :=
  r ← get key dflt c;
  Some (r.1.2, r.2).

Definition step (o : Op Key Value) (c : Cache) : option Cache :=
  match o with
  | Put key value => put key value c
  | Get key value => r ← get key value c; Some r.2
  end.

Definition run (ops : list (Op Key Value)) (c : Cache) : option Cache :=
  foldl (λ s o, s ≫= step o) (Some c) ops.

End Ops.

End Arc.

(** ** HashLfuCache (LfuCache.h) and HashLruCaches (LruCache.h)

    The sharded wrappers over a vector of caches.  [Hash] is
    [std::hash<Key>], a function into [size_t].  The constructors compute
    the shard size in floating point and are not modelled; the
    operations are modelled on any wrapper.  [Hash(key) % sliceNum_]
    divides in [size_t]; a division by 0 and an index past the end of
    the vector have no defined result. *)

Module HashLfu.

Record HashLfuCache (Key : Type) `{Countable Key} (Value : Type) := mkCache {
  capacity_ : Z;
  sliceNum_ : Z;
  lfuSliceCaches_ : list (Lfu.LfuCache Key Value)
}.
Arguments mkCache {Key _ _ Value} _ _ _.
Arguments capacity_ {Key _ _ Value} _.
Arguments sliceNum_ {Key _ _ Value} _.
Arguments lfuSliceCaches_ {Key _ _ Value} _.

Section Ops.
Context {Key : Type} `{Countable Key} {Value : Type}.
Variable Hash : Key → Z.

Local Abbreviation Cache := (HashLfuCache Key Value).

(** [Hash(key) % sliceNum_] *)
Definition index (key : Key) (c : Cache) : option nat :=
  let n := MachineInt.to_size_t (sliceNum_ c) in
  if decide (n = 0) then None else Some (Z.to_nat (Hash key mod n)).

Definition put (key : Key) (value : Value) (c : Cache) : option Cache :=
  i ← index key c;
  s ← lfuSliceCaches_ c !! i;
  s' ← Lfu.put key value s;
  Some (mkCache (capacity_ c) (sliceNum_ c) (<[i := s']> (lfuSliceCaches_ c))).

Definition get (key : Key) (value : Value) (c : Cache)
    : option (bool * Value * Cache) :=
  i ← index key c;
  s ← lfuSliceCaches_ c !! i;
  let r := Lfu.get key value s in
  Some (r.1, mkCache (capacity_ c) (sliceNum_ c) (<[i := r.2]> (lfuSliceCaches_ c))).

Definition purge (c : Cache) : Cache :=
  mkCache (capacity_ c) (sliceNum_ c) (Lfu.purge <$> lfuSliceCaches_ c).

End Ops.

End HashLfu.

Module HashLru.

Record HashLruCaches (Key : Type) `{Countable Key} (Value : Type) := mkCache {
  capacity_ : Z;
  sliceNum_ : Z;
  lruSliceCaches_ : list (Lru.LruCache Key Value)
}.
Arguments mkCache {Key _ _ Value} _ _ _.
Arguments capacity_ {Key _ _ Value} _.
Arguments sliceNum_ {Key _ _ Value} _.
Arguments lruSliceCaches_ {Key _ _ Value} _.

Section Ops.
Context {Key : Type} `{Countable Key} {Value : Type}.
Variable Hash : Key → Z.

Local Abbreviation Cache := (HashLruCaches Key Value).

(** [Hash(key) % sliceNum_] *)
Definition index (key : Key) (c : Cache) : option nat :=
  let n := MachineInt.to_size_t (sliceNum_ c) in
  if decide (n = 0) then None else Some (Z.to_nat (Hash key mod n)).

Definition put (key : Key) (value : Value) (c : Cache) : option Cache :=
  i ← index key c;
  s ← lruSliceCaches_ c !! i;
  s' ← Lru.put key value s;
  Some (mkCache (capacity_ c) (sliceNum_ c) (<[i := s']> (lruSliceCaches_ c))).

Definition get (key : Key) (value : Value) (c : Cache)
    : option (bool * Value * Cache) :=
  i ← index key c;
  s ← lruSliceCaches_ c !! i;
  r ← Lru.get key value s;
  Some (r.1, mkCache (capacity_ c) (sliceNum_ c) (<[i := r.2]> (lruSliceCaches_ c))).

End Ops.

End HashLru.

(** ** States used in the examples

    Caches over [int] keys and [std::string] values, as the benchmark
    driver instantiates them. *)

Module Scenario.

Local Open Scope string_scope.

(** An [LruCache] of capacity 1, at capacity: key 1 with value "a" is
    its only entry, linked between the sentinels in both directions. *)
Definition lru_full : Lru.LruCache Z string :=
  Lru.mkCache 1 {[ 1 := Lru.mkNode 0%nat 1 "a" 1 ]} (Some [mkPtr 0%nat 1]) true
    1%nat.

(** An [LruCache] of capacity 2, at capacity: key 1 (least recent) and
    key 2 (most recent), linked between the sentinels in both
    directions. *)
Definition lru_two : Lru.LruCache Z string :=
  Lru.mkCache 2
    {[ 1 := Lru.mkNode 0%nat 1 "a" 1; 2 := Lru.mkNode 1%nat 2 "b" 1 ]}
    (Some [mkPtr 0%nat 1; mkPtr 1%nat 2]) true 2%nat.

(** An [LfuCache] of capacity 2 holding key 1 with value "a" and
    frequency 1: the node (cell 2) is linked between the sentinels
    (cells 0 and 1) of the bucket of frequency 1. *)
Definition lfu_one : Lfu.LfuCache Z string :=
  Lfu.mkCache 2 1 10 1 1 {[ 1 := 2%nat ]}
    {[ 1 := Lfu.mkFreqList 1 0%nat 1%nat ]}
    [ Lfu.mkNode 1 0 EmptyString None (Some 2%nat);
      Lfu.mkNode 1 0 EmptyString (Some 2%nat) None;
      Lfu.mkNode 1 1 "a" (Some 0%nat) (Some 1%nat) ].

(** An [LfuCache] with [maxAvgNum_ = 1000] whose only entry, key 1, has
    just been promoted to frequency 1001 (cell 4, in the bucket of
    cells 0 and 1); the bucket of frequency 501 (cells 2 and 3) exists
    and is empty; [curTotalNum_] is still 1000. *)
Definition lfu_hot : Lfu.LfuCache Z string :=
  Lfu.mkCache 2 1001 1000 1000 1000 {[ 1 := 4%nat ]}
    {[ 1001 := Lfu.mkFreqList 1001 0%nat 1%nat;
       501 := Lfu.mkFreqList 501 2%nat 3%nat ]}
    [ Lfu.mkNode 1 0 EmptyString None (Some 4%nat);
      Lfu.mkNode 1 0 EmptyString (Some 4%nat) None;
      Lfu.mkNode 1 0 EmptyString None (Some 3%nat);
      Lfu.mkNode 1 0 EmptyString (Some 2%nat) None;
      Lfu.mkNode 1001 1 "a" (Some 0%nat) (Some 1%nat) ].

(** An empty bucket (cells 0 and 1) and two unlinked nodes of
    frequency 1 (cells 2 and 3). *)
Definition bucket : Lfu.FreqList := Lfu.mkFreqList 1 0%nat 1%nat.

Definition bucket_store : list (Lfu.Node Z string) :=
  [ Lfu.mkNode 1 0 EmptyString None (Some 1%nat);
    Lfu.mkNode 1 0 EmptyString (Some 0%nat) None;
    Lfu.mkNode 1 1 "a" None None;
    Lfu.mkNode 1 2 "b" None None ].

(** An [LruKCache] with K = 3: key 1 is resident in the main cache
    (capacity 2) with value "a", and the history cache (capacity 4)
    holds the count 1 for it. *)
Definition lruk_resident : LruK.LruKCache Z string :=
  LruK.mkCache
    (Lru.mkCache 2 {[ 1 := Lru.mkNode 0%nat 1 "a" 1 ]} (Some [mkPtr 0%nat 1]) true
       1%nat)
    3
    (Lru.mkCache 4 {[ 1 := Lru.mkNode 0%nat 1 1 1 ]} (Some [mkPtr 0%nat 1]) true
       1%nat).

(** An [ArcLfuPart] of capacity 1 as it is after [put(1, "a")] and
    [put(2, "b")]: key 2 is resident and key 1, evicted by the second
    [put], is in the ghost index. *)
Definition arclfu_ghost : ArcLfu.ArcLfuPart Z string :=
  ArcLfu.mkPart 1 1 1 1
    {[ 2 := ArcLfu.mkNode 1%nat 2 "b" 1 ]}
    {[ 1 := mkPtr 0%nat 1 ]}
    {[ 1 := [mkPtr 1%nat 2] ]}
    [mkPtr 0%nat 1] 2%nat.

(** An [ArcLfuPart] of capacity 2 as it is after [put(1, "a")],
    [put(2, "b")] and [get(1)]: key 1 has been accessed twice, key 2
    once. *)
Definition arclfu_two : ArcLfu.ArcLfuPart Z string :=
  ArcLfu.mkPart 2 2 2 1
    (<[1 := ArcLfu.mkNode 0%nat 1 "a" 2]> (<[2 := ArcLfu.mkNode 1%nat 2 "b" 1]> ∅))
    ∅
    (<[2 := [mkPtr 0%nat 1]]> (<[1 := [mkPtr 1%nat 2]]> ∅))
    [] 2%nat.

End Scenario.

(** ** Predicates of the statements *)

(** A key map and a list of node handles agree: no node is linked
    twice, every node of the map is stored under its own key and is
    linked, and every linked node is a node of the map. *)
Definition list_agree {Key : Type} `{Countable Key} {Value : Type}
    (m : gmap Key (Lru.LruNode Key Value)) (l : list (NodePtr Key)) : Prop :=
  NoDup l
  ∧ (∀ k n, m !! k = Some n → Lru.key_ n = k ∧ Lru.ptr_of n ∈ l)
  ∧ (∀ p, p ∈ l → ∃ n, m !! ptr_key p = Some n ∧ Lru.ptr_of n = p).

(** Map and list of an [LruCache] agree: the sentinels are installed
    and the key map agrees with the list between them. *)
Definition Lru_agree {Key : Type} `{Countable Key} {Value : Type}
    (c : Lru.LruCache Key Value) : Prop :=
  ∃ l, Lru.links c = Some l ∧ list_agree (Lru.nodeMap_ c) l.

(** An [LruCache] is well linked: map and list agree and the list is
    closed, that is, linked in both directions from sentinel to
    sentinel. *)
Definition Lru_wf {Key : Type} `{Countable Key} {Value : Type}
    (c : Lru.LruCache Key Value) : Prop :=
  Lru.closed c = true ∧ Lru_agree c.

(** The key a public operation of [LruCache] is called with. *)
Definition lru_op_key {Key Value : Type} (o : Lru.Op Key Value) : Key :=
  match o with
  | Lru.Put key _ => key
  | Lru.Get key _ => key
  | Lru.GetValue key => key
  | Lru.Remove key => key
  end.

(** The ghost index of an [ArcLfuPart] agrees with its ghost list:
    every node of [ghostCache_] is linked in the list, under its key. *)
Definition ghost_ok {Key : Type} `{Countable Key}
    (index : gmap Key (NodePtr Key)) (l : list (NodePtr Key)) : Prop :=
  ∀ k h, index !! k = Some h → h ∈ l ∧ ptr_key h = k.

(** The main cache of an [ArcLfuPart] agrees with its frequency lists:
    every node of the main cache is stored under its key and is in the
    frequency list of its access count; every node of a frequency list
    is a node of the main cache with that access count; no frequency
    list is empty or holds a node twice; and [minFreq] names a frequency
    list whenever the main cache is not empty. *)
Definition freq_ok {Key : Type} `{Countable Key} {Value : Type}
    (main : gmap Key (ArcLfu.ArcNode Key Value))
    (freqMap : gmap Z (list (NodePtr Key))) (minFreq : Z) : Prop :=
  (∀ k n, main !! k = Some n →
          ArcLfu.key_ n = k
          ∧ ∃ l, freqMap !! ArcLfu.accessCount_ n = Some l
                 ∧ ArcLfu.ptr_of n ∈ l)
  ∧ (∀ f l x, freqMap !! f = Some l → x ∈ l →
              ∃ n, main !! ptr_key x = Some n
                   ∧ ArcLfu.ptr_of n = x ∧ ArcLfu.accessCount_ n = f)
  ∧ (∀ f l, freqMap !! f = Some l → l ≠ [] ∧ NoDup l)
  ∧ (main ≠ ∅ → is_Some (freqMap !! minFreq)).

(** The invariant of an [ArcLfuPart]: the ghost index agrees with the
    ghost list and the main cache with the frequency lists. *)
Definition ArcLfu_inv {Key : Type} `{Countable Key} {Value : Type}
    (p : ArcLfu.ArcLfuPart Key Value) : Prop :=
  ghost_ok (ArcLfu.ghostCache_ p) (ArcLfu.ghost p)
  ∧ freq_ok (ArcLfu.mainCache_ p) (ArcLfu.freqMap_ p) (ArcLfu.minFreq_ p).

(** [minFreq] is a lower bound of the access counts that have a
    frequency list, and every such count is at least 1. *)
Definition freq_min {Key : Type}
    (freqMap : gmap Z (list (NodePtr Key))) (minFreq : Z) : Prop :=
  ∀ f l, freqMap !! f = Some l → 1 ≤ f ∧ minFreq ≤ f.

Definition lru_capacity {Key : Type} `{Countable Key} {Value : Type}
    (c : Arc.ArcCache Key Value) : Z :=
  ArcLru.capacity_ (Arc.lruPart_ c).

Definition lfu_capacity {Key : Type} `{Countable Key} {Value : Type}
    (c : Arc.ArcCache Key Value) : Z :=
  ArcLfu.capacity_ (Arc.lfuPart_ c).

Definition op_key {Key Value : Type} (o : Arc.Op Key Value) : Key :=
  match o with
  | Arc.Put key _ => key
  | Arc.Get key _ => key
  end.

(** What an operation on [key] does to the two capacities, from the
    state [c] before it to the state [c'] after it. *)
Definition capacity_shift {Key : Type} `{Countable Key} {Value : Type}
    (key : Key) (c c' : Arc.ArcCache Key Value) : Prop :=
  if decide (key ∈ ArcLru.ghost (Arc.lruPart_ c)) then
    if decide (lfu_capacity c = 0)
    then lru_capacity c' = lru_capacity c ∧ lfu_capacity c' = lfu_capacity c
    else lru_capacity c' = lru_capacity c + 1
         ∧ lfu_capacity c' = lfu_capacity c - 1
  else if decide (is_Some (ArcLfu.ghostCache_ (Arc.lfuPart_ c) !! key)) then
    if decide (lru_capacity c = 0)
    then lru_capacity c' = lru_capacity c ∧ lfu_capacity c' = lfu_capacity c
    else lfu_capacity c' = lfu_capacity c + 1
         ∧ lru_capacity c' = lru_capacity c - 1
  else lru_capacity c' = lru_capacity c ∧ lfu_capacity c' = lfu_capacity c.

(** The invariant of the coordinator for a total budget [total]. *)
Definition Arc_inv {Key : Type} `{Countable Key} {Value : Type}
    (total : Z) (c : Arc.ArcCache Key Value) : Prop :=
  ghost_ok (ArcLfu.ghostCache_ (Arc.lfuPart_ c)) (ArcLfu.ghost (Arc.lfuPart_ c))
  ∧ 0 ≤ lru_capacity c ∧ 0 ≤ lfu_capacity c
  ∧ lru_capacity c + lfu_capacity c = total.

(** * Properties *)

(** ** LruCache *)

Section LruFacts.
Context {Key : Type} `{Countable Key} {Value : Type}.
Implicit Types (c : Lru.LruCache Key Value) (n : Lru.LruNode Key Value).

Lemma Lru_put_absent c key value :
  Lru.nodeMap_ c !! key = None → Lru.put key value c = Some c.
Proof.
  intros Hk. unfold Lru.put. rewrite Hk. by destruct (decide _).
Qed.

Lemma Lru_get_absent c key value :
  Lru.nodeMap_ c !! key = None → Lru.get key value c = Some (false, value, c).
Proof. intros Hk. unfold Lru.get. by rewrite Hk. Qed.

Lemma Lru_remove_absent c key :
  Lru.nodeMap_ c !! key = None → Lru.remove key c = Some c.
Proof. intros Hk. unfold Lru.remove. by rewrite Hk. Qed.

(** [removeNode] of a linked node: it has no defined result exactly
    when the node is the last one of a list that is not closed. *)
Lemma Lru_removeNode_cases c (l : list (NodePtr Key)) (p : NodePtr Key) :
  Lru.links c = Some l → p ∈ l →
  Lru.removeNode p c
  = if decide (last l = Some p ∧ Lru.closed c = false) then None
    else Some (Lru.set_links (filter (λ x, x ≠ p) l) c).
Proof.
  intros Hl Hin. unfold Lru.removeNode. rewrite Hl. simpl.
  by rewrite decide_True.
Qed.

(** [move2MostRecent] of a linked node: when it returns, the node is
    the last one and the list is not closed. *)
Lemma Lru_move2MostRecent_cases c (l : list (NodePtr Key)) (p : NodePtr Key) :
  Lru.links c = Some l → p ∈ l →
  Lru.move2MostRecent p c
  = if decide (last l = Some p ∧ Lru.closed c = false) then None
    else Some (Lru.mkCache (Lru.capacity_ c) (Lru.nodeMap_ c)
                 (Some (filter (λ x, x ≠ p) l ++ [p])) false (Lru.allocated c)).
Proof.
  intros Hl Hin. unfold Lru.move2MostRecent.
  rewrite (Lru_removeNode_cases c l p Hl Hin). by destruct (decide _).
Qed.

Lemma Lru_moved_elem (l : list (NodePtr Key)) (p q : NodePtr Key) :
  q ∈ l → q ∈ filter (λ x, x ≠ p) l ++ [p].
Proof.
  intros Hq. destruct (decide (q = p)) as [->|Hne].
  - apply elem_of_app. right. by apply list_elem_of_singleton.
  - apply elem_of_app. left. by apply list_elem_of_filter.
Qed.

(** No public operation adds a key to the map. *)
Lemma Lru_step_dom (dflt : Value) (o : Lru.Op Key Value) c c' :
  Lru.step dflt o c = Some c' →
  Lru.capacity_ c' = Lru.capacity_ c ∧
  ∀ k, Lru.nodeMap_ c !! k = None → Lru.nodeMap_ c' !! k = None.
Proof.
  assert (Hmove : ∀ p (d d' : Lru.LruCache Key Value),
            Lru.move2MostRecent p d = Some d' →
            Lru.capacity_ d' = Lru.capacity_ d ∧ Lru.nodeMap_ d' = Lru.nodeMap_ d).
  { intros p d d'. unfold Lru.move2MostRecent, Lru.removeNode, Lru.insertNode.
    destruct (Lru.links d) as [l|]; simpl; [|done].
    destruct (decide _); simpl; [|done].
    destruct (decide _); simpl; [done|]. by intros [= <-]. }
  assert (Hget : ∀ key value r, Lru.get key value c = Some r →
            Lru.capacity_ r.2 = Lru.capacity_ c ∧ Lru.nodeMap_ r.2 = Lru.nodeMap_ c).
  { intros key value r. unfold Lru.get.
    destruct (Lru.nodeMap_ c !! key) as [n|]; [|by intros [= <-]].
    destruct (Lru.move2MostRecent _ c) as [d|] eqn:Hd; simpl; [|done].
    intros [= <-]. by apply Hmove in Hd. }
  destruct o as [key value|key value|key|key]; simpl.
  - unfold Lru.put. destruct (decide _) as [Hle|Hle]; [by intros [= <-]|].
    destruct (Lru.nodeMap_ c !! key) as [n|] eqn:Hk; [|by intros [= <-]].
    unfold Lru.updateExistingNode. intros Hd. apply Hmove in Hd as [-> ->].
    split; [done|]. intros k Hn. simpl.
    rewrite lookup_insert_ne; [done|congruence].
  - destruct (Lru.get key value c) as [r|] eqn:Hr; simpl; [|done].
    intros [= <-]. apply Hget in Hr as [-> ->]. done.
  - unfold Lru.get_value.
    destruct (Lru.get key dflt c) as [r|] eqn:Hr; simpl; [|done].
    intros [= <-]. apply Hget in Hr as [-> ->]. done.
  - unfold Lru.remove.
    destruct (Lru.nodeMap_ c !! key) as [n|] eqn:Hk; [|by intros [= <-]].
    unfold Lru.removeNode. destruct (Lru.links c) as [l|]; simpl; [|done].
    destruct (decide _); simpl; [|done].
    destruct (decide _); simpl; [done|]. intros [= <-]. simpl.
    split; [done|]. intros k Hn. rewrite lookup_delete. by case_decide.
Qed.

(** Every sequence of public calls on a fresh cache runs to the end and
    leaves the cache as constructed. *)
Lemma Lru_run_new (dflt : Value) (ops : list (Lru.Op Key Value)) (capacity : Z) :
  Lru.run dflt ops (Lru.new capacity) = Some (Lru.new capacity).
Proof.
  unfold Lru.run. induction ops as [|o ops IH] using rev_ind; [done|].
  rewrite foldl_app. simpl. rewrite IH. simpl.
  destruct o as [key value|key value|key|key]; simpl.
  - by apply Lru_put_absent.
  - by rewrite Lru_get_absent.
  - unfold Lru.get_value. by rewrite Lru_get_absent.
  - by apply Lru_remove_absent.
Qed.

End LruFacts.

(** ** LfuCache *)

Section LfuFacts.
Context {Key : Type} `{Countable Key} {Value : Type}.
Implicit Types (c : Lfu.LfuCache Key Value).

Lemma Lfu_put_absent c k v :
  Lfu.nodeMap_ c !! k = None → Lfu.put k v c = Some c.
Proof.
  intros Hk. unfold Lfu.put. rewrite Hk. by destruct (decide _).
Qed.

(** [get] writes neither the out parameter nor the cache. *)
Lemma Lfu_get_unfold c k v :
  Lfu.get k v c = (bool_decide (is_Some (Lfu.nodeMap_ c !! k)), v, c).
Proof.
  unfold Lfu.get. destruct (Lfu.nodeMap_ c !! k) as [p|] eqn:Hk.
  - by rewrite bool_decide_eq_true_2.
  - rewrite bool_decide_eq_false_2; [done|]. by intros [? ?].
Qed.

(** [put] leaves every field but the store as it was. *)
Lemma Lfu_put_fields c c' k v :
  Lfu.put k v c = Some c' →
  Lfu.set_store (Lfu.store c) c' = c.
Proof.
  unfold Lfu.put. destruct (decide _) as [Hz|Hz].
  { intros [= <-]. by destruct c. }
  destruct (Lfu.nodeMap_ c !! k) as [p|]; [|intros [= <-]; by destruct c].
  destruct (Lfu.update p _ (Lfu.store c)) as [h|]; simpl; [|done].
  intros [= <-]. by destruct c.
Qed.

Lemma Lfu_run_new (dflt : Value) (ops : list (Lfu.Op Key Value))
    (capacity maxAvgNum : Z) :
  Lfu.run dflt ops (Lfu.new capacity maxAvgNum) = Some (Lfu.new capacity maxAvgNum).
Proof.
  unfold Lfu.run. induction ops as [|o ops IH] using rev_ind; [done|].
  rewrite foldl_app. simpl. rewrite IH. simpl.
  destruct o as [k v|k v|k|]; simpl; [|done..].
  by apply Lfu_put_absent.
Qed.

End LfuFacts.

(** ** The claims *)

(** C1 (code defect).  For every capacity, also 1 and above, [put(k,v)]
    on a freshly constructed [LruCache] or [LfuCache] followed at once by
    [get(k)] misses: the flag is false, the out parameter keeps its
    content, and the cache is still as constructed.  [put] inserts
    nothing for an absent key. *)
Theorem C1_put_then_get_misses {Key : Type} `{Countable Key} {Value : Type}
    (capacity maxAvgNum : Z) (k : Key) (v out : Value) :
  (Lru.put k v (Lru.new capacity) ≫= Lru.get k out)
  = Some (false, out, Lru.new capacity)
  ∧ (Lfu.put k v (Lfu.new capacity maxAvgNum) ≫= λ c, Some (Lfu.get k out c))
    = Some (false, out, Lfu.new capacity maxAvgNum).
Proof.
  split.
  - rewrite Lru_put_absent by done. simpl. by apply Lru_get_absent.
  - rewrite Lfu_put_absent by done. simpl. by rewrite Lfu_get_unfold.
Qed.



(** No public operation of [LruCache] or [LfuCache] makes the key map
    larger, whatever the state it starts from. *)
Lemma Lru_step_size {Key : Type} `{Countable Key} {Value : Type}
    (dflt : Value) (o : Lru.Op Key Value) (c c' : Lru.LruCache Key Value) :
  Lru.step dflt o c = Some c' →
  Lru.capacity_ c' = Lru.capacity_ c ∧
  (size (Lru.nodeMap_ c') ≤ size (Lru.nodeMap_ c))%nat.
Proof.
  intros Hs. apply Lru_step_dom in Hs as [Hc Hd]. split; [done|].
  rewrite <- !size_dom. apply subseteq_size. intros k Hk.
  apply elem_of_dom in Hk. apply elem_of_dom.
  destruct (Lru.nodeMap_ c !! k) eqn:E; [done|].
  apply Hd in E. rewrite E in Hk. by destruct Hk.
Qed.

Lemma Lfu_step_size {Key : Type} `{Countable Key} {Value : Type}
    (dflt : Value) (o : Lfu.Op Key Value) (c c' : Lfu.LfuCache Key Value) :
  Lfu.step dflt o c = Some c' →
  Lfu.capacity_ c' = Lfu.capacity_ c ∧
  (size (Lfu.nodeMap_ c') ≤ size (Lfu.nodeMap_ c))%nat.
Proof.
  destruct o as [k v|k v|k|]; simpl.
  - intros Hp. apply Lfu_put_fields in Hp. rewrite <- Hp. done.
  - intros [= <-]. by rewrite Lfu_get_unfold.
  - intros [= <-]. unfold Lfu.get_value. by rewrite Lfu_get_unfold.
  - intros [= <-]. simpl. rewrite map_size_empty. split; [done|lia].
Qed.

(** C3 (refuted as stated).  An [LruCache] constructed with capacity -1
    holds no entry after a [put], and 0 entries are more than -1. *)
Lemma C3_negative_capacity :
  Lru.run EmptyString [Lru.Put 1 "a"%string] (Lru.new (-1))
  = Some (Lru.new (-1))
  ∧ ¬ (Z.of_nat (size (Lru.nodeMap_ (Lru.new (-1) : Lru.LruCache Z string)))
       ≤ Lru.capacity_ (Lru.new (-1) : Lru.LruCache Z string)).
Proof. split; [by vm_compute|]. vm_compute. by intros Hle; apply Hle. Qed.

(** C3 (amended).  For an [LruCache] and an [LfuCache] constructed with
    a capacity of at least 0, every sequence of public operations runs
    to its end, and after it the key map has at most [capacity_]
    entries. *)
Theorem C3_size_le_capacity {Key : Type} `{Countable Key} {Value : Type}
    (dflt : Value) (capacity maxAvgNum : Z)
    (ops : list (Lru.Op Key Value)) (ops' : list (Lfu.Op Key Value)) :
  0 ≤ capacity →
  (∃ c, Lru.run dflt ops (Lru.new capacity) = Some c
        ∧ Lru.capacity_ c = capacity
        ∧ Z.of_nat (size (Lru.nodeMap_ c)) ≤ Lru.capacity_ c)
  ∧ (∃ c, Lfu.run dflt ops' (Lfu.new capacity maxAvgNum) = Some c
          ∧ Lfu.capacity_ c = capacity
          ∧ Z.of_nat (size (Lfu.nodeMap_ c)) ≤ Lfu.capacity_ c).
Proof.
  intros Hc. split.
  - exists (Lru.new capacity). split; [apply Lru_run_new|]. simpl.
    rewrite map_size_empty. split; [done|lia].
  - exists (Lfu.new capacity maxAvgNum). split; [apply Lfu_run_new|]. simpl.
    rewrite map_size_empty. split; [done|lia].
Qed.

Lemma C3_size_le_capacity_witness :
  0 ≤ 2
  ∧ (∃ c, Lru.run EmptyString
            [Lru.Put 1 "a"%string; Lru.Put 2 "b"%string; Lru.Put 3 "c"%string;
             Lru.Get 1 EmptyString; Lru.Remove 2]
            (Lru.new 2) = Some c
          ∧ Lru.capacity_ c = 2
          ∧ Z.of_nat (size (Lru.nodeMap_ c)) ≤ Lru.capacity_ c)
  ∧ (∃ c, Lfu.run EmptyString
            [Lfu.Put 1 "a"%string; Lfu.Put 2 "b"%string; Lfu.Put 3 "c"%string;
             Lfu.Get 1 EmptyString]
            (Lfu.new 2 10) = Some c
          ∧ Lfu.capacity_ c = 2
          ∧ Z.of_nat (size (Lfu.nodeMap_ c)) ≤ Lfu.capacity_ c).
Proof.
  split; [lia|]. apply (C3_size_le_capacity (Key:=Z) (Value:=string)). lia.
Defined.

(** C6.  An [LruCache] or [LfuCache] constructed with a capacity of 0
    or less never holds an entry: every sequence of public operations
    runs to its end with an empty key map, and in the state it reaches
    [put] changes nothing, [get] returns false and leaves the out
    parameter, and the by-value [get] returns the default value. *)
Theorem C6_dead_cache {Key : Type} `{Countable Key} {Value : Type}
    (dflt : Value) (capacity maxAvgNum : Z)
    (ops : list (Lru.Op Key Value)) (ops' : list (Lfu.Op Key Value)) :
  capacity ≤ 0 →
  (∃ c, Lru.run dflt ops (Lru.new capacity) = Some c
        ∧ Lru.nodeMap_ c = ∅
        ∧ (∀ k v, Lru.put k v c = Some c)
        ∧ (∀ k out, Lru.get k out c = Some (false, out, c))
        ∧ (∀ k, Lru.get_value dflt k c = Some (dflt, c)))
  ∧ (∃ c, Lfu.run dflt ops' (Lfu.new capacity maxAvgNum) = Some c
          ∧ Lfu.nodeMap_ c = ∅
          ∧ (∀ k v, Lfu.put k v c = Some c)
          ∧ (∀ k out, Lfu.get k out c = (false, out, c))
          ∧ (∀ k, Lfu.get_value dflt k c = (dflt, c))).
Proof.
  intros Hc. split.
  - exists (Lru.new capacity). split; [apply Lru_run_new|].
    repeat split; intros; try done. by apply Lru_put_absent.
  - exists (Lfu.new capacity maxAvgNum). split; [apply Lfu_run_new|].
    repeat split; intros; try done. by apply Lfu_put_absent.
Qed.

Lemma C6_dead_cache_witness :
  -1 ≤ 0
  ∧ (∃ c, Lru.run EmptyString
            [Lru.Put 1 "a"%string; Lru.Get 1 EmptyString; Lru.Remove 1]
            (Lru.new (-1)) = Some c
        ∧ Lru.nodeMap_ c = ∅
        ∧ (∀ k v, Lru.put k v c = Some c)
        ∧ (∀ k out, Lru.get k out c = Some (false, out, c))
        ∧ (∀ k, Lru.get_value EmptyString k c = Some (EmptyString, c)))
  ∧ (∃ c, Lfu.run EmptyString
            [Lfu.Put 1 "a"%string; Lfu.Get 1 EmptyString; Lfu.Purge]
            (Lfu.new (-1) 10) = Some c
          ∧ Lfu.nodeMap_ c = ∅
          ∧ (∀ k v, Lfu.put k v c = Some c)
          ∧ (∀ k out, Lfu.get k out c = (false, out, c))
          ∧ (∀ k, Lfu.get_value EmptyString k c = (EmptyString, c))).
Proof.
  split; [lia|]. apply (C6_dead_cache (Key:=Z) (Value:=string)). lia.
Defined.

(** ** LruKCache *)

Section LruKRuns.
Context {Key : Type} `{Countable Key} {Value : Type} `{EqDecision Value}.
Implicit Types (c : LruK.LruKCache Key Value).

(** An access to a key that neither cache holds. *)
Lemma LruK_unseen_access (empty : Value) c key value :
  Lru.nodeMap_ (LruK.base c) !! key = None →
  Lru.nodeMap_ (LruK.historyList_ c) !! key = None →
  LruK.put empty key value c = Some c
  ∧ LruK.get empty key c = Some (empty, c).
Proof.
  intros Hb Hh. destruct c as [b k h]. simpl in *. split.
  - unfold LruK.put, Lru.get_value. simpl.
    rewrite (Lru_get_absent b key empty Hb). simpl.
    rewrite decide_False by (by intros Hne; apply Hne).
    rewrite (Lru_get_absent h key 0 Hh). simpl.
    rewrite (Lru_put_absent h key _ Hh). simpl.
    destruct (decide _); [|done].
    rewrite (Lru_remove_absent h key Hh). simpl.
    by rewrite (Lru_put_absent b key value Hb).
  - unfold LruK.get, Lru.get_value. simpl.
    rewrite (Lru_get_absent h key 0 Hh). simpl.
    rewrite (Lru_put_absent h key _ Hh). simpl.
    by rewrite (Lru_get_absent b key empty Hb).
Qed.


End LruKRuns.


(** ** ArcCache *)

Section ArcFacts.
Context {Key : Type} `{Countable Key} {Value : Type}.
Implicit Types (p : ArcLfu.ArcLfuPart Key Value) (q : ArcLru.ArcLruPart Key Value)
  (c : Arc.ArcCache Key Value).

Local Abbreviation G p := (ghost_ok (ArcLfu.ghostCache_ p) (ArcLfu.ghost p)).

(** Closes a goal [∃ p', Some p = Some p' ∧ G p' ∧ _] by the state itself. *)
Local Ltac same_state Hg :=
  eexists; split; [reflexivity|]; split; [exact Hg|try reflexivity; try done].

Lemma ghost_ok_unlink (index : gmap Key (NodePtr Key)) (l : list (NodePtr Key))
    (x : NodePtr Key) :
  ghost_ok index l →
  ghost_ok (delete (ptr_key x) index) (filter (λ y, y ≠ x) l).
Proof.
  intros Hg k h Hk. apply lookup_delete_Some in Hk as [Hne Hk].
  destruct (Hg k h Hk) as [Hin Hkey]. split; [|done].
  apply list_elem_of_filter. split; [|done]. intros ->. congruence.
Qed.

Lemma ghost_ok_link (index : gmap Key (NodePtr Key)) (l : list (NodePtr Key))
    (x : NodePtr Key) :
  ghost_ok index l → ghost_ok (<[ptr_key x := x]> index) (l ++ [x]).
Proof.
  intros Hg k h Hk. rewrite lookup_insert in Hk. case_decide as Hkk.
  - injection Hk as <-. split; [|done]. apply elem_of_app. right.
    by apply list_elem_of_singleton.
  - destruct (Hg k h Hk) as [Hin Hkey]. split; [|done].
    apply elem_of_app. by left.
Qed.

Lemma ArcLfu_removeOldestGhost_total p :
  G p →
  ∃ p', ArcLfu.removeOldestGhost p = Some p' ∧ G p'
        ∧ ArcLfu.capacity_ p' = ArcLfu.capacity_ p.
Proof.
  intros Hg. unfold ArcLfu.removeOldestGhost.
  destruct (ArcLfu.ghost p) as [|x l] eqn:Hl; rewrite <- Hl in Hg;
    [same_state Hg|].
  unfold ArcLfu.removeFromGhost. rewrite Hl.
  rewrite decide_True by apply list_elem_of_here. simpl.
  eexists. split; [done|]. simpl. split; [|done].
  rewrite <- Hl. by apply ghost_ok_unlink.
Qed.

Lemma ArcLfu_evictLeastFrequency_total p :
  G p →
  ∃ p', ArcLfu.evictLeastFrequency p = Some p' ∧ G p'
        ∧ ArcLfu.capacity_ p' = ArcLfu.capacity_ p.
Proof.
  intros Hg. unfold ArcLfu.evictLeastFrequency.
  destruct (decide _) as [Hz|Hz]; [same_state Hg|].
  destruct (default [] _) as [|x rest]; [same_state Hg|].
  set (p1 := match rest with [] => _ | _ :: _ => _ end).
  assert (Hp1 : G p1 ∧ ArcLfu.capacity_ p1 = ArcLfu.capacity_ p).
  { subst p1. by destruct rest. }
  destruct Hp1 as [Hg1 Hc1].
  assert (Hp2 : ∃ p2,
    (if decide (ArcLfu.ghostCapacity_ p1 ≤ Z.of_nat (size (ArcLfu.ghostCache_ p1)))
     then ArcLfu.removeOldestGhost p1 else Some p1) = Some p2
    ∧ G p2 ∧ ArcLfu.capacity_ p2 = ArcLfu.capacity_ p1).
  { destruct (decide _); [by apply ArcLfu_removeOldestGhost_total|same_state Hg1]. }
  destruct Hp2 as (p2 & -> & Hg2 & Hc2). simpl.
  eexists. split; [done|]. simpl. split; [by apply ghost_ok_link|].
  by rewrite Hc2.
Qed.

Lemma ArcLfu_put_total p key value :
  G p →
  ∃ r, ArcLfu.put key value p = Some r ∧ G r.2
       ∧ ArcLfu.capacity_ r.2 = ArcLfu.capacity_ p.
Proof.
  intros Hg. unfold ArcLfu.put. destruct (decide _) as [Hz|Hz]; [same_state Hg|].
  destruct (ArcLfu.mainCache_ p !! key) as [n|].
  - eexists. split; [done|]. simpl.
    unfold ArcLfu.updateNodeFrequency. simpl.
    by destruct (filter _ _).
  - unfold ArcLfu.addNewNode.
    assert (Hp1 : ∃ p1,
      (if decide (ArcLfu.capacity_ p ≤ Z.of_nat (size (ArcLfu.mainCache_ p)))
       then ArcLfu.evictLeastFrequency p else Some p) = Some p1
      ∧ G p1 ∧ ArcLfu.capacity_ p1 = ArcLfu.capacity_ p).
    { destruct (decide _); [by apply ArcLfu_evictLeastFrequency_total|same_state Hg]. }
    destruct Hp1 as (p1 & -> & Hg1 & Hc1). simpl.
    eexists. split; [reflexivity|]. simpl. by split.
Qed.

Lemma ArcLfu_get_keeps p key value :
  G p →
  G (ArcLfu.get key value p).2
  ∧ ArcLfu.capacity_ (ArcLfu.get key value p).2 = ArcLfu.capacity_ p.
Proof.
  intros Hg. unfold ArcLfu.get. destruct (ArcLfu.mainCache_ p !! key) as [n|]; [|done].
  simpl. unfold ArcLfu.updateNodeFrequency. simpl. by destruct (filter _ _).
Qed.

Lemma ArcLfu_checkGhost_total p key :
  G p →
  ∃ p', ArcLfu.checkGhost key p
        = Some (bool_decide (is_Some (ArcLfu.ghostCache_ p !! key)), p')
        ∧ G p' ∧ ArcLfu.capacity_ p' = ArcLfu.capacity_ p.
Proof.
  intros Hg. unfold ArcLfu.checkGhost.
  destruct (ArcLfu.ghostCache_ p !! key) as [x|] eqn:Hk.
  - destruct (Hg key x Hk) as [Hin Hkey].
    unfold ArcLfu.removeFromGhost. rewrite decide_True by done. simpl.
    eexists. split; [done|]. simpl. split; [|done].
    rewrite <- Hkey. by apply ghost_ok_unlink.
  - same_state Hg.
Qed.

Lemma ArcLfu_decreaseCapacity_total p :
  G p → 0 ≤ ArcLfu.capacity_ p →
  ∃ p', ArcLfu.decreaseCapacity p
        = Some (bool_decide (ArcLfu.capacity_ p ≠ 0), p')
        ∧ G p'
        ∧ ArcLfu.capacity_ p'
          = if decide (ArcLfu.capacity_ p = 0) then 0 else ArcLfu.capacity_ p - 1.
Proof.
  intros Hg Hc. unfold ArcLfu.decreaseCapacity.
  destruct (decide (ArcLfu.capacity_ p ≤ 0)) as [Hz|Hz].
  - assert (Hz' : ArcLfu.capacity_ p = 0) by lia.
    rewrite bool_decide_eq_false_2 by (by intros Hne; apply Hne).
    rewrite decide_True by done. same_state Hg.
  - rewrite bool_decide_eq_true_2 by lia.
    rewrite (decide_False (P:=ArcLfu.capacity_ p = 0)) by lia.
    assert (Hp1 : ∃ p1,
      (if decide (Z.of_nat (size (ArcLfu.mainCache_ p)) = ArcLfu.capacity_ p)
       then ArcLfu.evictLeastFrequency p else Some p) = Some p1
      ∧ G p1 ∧ ArcLfu.capacity_ p1 = ArcLfu.capacity_ p).
    { destruct (decide _); [by apply ArcLfu_evictLeastFrequency_total|same_state Hg]. }
    destruct Hp1 as (p1 & -> & Hg1 & Hc1). simpl.
    eexists. split; [done|]. simpl. by rewrite Hc1.
Qed.

Lemma ArcLru_put_capacity q key value :
  ArcLru.capacity_ (ArcLru.put key value q).2 = ArcLru.capacity_ q.
Proof.
  unfold ArcLru.put. destruct (decide (ArcLru.capacity_ q = 0)); [done|].
  destruct (ArcLru.mainCache_ q !! key) as [e|]; [done|].
  simpl. destruct (decide _); [|done].
  unfold ArcLru.evictLeastRecent. by destruct (ArcLru.order q).
Qed.

Lemma ArcLru_get_capacity q key value st :
  ArcLru.capacity_ (ArcLru.get key value st q).2 = ArcLru.capacity_ q.
Proof.
  unfold ArcLru.get. by destruct (ArcLru.mainCache_ q !! key) as [e|].
Qed.

Lemma ArcLru_checkGhost_spec q key :
  (ArcLru.checkGhost key q).1 = bool_decide (key ∈ ArcLru.ghost q)
  ∧ ArcLru.capacity_ (ArcLru.checkGhost key q).2 = ArcLru.capacity_ q.
Proof.
  unfold ArcLru.checkGhost. destruct (decide _) as [Hin|Hin]; simpl.
  - by rewrite bool_decide_eq_true_2.
  - by rewrite bool_decide_eq_false_2.
Qed.

Lemma ArcLru_decreaseCapacity_spec q :
  0 ≤ ArcLru.capacity_ q →
  (ArcLru.decreaseCapacity q).1 = bool_decide (ArcLru.capacity_ q ≠ 0)
  ∧ ArcLru.capacity_ (ArcLru.decreaseCapacity q).2
    = if decide (ArcLru.capacity_ q = 0) then 0 else ArcLru.capacity_ q - 1.
Proof.
  intros Hc. unfold ArcLru.decreaseCapacity.
  destruct (decide (ArcLru.capacity_ q ≤ 0)) as [Hz|Hz]; simpl.
  - assert (Hz' : ArcLru.capacity_ q = 0) by lia.
    rewrite bool_decide_eq_false_2 by (by intros Hne; apply Hne).
    by rewrite decide_True.
  - rewrite bool_decide_eq_true_2 by lia.
    rewrite (decide_False (P:=ArcLru.capacity_ q = 0)) by lia.
    destruct (decide _); [|done].
    unfold ArcLru.evictLeastRecent. by destruct (ArcLru.order q).
Qed.

Lemma incr_in_range (z : Z) :
  0 ≤ z → z < MachineInt.SIZE_MAX → MachineInt.incr z = z + 1.
Proof.
  intros H0 H1. unfold MachineInt.incr, MachineInt.to_size_t.
  unfold MachineInt.SIZE_MAX in H1. apply Z.mod_small. lia.
Qed.

End ArcFacts.

Section ArcCoordinator.
Context {Key : Type} `{Countable Key} {Value : Type}.
Implicit Types (c : Arc.ArcCache Key Value).

Lemma Arc_new_inv (capacity transformThreshold : Z) :
  0 ≤ capacity →
  Arc_inv (2 * capacity)
    (Arc.new capacity transformThreshold : Arc.ArcCache Key Value).
Proof.
  intros Hc. unfold Arc_inv, lru_capacity, lfu_capacity. simpl.
  split; [|lia]. intros k h Hk. by rewrite lookup_empty in Hk.
Qed.

Lemma Arc_checkGhostCaches_spec (total : Z) (key : Key) c :
  total ≤ MachineInt.SIZE_MAX → Arc_inv total c →
  ∃ b c', Arc.checkGhostCaches key c = Some (b, c')
          ∧ Arc_inv total c' ∧ capacity_shift key c c'.
Proof.
  intros Ht (Hg & Hlru & Hlfu & Hsum).
  unfold lru_capacity, lfu_capacity in *.
  unfold Arc.checkGhostCaches, capacity_shift, Arc_inv, lru_capacity, lfu_capacity.
  destruct (ArcLru_checkGhost_spec (Arc.lruPart_ c) key) as [Hhit Hcap].
  destruct (ArcLru.checkGhost key (Arc.lruPart_ c)) as [inLru lru] eqn:Echk.
  simpl in Hhit, Hcap. subst inLru.
  destruct (decide (key ∈ ArcLru.ghost (Arc.lruPart_ c))) as [Hin|Hin].
  - rewrite bool_decide_eq_true_2 by done.
    destruct (ArcLfu_decreaseCapacity_total _ Hg Hlfu) as (lfu & -> & Hg' & Hc').
    simpl. destruct (decide (ArcLfu.capacity_ (Arc.lfuPart_ c) = 0)) as [Hz|Hz].
    + rewrite bool_decide_eq_false_2 by (by intros Hne; apply Hne).
      do 2 eexists. split; [done|]. simpl. rewrite Hc', Hcap.
      split; [split; [exact Hg'|lia]|lia].
    + rewrite bool_decide_eq_true_2 by done.
      do 2 eexists. split; [done|]. simpl. rewrite Hc', Hcap.
      rewrite incr_in_range by lia. split; [split; [exact Hg'|lia]|lia].
  - rewrite bool_decide_eq_false_2 by done.
    destruct (ArcLfu_checkGhost_total _ key Hg) as (lfu & -> & Hg' & Hc').
    simpl.
    destruct (decide (is_Some (ArcLfu.ghostCache_ (Arc.lfuPart_ c) !! key)))
      as [Hgh|Hgh].
    + rewrite bool_decide_eq_true_2 by done.
      assert (Hlru' : 0 ≤ ArcLru.capacity_ lru) by lia.
      destruct (ArcLru_decreaseCapacity_spec lru Hlru') as [Hok Hd].
      destruct (ArcLru.decreaseCapacity lru) as [ok lru'] eqn:Edec.
      simpl in Hok, Hd. subst ok. rewrite Hcap in Hd.
      destruct (decide (ArcLru.capacity_ (Arc.lruPart_ c) = 0)) as [Hz|Hz].
      * rewrite bool_decide_eq_false_2 by (rewrite Hcap; by intros Hne; apply Hne).
        do 2 eexists. split; [done|]. simpl. rewrite Hc', Hd.
        split; [split; [exact Hg'|lia]|lia].
      * rewrite bool_decide_eq_true_2 by (by rewrite Hcap).
        do 2 eexists. split; [done|]. simpl. rewrite Hc', Hd.
        rewrite incr_in_range by lia. split; [split; [exact Hg'|lia]|lia].
    + rewrite bool_decide_eq_false_2 by done.
      do 2 eexists. split; [done|]. simpl. rewrite Hc', Hcap.
      split; [split; [exact Hg'|lia]|lia].
Qed.

(** [put] and [get] change the capacities only through
    [checkGhostCaches]. *)
Lemma Arc_step_spec (total : Z) (o : Arc.Op Key Value) c :
  total ≤ MachineInt.SIZE_MAX → Arc_inv total c →
  ∃ c', Arc.step o c = Some c' ∧ Arc_inv total c'
        ∧ capacity_shift (op_key o) c c'.
Proof.
  intros Ht Hinv.
  destruct (Arc_checkGhostCaches_spec total (op_key o) c Ht Hinv)
    as (b & c1 & Hchk & (Hg & Hlru & Hlfu & Hsum) & Hshift).
  assert (Hkeep : ∀ lfu lru,
    ghost_ok (ArcLfu.ghostCache_ lfu) (ArcLfu.ghost lfu) →
    ArcLfu.capacity_ lfu = ArcLfu.capacity_ (Arc.lfuPart_ c1) →
    ArcLru.capacity_ lru = ArcLru.capacity_ (Arc.lruPart_ c1) →
    Arc_inv total (Arc.set_parts lfu lru c1)
    ∧ capacity_shift (op_key o) c (Arc.set_parts lfu lru c1)).
  { intros lfu lru Hg' Hc1 Hc2.
    unfold Arc_inv, capacity_shift, lru_capacity, lfu_capacity in *. simpl.
    rewrite Hc1, Hc2. done. }
  destruct o as [key value|key value]; simpl in *.
  - unfold Arc.put. rewrite Hchk. simpl.
    pose proof (ArcLru_put_capacity (Arc.lruPart_ c1) key value) as Hp.
    destruct (ArcLru.put key value (Arc.lruPart_ c1)) as [promoted lru].
    simpl in Hp. destruct b.
    + eexists. split; [done|]. by apply Hkeep.
    + destruct promoted.
      * destruct (ArcLfu_put_total (Arc.lfuPart_ c1) key value Hg)
          as ([ok lfu] & -> & Hg' & Hc'). simpl in *.
        eexists. split; [done|]. by apply Hkeep.
      * eexists. split; [done|]. by apply Hkeep.
  - unfold Arc.get. rewrite Hchk. simpl.
    pose proof (ArcLru_get_capacity (Arc.lruPart_ c1) key value false) as Hp.
    destruct (ArcLru.get key value false (Arc.lruPart_ c1))
      as [[[hit v] shouldTransform] lru].
    simpl in Hp. destruct hit.
    + destruct shouldTransform.
      * destruct (ArcLfu_put_total (Arc.lfuPart_ c1) key v Hg)
          as ([ok lfu] & -> & Hg' & Hc'). simpl in *.
        eexists. split; [done|]. by apply Hkeep.
      * eexists. split; [done|]. by apply Hkeep.
    + destruct (ArcLfu_get_keeps (Arc.lfuPart_ c1) key v Hg) as [Hg' Hc'].
      destruct (ArcLfu.get key v (Arc.lfuPart_ c1)) as [[hit' v'] lfu].
      simpl in *. eexists. split; [done|]. by apply Hkeep.
Qed.

Lemma Arc_run_inv (total : Z) (ops : list (Arc.Op Key Value)) c :
  total ≤ MachineInt.SIZE_MAX → Arc_inv total c →
  ∃ c', Arc.run ops c = Some c' ∧ Arc_inv total c'.
Proof.
  intros Ht Hinv. unfold Arc.run.
  induction ops as [|o ops IH] using rev_ind; [by eexists|].
  destruct IH as (c1 & Hrun & Hinv1). rewrite foldl_app. simpl. rewrite Hrun.
  simpl. destruct (Arc_step_spec total o c1 Ht Hinv1) as (c2 & Hs & Hinv2 & _).
  eauto.
Qed.

End ArcCoordinator.

(** C4.  For an [ArcCache] constructed with a capacity whose double
    fits [size_t], every sequence of [put] / [get] calls runs to its end
    in a state where the two capacities add up to twice the constructed
    capacity, and one more [put] or [get] leaves the sum as it was: a
    hit in the ghost of one half adds 1 to that half's capacity and
    takes 1 from the other half's when the other half's capacity is not
    0, and leaves both capacities when it is 0; without a ghost hit both
    capacities are unchanged. *)
Theorem C4_capacity_sum_preserved {Key : Type} `{Countable Key} {Value : Type}
    (capacity transformThreshold : Z)
    (ops : list (Arc.Op Key Value)) (o : Arc.Op Key Value) :
  0 ≤ capacity → 2 * capacity ≤ MachineInt.SIZE_MAX →
  ∃ c c', Arc.run ops (Arc.new capacity transformThreshold) = Some c
          ∧ Arc.step o c = Some c'
          ∧ lru_capacity c + lfu_capacity c = 2 * capacity
          ∧ lru_capacity c' + lfu_capacity c' = lru_capacity c + lfu_capacity c
          ∧ capacity_shift (op_key o) c c'.
Proof.
  intros Hc Ht.
  destruct (Arc_run_inv (2 * capacity) ops
              (Arc.new capacity transformThreshold) Ht (Arc_new_inv _ _ Hc))
    as (c & Hrun & Hinv).
  destruct (Arc_step_spec (2 * capacity) o c Ht Hinv) as (c' & Hs & Hinv' & Hsh).
  exists c, c'. repeat split; try done.
  - by destruct Hinv as (_ & _ & _ & ?).
  - destruct Hinv as (_ & _ & _ & ?). destruct Hinv' as (_ & _ & _ & ?). lia.
Qed.

Lemma C4_capacity_sum_preserved_witness :
  0 ≤ 2 ∧ 2 * 2 ≤ MachineInt.SIZE_MAX
  ∧ ∃ c c', Arc.run [Arc.Put 1 "a"%string; Arc.Put 2 "b"%string;
                     Arc.Put 3 "c"%string] (Arc.new 2 2) = Some c
            ∧ Arc.step (Arc.Put 1 "a"%string) c = Some c'
            ∧ lru_capacity c + lfu_capacity c = 2 * 2
            ∧ lru_capacity c' + lfu_capacity c' = lru_capacity c + lfu_capacity c
            ∧ capacity_shift 1 c c'.
Proof.
  split; [lia|]. split; [by vm_compute|].
  apply (C4_capacity_sum_preserved (Key:=Z) (Value:=string) 2 2
           [Arc.Put 1 "a"%string; Arc.Put 2 "b"%string; Arc.Put 3 "c"%string]
           (Arc.Put 1 "a"%string)).
  - lia.
  - by vm_compute.
Defined.

(** The scenario of the witness, evaluated: after three insertions into
    an [ArcCache] of capacity 2, key 1 is in the ghost of the LRU half
    and both capacities are 2; putting key 1 again moves one unit of
    capacity from the LFU half (2 to 1) to the LRU half (2 to 3). *)
Lemma Arc_ghost_hit_shifts_capacity :
  (Arc.run [Arc.Put 1 "a"%string; Arc.Put 2 "b"%string; Arc.Put 3 "c"%string]
     (Arc.new 2 2)
   ≫= λ c, Some (ArcLru.ghost (Arc.lruPart_ c), lru_capacity c, lfu_capacity c))
  = Some ([1], 2, 2)
  ∧ (Arc.run [Arc.Put 1 "a"%string; Arc.Put 2 "b"%string; Arc.Put 3 "c"%string;
              Arc.Put 1 "a"%string]
       (Arc.new 2 2)
     ≫= λ c, Some (ArcLru.ghost (Arc.lruPart_ c), lru_capacity c, lfu_capacity c))
    = Some ([], 3, 1).
Proof. split; vm_compute; reflexivity. Qed.

(** An [ArcCache] constructed with capacity 0 stays as constructed under
    every sequence of [put] / [get] calls, and every [get] on it
    misses. *)
Lemma Arc_dead_cache {Key : Type} `{Countable Key} {Value : Type}
    (transformThreshold : Z) (ops : list (Arc.Op Key Value))
    (key : Key) (out : Value) :
  Arc.run ops (Arc.new 0 transformThreshold) = Some (Arc.new 0 transformThreshold)
  ∧ Arc.get key out (Arc.new 0 transformThreshold)
    = Some (false, out, Arc.new 0 transformThreshold).
Proof.
  split; [|done]. unfold Arc.run.
  induction ops as [|o ops IH] using rev_ind; [done|].
  rewrite foldl_app. simpl. rewrite IH. by destruct o.
Qed.

(** * Further properties of the code *)

(** ** LruCache: agreement of map and list *)

Section LruAgreement.
Context {Key : Type} `{Countable Key} {Value : Type}.
Implicit Types (m : gmap Key (Lru.LruNode Key Value))
  (n : Lru.LruNode Key Value) (l : list (NodePtr Key)).

Lemma list_agree_empty :
  list_agree (∅ : gmap Key (Lru.LruNode Key Value)) [].
Proof.
  split; [apply NoDup_nil_2|]. split.
  - intros k n Hk. by rewrite lookup_empty in Hk.
  - intros p Hp. by apply elem_of_nil in Hp.
Qed.

(** The list after a node has been moved to the tail. *)
Lemma Lru_moved_NoDup l (p : NodePtr Key) :
  NoDup l → NoDup (filter (λ x, x ≠ p) l ++ [p]).
Proof.
  intros Hnd. apply NoDup_app. split; [by apply NoDup_filter|]. split.
  - intros x Hx Hp. apply list_elem_of_filter in Hx as [Hne _].
    apply list_elem_of_singleton in Hp. done.
  - apply NoDup_singleton.
Qed.

Lemma Lru_moved_elem_iff l (p q : NodePtr Key) :
  p ∈ l → (q ∈ filter (λ x, x ≠ p) l ++ [p] ↔ q ∈ l).
Proof.
  intros Hp. split.
  - intros Hq. apply elem_of_app in Hq as [Hq|Hq].
    + by apply list_elem_of_filter in Hq as [_ ?].
    + apply list_elem_of_singleton in Hq. by subst.
  - apply Lru_moved_elem.
Qed.

(** Moving a node of the map to the tail keeps the agreement. *)
Lemma list_agree_moved m l n k :
  list_agree m l → m !! k = Some n →
  list_agree m (filter (λ x, x ≠ Lru.ptr_of n) l ++ [Lru.ptr_of n]).
Proof.
  intros (Hnd & Hm & Hp) Hk.
  assert (Hin : Lru.ptr_of n ∈ l) by (by apply Hm in Hk as [_ ?]).
  split; [by apply Lru_moved_NoDup|]. split.
  - intros k' n' Hk'. destruct (Hm k' n' Hk') as [? ?].
    split; [done|]. by apply Lru_moved_elem.
  - intros q Hq. apply Lru_moved_elem_iff in Hq; [|done]. by apply Hp.
Qed.

(** Overwriting the value of a node of the map keeps the agreement. *)
Lemma list_agree_setValue m l n k value :
  list_agree m l → m !! k = Some n →
  list_agree (<[k := Lru.setValue value n]> m) l.
Proof.
  intros (Hnd & Hm & Hp) Hk.
  destruct (Hm k n Hk) as [Hkey Hin].
  split; [done|]. split.
  - intros k' n' Hk'. rewrite lookup_insert in Hk'.
    case_decide as Hkk.
    + injection Hk' as <-. subst k'. done.
    + by apply Hm.
  - intros q Hq. destruct (Hp q Hq) as (n' & Hn' & Hq').
    rewrite lookup_insert. case_decide as Hkk.
    + rewrite <- Hkk in Hn'. rewrite Hk in Hn'. injection Hn' as <-.
      eexists. split; [done|]. done.
    + eauto.
Qed.

(** Unlinking a node of the map and erasing its key keeps the
    agreement. *)
Lemma list_agree_removed m l n k :
  list_agree m l → m !! k = Some n →
  list_agree (delete k m) (filter (λ x, x ≠ Lru.ptr_of n) l).
Proof.
  intros (Hnd & Hm & Hp) Hk.
  destruct (Hm k n Hk) as [Hkey Hin].
  split; [by apply NoDup_filter|]. split.
  - intros k' n' Hk'. apply lookup_delete_Some in Hk' as [Hne Hk'].
    destruct (Hm k' n' Hk') as [Hkey' Hin']. split; [done|].
    apply list_elem_of_filter. split; [|done].
    intros Heq. apply (f_equal ptr_key) in Heq. simpl in Heq. congruence.
  - intros q Hq. apply list_elem_of_filter in Hq as [Hne Hq].
    destruct (Hp q Hq) as (n' & Hn' & Hq'). exists n'. split; [|done].
    rewrite lookup_delete_ne; [done|].
    intros Heq. rewrite <- Heq in Hn'. rewrite Hk in Hn'.
    injection Hn' as <-. done.
Qed.

(** Linking a new node for an absent key keeps the agreement. *)
Lemma list_agree_inserted m l key value id :
  list_agree m l → m !! key = None →
  list_agree (<[key := Lru.mkNode id key value 1]> m) (l ++ [mkPtr id key]).
Proof.
  intros (Hnd & Hm & Hp) Hk.
  assert (Hfresh : ∀ q, q ∈ l → ptr_key q ≠ key).
  { intros q Hq Heq. destruct (Hp q Hq) as (n & Hn & _). congruence. }
  split; [|split].
  - apply NoDup_app. split; [done|]. split; [|apply NoDup_singleton].
    intros q Hq Hq'. apply list_elem_of_singleton in Hq'. subst q.
    by apply (Hfresh _ Hq).
  - intros k' n' Hk'. rewrite lookup_insert in Hk'.
    case_decide as Hkk.
    + injection Hk' as <-. split; [done|]. apply elem_of_app. right.
      by apply list_elem_of_singleton.
    + destruct (Hm k' n' Hk') as [? ?]. split; [done|].
      apply elem_of_app. by left.
  - intros q Hq. apply elem_of_app in Hq as [Hq|Hq].
    + destruct (Hp q Hq) as (n & Hn & Hqn). exists n. split; [|done].
      rewrite lookup_insert_ne; [done|]. intros Heq. by apply (Hfresh q Hq).
    + apply list_elem_of_singleton in Hq. subst q. simpl.
      rewrite lookup_insert_eq. by eexists.
Qed.

(** The first node of a list of two or more distinct nodes is not its
    last. *)
Lemma NoDup_head_not_last l (p : NodePtr Key) :
  NoDup (p :: l) → l ≠ [] → last (p :: l) ≠ Some p.
Proof.
  intros Hnd Hne Hlast. apply NoDup_cons in Hnd as [Hnotin _].
  rewrite last_cons in Hlast. destruct (last l) as [y|] eqn:Hy.
  - injection Hlast as ->. by apply last_Some_elem_of in Hy.
  - assert (Hs : is_Some (last l)) by (by apply last_is_Some).
    rewrite Hy in Hs. by destruct Hs.
Qed.

End LruAgreement.

(** ** LruCache: the private insertion path *)

Section LruInsertion.
Context {Key : Type} `{Countable Key} {Value : Type}.
Implicit Types (c : Lru.LruCache Key Value) (n : Lru.LruNode Key Value)
  (l : list (NodePtr Key)).

Lemma Lru_evictLeastRecent_agree c p l :
  Lru.links c = Some (p :: l) →
  list_agree (Lru.nodeMap_ c) (p :: l) →
  Lru.closed c = true ∨ l ≠ [] →
  ∃ c', Lru.evictLeastRecent c = Some c'
        ∧ Lru.nodeMap_ c' = delete (ptr_key p) (Lru.nodeMap_ c)
        ∧ Lru.links c' = Some (filter (λ x, x ≠ p) (p :: l))
        ∧ list_agree (Lru.nodeMap_ c') (filter (λ x, x ≠ p) (p :: l))
        ∧ Lru.closed c' = Lru.closed c
        ∧ Lru.capacity_ c' = Lru.capacity_ c
        ∧ Lru.allocated c' = Lru.allocated c
        ∧ is_Some (Lru.nodeMap_ c !! ptr_key p).
Proof.
  intros Hl Hag Hok. pose proof Hag as (Hnd & Hm & Hp).
  destruct (Hp p) as (n & Hn & Hpn); [apply list_elem_of_here|].
  unfold Lru.evictLeastRecent. rewrite Hl. simpl.
  rewrite (Lru_removeNode_cases c (p :: l) p Hl) by apply list_elem_of_here.
  rewrite decide_False.
  2:{ intros [Hlast Hopen]. destruct Hok as [Hcl|Hne]; [congruence|].
      by apply (NoDup_head_not_last l p). }
  simpl. eexists. split; [reflexivity|]. simpl.
  split; [done|]. split; [done|]. split.
  - pose proof (list_agree_removed _ _ n (ptr_key p) Hag Hn) as Hr.
    rewrite Hpn in Hr. exact Hr.
  - repeat split; eauto.
Qed.

(** The insertion path on a cache whose map and list agree.  At
    capacity the first node is unlinked, which needs its [next_]: the
    list is closed or has a second node. *)
Lemma Lru_addNewNode_inserts c l key value :
  Lru.links c = Some l →
  list_agree (Lru.nodeMap_ c) l →
  0 < Lru.capacity_ c ≤ MachineInt.SIZE_MAX →
  Z.of_nat (size (Lru.nodeMap_ c)) ≤ Lru.capacity_ c →
  Lru.nodeMap_ c !! key = None →
  (Z.of_nat (size (Lru.nodeMap_ c)) = Lru.capacity_ c →
   Lru.closed c = true ∨ (1 < length l)%nat) →
  ∃ c', Lru.addNewNode key value c = Some c' ∧ Lru_agree c'
    ∧ Lru.closed c' = false
    ∧ Lru.capacity_ c' = Lru.capacity_ c
    ∧ Lru.nodeMap_ c' !! key
      = Some (Lru.mkNode (Lru.allocated c) key value 1)
    ∧ Z.of_nat (size (Lru.nodeMap_ c')) ≤ Lru.capacity_ c'
    ∧ (if decide (Z.of_nat (size (Lru.nodeMap_ c)) = Lru.capacity_ c)
       then ∃ p l', l = p :: l'
            ∧ Lru.nodeMap_ c'
              = <[key := Lru.mkNode (Lru.allocated c) key value 1]>
                  (delete (ptr_key p) (Lru.nodeMap_ c))
            ∧ Lru.links c'
              = Some (filter (λ x, x ≠ p) l ++ [mkPtr (Lru.allocated c) key])
       else Lru.nodeMap_ c'
            = <[key := Lru.mkNode (Lru.allocated c) key value 1]> (Lru.nodeMap_ c)
            ∧ Lru.links c' = Some (l ++ [mkPtr (Lru.allocated c) key])).
Proof.
  intros Hl Hag [Hc0 Hc1] Hsz Hk Hok.
  pose proof Hag as (Hnd & Hm & Hp).
  assert (Hcap : MachineInt.to_size_t (Lru.capacity_ c) = Lru.capacity_ c).
  { unfold MachineInt.to_size_t. apply Z.mod_small.
    unfold MachineInt.SIZE_MAX in Hc1. lia. }
  unfold Lru.addNewNode. rewrite Hcap.
  destruct (decide (Z.of_nat (size (Lru.nodeMap_ c)) = Lru.capacity_ c)) as [Hfull|Hroom].
  - rewrite decide_True by lia.
    destruct l as [|p l'].
    { exfalso. assert (Hne : Lru.nodeMap_ c ≠ ∅).
      { intros He. rewrite He, map_size_empty in Hfull. lia. }
      apply map_choose in Hne as (k0 & n0 & Hk0).
      apply Hm in Hk0 as [_ Hin]. by apply elem_of_nil in Hin. }
    destruct (Lru_evictLeastRecent_agree c p l' Hl Hag)
      as (c1 & -> & Hm1 & Hl1 & Hag1 & Hcl1 & Hcap1 & Ha1 & Hsome).
    { destruct (Hok Hfull) as [?|Hlen]; [by left|]. right.
      intros ->. simpl in Hlen. lia. }
    simpl. unfold Lru.insertNode. simpl. rewrite Hl1. simpl.
    assert (Hk1 : Lru.nodeMap_ c1 !! key = None).
    { rewrite Hm1. rewrite lookup_delete. case_decide; done. }
    pose proof (list_agree_inserted _ _ key value (Lru.allocated c1) Hag1 Hk1)
      as Hag2.
    eexists. split; [reflexivity|]. simpl.
    split; [by eexists|]. split; [done|].
    rewrite Ha1, Hcap1, Hm1. split; [done|].
    split; [apply lookup_insert_eq|]. split.
    + rewrite map_size_insert_None
        by (rewrite lookup_delete; case_decide; done).
      rewrite map_size_delete_Some by done.
      assert (size (Lru.nodeMap_ c) ≠ 0)%nat by lia. lia.
    + exists p, l'. done.
  - rewrite decide_False by lia. simpl. unfold Lru.insertNode. simpl.
    rewrite Hl. simpl.
    pose proof (list_agree_inserted _ _ key value (Lru.allocated c) Hag Hk) as Hag2.
    eexists. split; [reflexivity|]. simpl.
    split; [by eexists|]. split; [done|].
    split; [done|]. split; [apply lookup_insert_eq|]. split.
    + rewrite map_size_insert_None by done. lia.
    + done.
Qed.

(** X5.  The private insertion path [addNewNode] on a cache whose map
    and list agree, for an absent key and a capacity between 1 and
    [SIZE_MAX], where a list at capacity is closed or has at least two
    nodes (its first node is unlinked, which needs the [next_] of that
    node): the call returns, the new node holds the key and value with
    access count 1 and is the last node of the list, map and list
    agree, and a cache of at most [capacity_] entries stays so.  When
    the cache is at capacity exactly the first (head-adjacent) node is
    removed, from list and map; below capacity nothing is removed.  The
    list is not closed afterwards: the [next_] of the new node is null,
    not the tail sentinel. *)
Theorem Lru_addNewNode_spec c l key value :
  Lru.links c = Some l →
  list_agree (Lru.nodeMap_ c) l →
  0 < Lru.capacity_ c ≤ MachineInt.SIZE_MAX →
  Z.of_nat (size (Lru.nodeMap_ c)) ≤ Lru.capacity_ c →
  Lru.nodeMap_ c !! key = None →
  (Z.of_nat (size (Lru.nodeMap_ c)) = Lru.capacity_ c →
   Lru.closed c = true ∨ (1 < length l)%nat) →
  ∃ c', Lru.addNewNode key value c = Some c' ∧ Lru_agree c'
    ∧ Lru.closed c' = false
    ∧ Lru.capacity_ c' = Lru.capacity_ c
    ∧ Lru.nodeMap_ c' !! key
      = Some (Lru.mkNode (Lru.allocated c) key value 1)
    ∧ Z.of_nat (size (Lru.nodeMap_ c')) ≤ Lru.capacity_ c'
    ∧ (if decide (Z.of_nat (size (Lru.nodeMap_ c)) = Lru.capacity_ c)
       then ∃ p l', l = p :: l'
            ∧ Lru.nodeMap_ c'
              = <[key := Lru.mkNode (Lru.allocated c) key value 1]>
                  (delete (ptr_key p) (Lru.nodeMap_ c))
            ∧ Lru.links c'
              = Some (filter (λ x, x ≠ p) l ++ [mkPtr (Lru.allocated c) key])
       else Lru.nodeMap_ c'
            = <[key := Lru.mkNode (Lru.allocated c) key value 1]> (Lru.nodeMap_ c)
            ∧ Lru.links c' = Some (l ++ [mkPtr (Lru.allocated c) key])).
Proof.
  apply Lru_addNewNode_inserts.
Qed.

End LruInsertion.

(** ** LruCache: the public operations *)

Section LruPublic.
Context {Key : Type} `{Countable Key} {Value : Type}.
Implicit Types (c : Lru.LruCache Key Value) (n : Lru.LruNode Key Value)
  (l : list (NodePtr Key)).

(** A hit of [get]. *)
Lemma Lru_get_resident c l n key value :
  Lru.links c = Some l → list_agree (Lru.nodeMap_ c) l →
  Lru.nodeMap_ c !! key = Some n →
  Lru.get key value c
  = if decide (last l = Some (Lru.ptr_of n) ∧ Lru.closed c = false) then None
    else Some (true, Lru.value_ n,
               Lru.mkCache (Lru.capacity_ c) (Lru.nodeMap_ c)
                 (Some (filter (λ x, x ≠ Lru.ptr_of n) l ++ [Lru.ptr_of n]))
                 false (Lru.allocated c)).
Proof.
  intros Hl (_ & Hm & _) Hk. destruct (Hm key n Hk) as [_ Hin].
  unfold Lru.get. rewrite Hk.
  rewrite (Lru_move2MostRecent_cases c l _ Hl Hin). by destruct (decide _).
Qed.

(** [put] on a resident key of a cache of positive capacity. *)
Lemma Lru_put_resident c l n key value :
  0 < Lru.capacity_ c →
  Lru.links c = Some l → list_agree (Lru.nodeMap_ c) l →
  Lru.nodeMap_ c !! key = Some n →
  Lru.put key value c
  = if decide (last l = Some (Lru.ptr_of n) ∧ Lru.closed c = false) then None
    else Some (Lru.mkCache (Lru.capacity_ c)
                 (<[key := Lru.setValue value n]> (Lru.nodeMap_ c))
                 (Some (filter (λ x, x ≠ Lru.ptr_of n) l ++ [Lru.ptr_of n]))
                 false (Lru.allocated c)).
Proof.
  intros Hc Hl (_ & Hm & _) Hk. destruct (Hm key n Hk) as [_ Hin].
  unfold Lru.put. rewrite decide_False by lia. rewrite Hk.
  unfold Lru.updateExistingNode.
  rewrite (Lru_move2MostRecent_cases _ l (Lru.ptr_of n)) by done.
  by destruct (decide _).
Qed.

(** [remove] of a resident key. *)
Lemma Lru_remove_resident c l n key :
  Lru.links c = Some l → list_agree (Lru.nodeMap_ c) l →
  Lru.nodeMap_ c !! key = Some n →
  Lru.remove key c
  = if decide (last l = Some (Lru.ptr_of n) ∧ Lru.closed c = false) then None
    else Some (Lru.mkCache (Lru.capacity_ c) (delete key (Lru.nodeMap_ c))
                 (Some (filter (λ x, x ≠ Lru.ptr_of n) l))
                 (Lru.closed c) (Lru.allocated c)).
Proof.
  intros Hl (_ & Hm & _) Hk. destruct (Hm key n Hk) as [_ Hin].
  unfold Lru.remove. rewrite Hk.
  rewrite (Lru_removeNode_cases c l _ Hl Hin). by destruct (decide _).
Qed.

(** X1.  On a cache whose map and list agree, each public operation
    ([put], both [get]s, [remove]) either returns, and then keeps the
    agreement and the capacity and does not enlarge the key map, or has
    no defined result; the latter only when its key is resident, its
    node is the last node of the list and the list is not closed (the
    node has a null [next_]).  On a closed list every operation
    returns. *)
Theorem Lru_step_keeps_agreement (dflt : Value) (o : Lru.Op Key Value) c :
  Lru_agree c →
  match Lru.step dflt o c with
  | Some c' =>
      Lru_agree c' ∧ Lru.capacity_ c' = Lru.capacity_ c
      ∧ (size (Lru.nodeMap_ c') ≤ size (Lru.nodeMap_ c))%nat
  | None =>
      ∃ l n, Lru.links c = Some l ∧ Lru.closed c = false
             ∧ Lru.nodeMap_ c !! lru_op_key o = Some n
             ∧ last l = Some (Lru.ptr_of n)
  end
  ∧ (Lru.closed c = true → is_Some (Lru.step dflt o c)).
Proof.
  intros Hagree. pose proof Hagree as (l & Hl & Hag).
  assert (Hsame : Lru_agree c ∧ Lru.capacity_ c = Lru.capacity_ c
                  ∧ (size (Lru.nodeMap_ c) ≤ size (Lru.nodeMap_ c))%nat)
    by done.
  assert (Hget : ∀ key value,
    match (Lru.get key value c ≫= λ r, Some r.2) with
    | Some c' =>
        Lru_agree c' ∧ Lru.capacity_ c' = Lru.capacity_ c
        ∧ (size (Lru.nodeMap_ c') ≤ size (Lru.nodeMap_ c))%nat
    | None =>
        ∃ l n, Lru.links c = Some l ∧ Lru.closed c = false
               ∧ Lru.nodeMap_ c !! key = Some n
               ∧ last l = Some (Lru.ptr_of n)
    end
    ∧ (Lru.closed c = true → is_Some (Lru.get key value c ≫= λ r, Some r.2))).
  { intros key value. destruct (Lru.nodeMap_ c !! key) as [n|] eqn:Hk.
    - rewrite (Lru_get_resident c l n key value Hl Hag Hk).
      destruct (decide _) as [[Hlast Hopen]|Hno]; simpl.
      + split; [by exists l, n|]. congruence.
      + split; [|by eexists]. split; [|done].
        exists (filter (λ x, x ≠ Lru.ptr_of n) l ++ [Lru.ptr_of n]).
        split; [done|]. by eapply list_agree_moved.
    - rewrite (Lru_get_absent c key value Hk). simpl. split; [done|].
      by eexists. }
  destruct o as [key value|key value|key|key]; simpl.
  - destruct (decide (Lru.capacity_ c ≤ 0)) as [Hdead|Hlive].
    { unfold Lru.put. rewrite decide_True by done. split; [done|by eexists]. }
    destruct (Lru.nodeMap_ c !! key) as [n|] eqn:Hk.
    + rewrite (Lru_put_resident c l n key value) by (done || lia).
      destruct (decide _) as [[Hlast Hopen]|Hno]; simpl.
      * split; [by exists l, n|]. congruence.
      * split; [|by eexists]. split; [|split; [done|]].
        -- exists (filter (λ x, x ≠ Lru.ptr_of n) l ++ [Lru.ptr_of n]).
           split; [done|]. simpl.
           apply (list_agree_moved _ _ (Lru.setValue value n) key).
           ++ by eapply list_agree_setValue.
           ++ apply lookup_insert_eq.
        -- rewrite map_size_insert_Some; [done|by eexists].
    + rewrite (Lru_put_absent c key value Hk). split; [done|by eexists].
  - apply Hget.
  - unfold Lru.get_value.
    destruct (Hget key dflt) as [Hm Ht].
    destruct (Lru.get key dflt c) as [r|]; simpl in *; [|done].
    done.
  - destruct (Lru.nodeMap_ c !! key) as [n|] eqn:Hk.
    + rewrite (Lru_remove_resident c l n key Hl Hag Hk).
      destruct (decide _) as [[Hlast Hopen]|Hno]; simpl.
      * split; [by exists l, n|]. congruence.
      * split; [|by eexists]. split; [|split; [done|]].
        -- exists (filter (λ x, x ≠ Lru.ptr_of n) l).
           split; [done|]. simpl. by eapply list_agree_removed.
        -- rewrite map_size_delete_Some by (by eexists). lia.
    + rewrite (Lru_remove_absent c key Hk). split; [done|by eexists].
Qed.

(** X2.  A second access to the key just written has no defined
    result.  On a well-linked cache of positive capacity, [put(k, v)]
    on a resident key returns with the value overwritten and map and
    list in agreement, but it leaves the node of [k] as the last node
    with a null [next_]: the [get(k)], the [put(k, _)] and the
    [remove(k)] that follow have no defined result. *)
Theorem Lru_put_then_get_undefined c key value out :
  Lru_wf c → 0 < Lru.capacity_ c → is_Some (Lru.nodeMap_ c !! key) →
  ∃ c1, Lru.put key value c = Some c1
        ∧ Lru_agree c1
        ∧ Lru.value_ <$> Lru.nodeMap_ c1 !! key = Some value
        ∧ Lru.get key out c1 = None
        ∧ (∀ value', Lru.put key value' c1 = None)
        ∧ Lru.remove key c1 = None.
Proof.
  intros [Hcl (l & Hl & Hag)] Hc [n Hk].
  rewrite (Lru_put_resident c l n key value Hc Hl Hag Hk).
  rewrite decide_False by (intros [_ ?]; congruence).
  set (l1 := filter (λ x, x ≠ Lru.ptr_of n) l ++ [Lru.ptr_of n]).
  set (c1 := Lru.mkCache _ _ _ _ _).
  assert (Hl1 : Lru.links c1 = Some l1) by done.
  assert (Hk1 : Lru.nodeMap_ c1 !! key = Some (Lru.setValue value n)).
  { apply lookup_insert_eq. }
  assert (Hag1 : list_agree (Lru.nodeMap_ c1) l1).
  { apply (list_agree_moved _ _ (Lru.setValue value n) key); [|done].
    by eapply list_agree_setValue. }
  assert (Hlast : last l1 = Some (Lru.ptr_of (Lru.setValue value n))
                  ∧ Lru.closed c1 = false).
  { split; [apply last_snoc|done]. }
  exists c1. split; [done|]. split; [by exists l1|].
  split; [by rewrite Hk1|]. split; [|split].
  - rewrite (Lru_get_resident c1 l1 _ key out Hl1 Hag1 Hk1).
    by rewrite decide_True.
  - intros value'.
    rewrite (Lru_put_resident c1 l1 _ key value' Hc Hl1 Hag1 Hk1).
    by rewrite decide_True.
  - rewrite (Lru_remove_resident c1 l1 _ key Hl1 Hag1 Hk1).
    by rewrite decide_True.
Qed.

(** X3.  [remove(k)] on a well-linked cache (map and list agree, the
    list is closed) returns and erases exactly the key [k]; afterwards
    [get(k)] misses and leaves the out parameter; the cache is still
    well linked. *)
Theorem Lru_remove_then_get_misses c key out :
  Lru_wf c →
  ∃ c', Lru.remove key c = Some c'
        ∧ Lru.nodeMap_ c' = delete key (Lru.nodeMap_ c)
        ∧ Lru_wf c'
        ∧ Lru.get key out c' = Some (false, out, c').
Proof.
  intros [Hcl (l & Hl & Hag)].
  destruct (Lru.nodeMap_ c !! key) as [n|] eqn:Hk.
  - rewrite (Lru_remove_resident c l n key Hl Hag Hk).
    rewrite decide_False by (intros [_ ?]; congruence).
    eexists. split; [reflexivity|]. simpl. split; [done|]. split.
    + split; [done|]. eexists. split; [reflexivity|]. simpl.
      by eapply list_agree_removed.
    + apply Lru_get_absent. simpl. apply lookup_delete_eq.
  - exists c. rewrite (Lru_remove_absent c key Hk).
    split; [done|]. split; [by rewrite delete_id|]. split.
    + split; [done|]. by exists l.
    + by apply Lru_get_absent.
Qed.

(** X4.  The entry read last is not the next victim: when a
    well-linked cache at capacity holds at least one other key, a hit of
    [get(k)] followed by the insertion [addNewNode] of an absent key
    leaves [k] resident with its node. *)
Theorem Lru_most_recent_survives_eviction c k k2 n key value out :
  Lru_wf c →
  0 < Lru.capacity_ c ≤ MachineInt.SIZE_MAX →
  Z.of_nat (size (Lru.nodeMap_ c)) = Lru.capacity_ c →
  Lru.nodeMap_ c !! k = Some n →
  k2 ≠ k → is_Some (Lru.nodeMap_ c !! k2) →
  Lru.nodeMap_ c !! key = None →
  ∃ c1 c2, Lru.get k out c = Some (true, Lru.value_ n, c1)
           ∧ Lru.addNewNode key value c1 = Some c2
           ∧ Lru.nodeMap_ c2 !! k = Some n
           ∧ Lru.nodeMap_ c2 !! key
             = Some (Lru.mkNode (Lru.allocated c) key value 1).
Proof.
  intros [Hcl (l & Hl & Hag)] Hcap Hfull Hk Hne [n2 Hk2] Hkey.
  pose proof Hag as (Hnd & Hm & Hp).
  destruct (Hm k n Hk) as [Hkn Hin]. destruct (Hm k2 n2 Hk2) as [Hkn2 Hin2].
  rewrite (Lru_get_resident c l n k out Hl Hag Hk).
  rewrite decide_False by (intros [_ ?]; congruence).
  set (l1 := filter (λ p, p ≠ Lru.ptr_of n) l ++ [Lru.ptr_of n]).
  set (c1 := Lru.mkCache _ _ _ _ _).
  assert (Hag1 : list_agree (Lru.nodeMap_ c1) l1) by (by eapply list_agree_moved).
  assert (Hn2 : Lru.ptr_of n2 ∈ filter (λ x, x ≠ Lru.ptr_of n) l).
  { apply list_elem_of_filter. split; [|done]. intros Heq.
    apply (f_equal ptr_key) in Heq. simpl in Heq. congruence. }
  destruct (Lru_addNewNode_inserts c1 l1 key value eq_refl Hag1)
    as (c2 & Ha & _ & _ & _ & Hnew & _ & Hcase); try done.
  { simpl. lia. }
  { intros _. right. subst l1. rewrite length_app. simpl.
    destruct (filter (λ x, x ≠ Lru.ptr_of n) l) as [|q qs].
    - by apply elem_of_nil in Hn2.
    - simpl. lia. }
  simpl in Hcase. rewrite decide_True in Hcase by done.
  destruct Hcase as (p & l' & Hl1 & Hm2 & _).
  exists c1, c2. split; [done|]. split; [done|]. split; [|done].
  assert (Hp1 : p ∈ filter (λ x, x ≠ Lru.ptr_of n) l).
  { subst l1. destruct (filter (λ x, x ≠ Lru.ptr_of n) l) as [|q qs].
    - by apply elem_of_nil in Hn2.
    - simpl in Hl1. injection Hl1 as -> _. apply list_elem_of_here. }
  apply list_elem_of_filter in Hp1 as [Hpn Hpl].
  assert (Hpk : ptr_key p ≠ k).
  { intros Heq. destruct (Hp p Hpl) as (n' & Hn' & Hpn').
    rewrite Heq, Hk in Hn'. injection Hn' as <-. done. }
  rewrite Hm2. rewrite lookup_insert_ne by congruence.
  by rewrite lookup_delete_ne.
Qed.

(** X6.  The constructor installs no sentinels: on a cache as
    constructed the insertion path [addNewNode] has no defined result,
    whatever the capacity.  Once [initList] has run on a cache of
    capacity 1 to [SIZE_MAX], [addNewNode(k, v)] returns and makes [k]
    resident with [v], but the [get(k)] that follows has no defined
    result: the new node has a null [next_]. *)
Theorem Lru_addNewNode_needs_initList (capacity : Z) (key : Key)
    (value out : Value) :
  0 < capacity ≤ MachineInt.SIZE_MAX →
  Lru.addNewNode key value (Lru.new capacity) = None
  ∧ ∃ c1, Lru.addNewNode key value (Lru.initList (Lru.new capacity)) = Some c1
          ∧ Lru.nodeMap_ c1 !! key = Some (Lru.mkNode 0%nat key value 1)
          ∧ Lru.get key out c1 = None.
Proof.
  intros Hc. split.
  { unfold Lru.addNewNode. by destruct (decide _). }
  destruct (Lru_addNewNode_inserts
              (Lru.initList (Lru.new capacity)) [] key value eq_refl
              list_agree_empty)
    as (c1 & Ha & (l1 & Hl1 & Hag1) & Hcl1 & _ & Hnew & _ & Hcase); try done.
  { simpl. rewrite map_size_empty. lia. }
  { intros _. by left. }
  simpl in Hcase. rewrite map_size_empty in Hcase.
  rewrite decide_False in Hcase by (simpl; lia).
  destruct Hcase as [_ Hl1']. simpl in Hnew.
  exists c1. split; [done|]. split; [done|].
  rewrite (Lru_get_resident c1 l1 _ key out Hl1 Hag1 Hnew).
  rewrite decide_True; [done|]. split; [|done].
  rewrite Hl1 in Hl1'. by injection Hl1' as ->.
Qed.

End LruPublic.

(** The scenario caches are well linked. *)
Lemma lru_full_wf : Lru_wf Scenario.lru_full.
Proof.
  split; [done|]. exists [mkPtr 0%nat 1]. split; [done|].
  split; [apply NoDup_singleton|]. split.
  - intros k n Hk. simpl in Hk. apply lookup_singleton_Some in Hk as [<- <-].
    split; [done|]. by apply list_elem_of_singleton.
  - intros p Hp. apply list_elem_of_singleton in Hp as ->. by eexists.
Qed.

Lemma lru_two_wf : Lru_wf Scenario.lru_two.
Proof.
  split; [done|]. exists [mkPtr 0%nat 1; mkPtr 1%nat 2]. split; [done|].
  split; [|split].
  - apply NoDup_cons. split; [|apply NoDup_singleton].
    intros Hin. apply list_elem_of_singleton in Hin. discriminate Hin.
  - intros k n Hk. simpl in Hk.
    apply lookup_insert_Some in Hk as [[<- <-]|[_ Hk]].
    + split; [done|]. apply list_elem_of_here.
    + apply lookup_singleton_Some in Hk as [<- <-]. split; [done|].
      apply list_elem_of_further, list_elem_of_here.
  - intros p Hp. apply elem_of_cons in Hp as [->|Hp].
    + by eexists.
    + apply list_elem_of_singleton in Hp as ->. by eexists.
Qed.

Lemma Lru_addNewNode_spec_witness :
  ∃ c', Lru.addNewNode 2 "b"%string Scenario.lru_full = Some c'
    ∧ Lru_agree c'
    ∧ Lru.closed c' = false
    ∧ Lru.capacity_ c' = 1
    ∧ Lru.nodeMap_ c' !! 2 = Some (Lru.mkNode 1%nat 2 "b"%string 1)
    ∧ Z.of_nat (size (Lru.nodeMap_ c')) ≤ Lru.capacity_ c'
    ∧ ∃ p l', [mkPtr 0%nat 1] = p :: l'
        ∧ Lru.nodeMap_ c'
          = <[2 := Lru.mkNode 1%nat 2 "b"%string 1]>
              (delete (ptr_key p) (Lru.nodeMap_ Scenario.lru_full))
        ∧ Lru.links c'
          = Some (filter (λ x, x ≠ p) [mkPtr 0%nat 1] ++ [mkPtr 1%nat 2]).
Proof.
  apply (Lru_addNewNode_spec Scenario.lru_full [mkPtr 0%nat 1] 2 "b"%string).
  - reflexivity.
  - destruct lru_full_wf as [_ (l & Hl & Hag)]. by injection Hl as <-.
  - by vm_compute.
  - by vm_compute.
  - reflexivity.
  - intros _. by left.
Defined.

Lemma Lru_step_keeps_agreement_witness :
  match Lru.step EmptyString (Lru.Get 1 EmptyString) Scenario.lru_two with
  | Some c' =>
      Lru_agree c' ∧ Lru.capacity_ c' = Lru.capacity_ Scenario.lru_two
      ∧ (size (Lru.nodeMap_ c') ≤ size (Lru.nodeMap_ Scenario.lru_two))%nat
  | None =>
      ∃ l n, Lru.links Scenario.lru_two = Some l
             ∧ Lru.closed Scenario.lru_two = false
             ∧ Lru.nodeMap_ Scenario.lru_two !! 1 = Some n
             ∧ last l = Some (Lru.ptr_of n)
  end
  ∧ (Lru.closed Scenario.lru_two = true →
     is_Some (Lru.step EmptyString (Lru.Get 1 EmptyString) Scenario.lru_two)).
Proof.
  apply (Lru_step_keeps_agreement EmptyString (Lru.Get 1 EmptyString)
           Scenario.lru_two).
  apply lru_two_wf.
Defined.

Lemma Lru_put_then_get_undefined_witness :
  ∃ c1, Lru.put 1 "z"%string Scenario.lru_two = Some c1
        ∧ Lru_agree c1
        ∧ Lru.value_ <$> Lru.nodeMap_ c1 !! 1 = Some "z"%string
        ∧ Lru.get 1 EmptyString c1 = None
        ∧ (∀ value', Lru.put 1 value' c1 = None)
        ∧ Lru.remove 1 c1 = None.
Proof.
  apply (Lru_put_then_get_undefined Scenario.lru_two 1 "z"%string EmptyString).
  - apply lru_two_wf.
  - simpl. lia.
  - by eexists.
Defined.

Lemma Lru_remove_then_get_misses_witness :
  ∃ c', Lru.remove 1 Scenario.lru_two = Some c'
        ∧ Lru.nodeMap_ c' = delete 1 (Lru.nodeMap_ Scenario.lru_two)
        ∧ Lru_wf c'
        ∧ Lru.get 1 "zz"%string c' = Some (false, "zz"%string, c').
Proof.
  apply (Lru_remove_then_get_misses Scenario.lru_two 1 "zz"%string).
  apply lru_two_wf.
Defined.

Lemma Lru_most_recent_survives_eviction_witness :
  ∃ c1 c2, Lru.get 1 EmptyString Scenario.lru_two = Some (true, "a"%string, c1)
           ∧ Lru.addNewNode 3 "c"%string c1 = Some c2
           ∧ Lru.nodeMap_ c2 !! 1 = Some (Lru.mkNode 0%nat 1 "a"%string 1)
           ∧ Lru.nodeMap_ c2 !! 3 = Some (Lru.mkNode 2%nat 3 "c"%string 1).
Proof.
  apply (Lru_most_recent_survives_eviction Scenario.lru_two 1 2
           (Lru.mkNode 0%nat 1 "a"%string 1) 3 "c"%string EmptyString).
  - apply lru_two_wf.
  - by vm_compute.
  - reflexivity.
  - reflexivity.
  - discriminate.
  - by eexists.
  - reflexivity.
Defined.

Lemma Lru_addNewNode_needs_initList_witness :
  Lru.addNewNode 1 "a"%string (Lru.new 2) = None
  ∧ ∃ c1, Lru.addNewNode 1 "a"%string (Lru.initList (Lru.new 2)) = Some c1
          ∧ Lru.nodeMap_ c1 !! 1 = Some (Lru.mkNode 0%nat 1 "a"%string 1)
          ∧ Lru.get 1 EmptyString c1 = None.
Proof.
  apply (Lru_addNewNode_needs_initList (Key:=Z) 2 1 "a"%string EmptyString).
  by vm_compute.
Defined.

(** ** LruKCache: admission *)

Section LruKFacts.
Context {Key : Type} `{Countable Key} {Value : Type} `{EqDecision Value}.
Implicit Types (c : LruK.LruKCache Key Value).

(** X7.  A key that is in neither the main cache nor the history is
    not recorded by an access: [put] and [get] leave the whole cache as
    it was, whatever K is, and [get] returns the empty value. *)
Theorem LruK_unseen_key_not_recorded (empty : Value) c key value :
  Lru.nodeMap_ (LruK.base c) !! key = None →
  Lru.nodeMap_ (LruK.historyList_ c) !! key = None →
  LruK.put empty key value c = Some c
  ∧ LruK.get empty key c = Some (empty, c).
Proof.
  apply LruK_unseen_access.
Qed.

(** X8.  An [LruKCache] as constructed stays as constructed under every
    sequence of [put] and [get] calls, for every capacity, history
    capacity and K: no key is ever admitted, and every [get] returns the
    empty value. *)
Theorem LruK_never_admits (empty : Value) (capacity historyCapacity k : Z)
    (ops : list (LruK.Op Key Value)) (key : Key) :
  LruK.run empty ops (LruK.new capacity historyCapacity k)
  = Some (LruK.new capacity historyCapacity k)
  ∧ LruK.get empty key (LruK.new capacity historyCapacity k)
    = Some (empty, LruK.new capacity historyCapacity k).
Proof.
  assert (Hstep : ∀ (key' : Key) (value : Value),
    LruK.put empty key' value (LruK.new capacity historyCapacity k)
    = Some (LruK.new capacity historyCapacity k)
    ∧ LruK.get empty key' (LruK.new capacity historyCapacity k)
      = Some (empty, LruK.new capacity historyCapacity k)).
  { intros key' value. by apply LruK_unseen_access. }
  split; [|by apply (Hstep key empty)].
  unfold LruK.run. induction ops as [|o ops IH] using rev_ind; [done|].
  rewrite foldl_app. simpl. rewrite IH. simpl. destruct o as [key' value|key'].
  - by apply Hstep.
  - simpl. by rewrite (proj2 (Hstep key' empty)).
Qed.

(** X9.  [get] of an [LruKCache] whose two caches are well linked.
    When the key is counted in a history of positive capacity the call
    has no defined result: the history's [get] moves the node of the key
    to the end of the list, where [insertNode] leaves it with a null
    [next_], and the history's [put] unlinks it again.  Otherwise the
    call returns the value stored in the main cache for a resident key
    and the empty value for another, and leaves the key maps of the main
    cache and of the history as they were. *)
Theorem LruK_get_spec (empty : Value) c key :
  Lru_wf (LruK.base c) → Lru_wf (LruK.historyList_ c) →
  if decide (is_Some (Lru.nodeMap_ (LruK.historyList_ c) !! key)
             ∧ 0 < Lru.capacity_ (LruK.historyList_ c))
  then LruK.get empty key c = None
  else ∃ c', LruK.get empty key c
             = Some (match Lru.nodeMap_ (LruK.base c) !! key with
                     | Some n => Lru.value_ n
                     | None => empty
                     end, c')
         ∧ Lru.nodeMap_ (LruK.base c') = Lru.nodeMap_ (LruK.base c)
         ∧ Lru.nodeMap_ (LruK.historyList_ c')
           = Lru.nodeMap_ (LruK.historyList_ c).
Proof.
  intros [Hclb (lb & Hlb & Hagb)] [Hclh (lh & Hlh & Hagh)].
  assert (Hbase : ∀ h : Lru.LruCache Key Z,
    ∃ b', (Lru.get_value empty key (LruK.base c)
             ≫= λ m, Some (m.1, LruK.mkCache m.2 (LruK.k_ c) h))
          = Some (match Lru.nodeMap_ (LruK.base c) !! key with
                  | Some n => Lru.value_ n
                  | None => empty
                  end, LruK.mkCache b' (LruK.k_ c) h)
          ∧ Lru.nodeMap_ b' = Lru.nodeMap_ (LruK.base c)).
  { intros h. unfold Lru.get_value.
    destruct (Lru.nodeMap_ (LruK.base c) !! key) as [n|] eqn:Hk.
    - rewrite (Lru_get_resident _ lb n key empty Hlb Hagb Hk).
      rewrite decide_False by (intros [_ ?]; congruence).
      simpl. by eexists.
    - rewrite (Lru_get_absent _ key empty Hk). simpl. by eexists. }
  unfold LruK.get, Lru.get_value.
  destruct (Lru.nodeMap_ (LruK.historyList_ c) !! key) as [hn|] eqn:Hhk.
  - rewrite (Lru_get_resident _ lh hn key 0 Hlh Hagh Hhk).
    rewrite (decide_False (P := _ ∧ Lru.closed _ = false))
      by (intros [_ ?]; congruence).
    simpl.
    set (l1 := filter (λ x, x ≠ Lru.ptr_of hn) lh ++ [Lru.ptr_of hn]).
    set (h1 := Lru.mkCache _ _ _ _ _).
    destruct (decide (0 < Lru.capacity_ (LruK.historyList_ c))) as [Hpos|Hdead].
    + rewrite decide_True by (split; [by eexists|done]).
      assert (Hag1 : list_agree (Lru.nodeMap_ h1) l1)
        by (by eapply list_agree_moved).
      rewrite (Lru_put_resident h1 l1 hn key _ Hpos eq_refl Hag1 Hhk).
      rewrite decide_True; [done|]. split; [apply last_snoc|done].
    + rewrite decide_False by (intros [_ ?]; done).
      assert (Hq : ∀ v, Lru.put key v h1 = Some h1).
      { intros v. unfold Lru.put. rewrite decide_True; [done|]. simpl. lia. }
      rewrite Hq. simpl.
      destruct (Hbase h1) as (b' & Hb & Hm). unfold Lru.get_value in Hb.
      rewrite Hb. by eexists.
  - rewrite decide_False by (intros [[? ?] _]; done).
    rewrite (Lru_get_absent _ key 0 Hhk). simpl.
    rewrite (Lru_put_absent _ key _ Hhk). simpl.
    destruct (Hbase (LruK.historyList_ c)) as (b' & Hb & Hm).
    unfold Lru.get_value in Hb. rewrite Hb. by eexists.
Qed.

End LruKFacts.

Lemma LruK_unseen_key_not_recorded_witness :
  LruK.put EmptyString 7 "x"%string Scenario.lruk_resident
  = Some Scenario.lruk_resident
  ∧ LruK.get EmptyString 7 Scenario.lruk_resident
    = Some (EmptyString, Scenario.lruk_resident).
Proof.
  apply (LruK_unseen_key_not_recorded EmptyString Scenario.lruk_resident 7
           "x"%string); reflexivity.
Defined.

Lemma lruk_resident_wf :
  Lru_wf (LruK.base Scenario.lruk_resident)
  ∧ Lru_wf (LruK.historyList_ Scenario.lruk_resident).
Proof.
  split; (split; [done|]; exists [mkPtr 0%nat 1]; split; [done|];
          split; [apply NoDup_singleton|]; split;
          [ intros k n Hk; simpl in Hk;
            apply lookup_singleton_Some in Hk as [<- <-];
            split; [done|]; by apply list_elem_of_singleton
          | intros p Hp; apply list_elem_of_singleton in Hp as ->;
            by eexists ]).
Qed.

Lemma LruK_get_spec_witness :
  LruK.get EmptyString 1 Scenario.lruk_resident = None
  ∧ ∃ c', LruK.get EmptyString 7 Scenario.lruk_resident = Some (EmptyString, c')
          ∧ Lru.nodeMap_ (LruK.base c')
            = Lru.nodeMap_ (LruK.base Scenario.lruk_resident)
          ∧ Lru.nodeMap_ (LruK.historyList_ c')
            = Lru.nodeMap_ (LruK.historyList_ Scenario.lruk_resident).
Proof.
  split.
  - exact (LruK_get_spec EmptyString Scenario.lruk_resident 1
             (proj1 lruk_resident_wf) (proj2 lruk_resident_wf)).
  - exact (LruK_get_spec EmptyString Scenario.lruk_resident 7
             (proj1 lruk_resident_wf) (proj2 lruk_resident_wf)).
Defined.

(** ** LfuCache: the private frequency machinery *)

Section LfuInternals.
Context {Key : Type} `{Countable Key} {Value : Type}.
Implicit Types (c : Lfu.LfuCache Key Value) (h : list (Lfu.Node Key Value)).

Lemma Lfu_min_scan h (l : list (Z * Lfu.FreqList)) (m0 m : Z) :
  Lfu.foldM (λ m (b : Z * Lfu.FreqList),
               e ← Lfu.isEmpty b.2 h;
               Some (if e : bool then m else Z.min m b.1)) l m0 = Some m →
  m ≤ m0
  ∧ (m = m0 ∨ ∃ b, b ∈ l ∧ b.1 = m ∧ Lfu.isEmpty b.2 h = Some false)
  ∧ ∀ b, b ∈ l → Lfu.isEmpty b.2 h = Some false → m ≤ b.1.
Proof.
  revert m0. induction l as [|b l IH]; intros m0; simpl.
  - intros [= <-]. split; [lia|]. split; [by left|].
    intros b Hb. by apply elem_of_nil in Hb.
  - destruct (Lfu.isEmpty b.2 h) as [e|] eqn:He; simpl; [|done].
    intros Hf. apply IH in Hf as (Hle & Hor & Hall). destruct e.
    + split; [done|]. split.
      * destruct Hor as [->|(b' & Hb' & ? & ?)]; [by left|].
        right. exists b'. split; [by apply list_elem_of_further|done].
      * intros b' Hb' Hne. apply elem_of_cons in Hb' as [->|Hb'].
        -- congruence.
        -- by apply Hall.
    + split; [lia|]. split.
      * destruct Hor as [->|(b' & Hb' & ? & ?)].
        -- destruct (Z.min_spec m0 b.1) as [[? ->]|[? ->]]; [by left|].
           right. exists b. split; [apply list_elem_of_here|done].
        -- right. exists b'. split; [by apply list_elem_of_further|done].
      * intros b' Hb' Hne. apply elem_of_cons in Hb' as [->|Hb'].
        -- lia.
        -- by apply Hall.
Qed.

Lemma Lfu_min_scan_total h (l : list (Z * Lfu.FreqList)) (m0 : Z) :
  (∀ b, b ∈ l → is_Some (h !! Lfu.dummyHead_ b.2)) →
  is_Some (Lfu.foldM (λ m (b : Z * Lfu.FreqList),
               e ← Lfu.isEmpty b.2 h;
               Some (if e : bool then m else Z.min m b.1)) l m0).
Proof.
  revert m0. induction l as [|b l IH]; intros m0 Hall; simpl; [by eexists|].
  destruct (Hall b) as [hd Hhd]; [apply list_elem_of_here|].
  assert (He : is_Some (Lfu.isEmpty b.2 h)).
  { unfold Lfu.isEmpty. rewrite Hhd. by eexists. }
  destruct He as [e ->]. simpl. apply IH.
  intros b' Hb'. apply Hall. by apply list_elem_of_further.
Qed.

(** X10.  [updateMinFreq], when the head sentinel of every bucket is in
    the store, returns and writes [minFreq_] only.  The new [minFreq_]
    is below [INT8_MAX]: it is the least frequency of a non-empty bucket
    if some non-empty bucket has a frequency below [INT8_MAX], and it is
    1 if every non-empty bucket has a frequency of [INT8_MAX] or more
    (also when no bucket is non-empty). *)
Theorem Lfu_updateMinFreq_spec c :
  (∀ f l, Lfu.freqToFreqList_ c !! f = Some l →
          is_Some (Lfu.store c !! Lfu.dummyHead_ l)) →
  ∃ c', Lfu.updateMinFreq c = Some c'
    ∧ c' = Lfu.set_minFreq (Lfu.minFreq_ c') c
    ∧ Lfu.minFreq_ c' < MachineInt.INT8_MAX
    ∧ ((∃ f l, Lfu.freqToFreqList_ c !! f = Some l
               ∧ Lfu.isEmpty l (Lfu.store c) = Some false
               ∧ f < MachineInt.INT8_MAX) →
       (∃ l, Lfu.freqToFreqList_ c !! Lfu.minFreq_ c' = Some l
             ∧ Lfu.isEmpty l (Lfu.store c) = Some false)
       ∧ ∀ f l, Lfu.freqToFreqList_ c !! f = Some l →
                Lfu.isEmpty l (Lfu.store c) = Some false →
                Lfu.minFreq_ c' ≤ f)
    ∧ ((∀ f l, Lfu.freqToFreqList_ c !! f = Some l →
               Lfu.isEmpty l (Lfu.store c) = Some false →
               MachineInt.INT8_MAX ≤ f) →
       Lfu.minFreq_ c' = 1).
Proof.
  intros Hheads. unfold Lfu.updateMinFreq.
  destruct (Lfu_min_scan_total (Lfu.store c)
              (map_to_list (Lfu.freqToFreqList_ c)) MachineInt.INT8_MAX)
    as [m Hm].
  { intros [f l] Hb. apply elem_of_map_to_list in Hb. by eapply Hheads. }
  rewrite Hm. simpl. apply Lfu_min_scan in Hm as (Hle & Hor & Hall).
  eexists. split; [reflexivity|]. simpl. split; [done|].
  assert (Hall' : ∀ f l, Lfu.freqToFreqList_ c !! f = Some l →
            Lfu.isEmpty l (Lfu.store c) = Some false → m ≤ f).
  { intros f l Hf He. apply (Hall (f, l)); [|done].
    by apply elem_of_map_to_list. }
  unfold MachineInt.INT8_MAX in *.
  destruct (decide (m = 127)) as [->|Hne].
  - split; [lia|]. split; [|done].
    intros (f & l & Hf & He & Hlt). specialize (Hall' f l Hf He). lia.
  - destruct Hor as [->|([f l] & Hb & Hfm & He)]; [done|].
    apply elem_of_map_to_list in Hb. simpl in *. subst f.
    split; [lia|]. split.
    + intros _. split; [by exists l|]. exact Hall'.
    + intros Hbig. specialize (Hbig m l Hb He). lia.
Qed.

End LfuInternals.

Section LfuStore.
Context {Key : Type} `{Countable Key} {Value : Type}.
Implicit Types (c : Lfu.LfuCache Key Value) (h : list (Lfu.Node Key Value))
  (n : Lfu.Node Key Value).

Lemma Lfu_update_Some h p f n :
  h !! p = Some n → Lfu.update p f h = Some (<[p := f n]> h).
Proof. intros Hp. unfold Lfu.update. by rewrite Hp. Qed.

Lemma Lfu_store_insert_eq h p n x :
  h !! p = Some n → <[p := x]> h !! p = Some x.
Proof.
  intros Hp. apply list_lookup_insert_eq. by eapply lookup_lt_Some.
Qed.

(** X11.  [FreqList::addNode] does not append.  In a bucket whose tail
    sentinel still has the head sentinel as its [prev] (as constructed),
    adding node [a] and then node [b] leaves a chain from the head
    sentinel that consists of [b] alone: the first node is [b], the
    [next] of [b] is the tail sentinel, and the [prev] of the tail
    sentinel is still the head sentinel, while [a] keeps the tail
    sentinel as its [next] and is on the chain no more. *)
Theorem Lfu_addNode_keeps_only_last (l : Lfu.FreqList) (a b : Lfu.NodePtr)
    h (t : Lfu.Node Key Value) :
  Lfu.dummyHead_ l ≠ Lfu.dummyTail_ l →
  a ≠ b → a ≠ Lfu.dummyHead_ l → a ≠ Lfu.dummyTail_ l →
  b ≠ Lfu.dummyHead_ l → b ≠ Lfu.dummyTail_ l →
  h !! Lfu.dummyTail_ l = Some t → Lfu.prev t = Some (Lfu.dummyHead_ l) →
  is_Some (h !! Lfu.dummyHead_ l) → is_Some (h !! a) → is_Some (h !! b) →
  ∃ h', (Lfu.addNode l a h ≫= Lfu.addNode l b) = Some h'
    ∧ Lfu.getFirstNode l h' = Some b
    ∧ Lfu.next <$> h' !! b = Some (Some (Lfu.dummyTail_ l))
    ∧ Lfu.next <$> h' !! a = Some (Some (Lfu.dummyTail_ l))
    ∧ Lfu.prev <$> h' !! Lfu.dummyTail_ l = Some (Some (Lfu.dummyHead_ l))
    ∧ Lfu.isEmpty l h' = Some false.
Proof.
  intros Hht Hab Hah Hat Hbh Hbt Ht Hprev [d Hd] [na Ha] [nb Hb].
  unfold Lfu.NodePtr in *.
  assert (Hadd : ∀ x h0 d0 nx,
    x ≠ Lfu.dummyHead_ l → x ≠ Lfu.dummyTail_ l →
    h0 !! Lfu.dummyTail_ l = Some t → h0 !! Lfu.dummyHead_ l = Some d0 →
    h0 !! x = Some nx →
    Lfu.addNode l x h0
    = Some (<[Lfu.dummyHead_ l :=
               Lfu.set_prev (Some x) (Lfu.set_next (Some x) d0)]>
             (<[x := Lfu.set_next (Some (Lfu.dummyTail_ l))
                       (Lfu.set_prev (Some (Lfu.dummyHead_ l)) nx)]> h0))).
  { intros x h0 d0 nx Hxh Hxt Ht0 Hd0 Hx. unfold Lfu.addNode.
    unfold Lfu.NodePtr in *. rewrite Ht0. simpl. rewrite (Lfu_update_Some _ _ _ _ Hx). simpl.
    rewrite (Lfu_update_Some _ x _ (Lfu.set_prev (Lfu.prev t) nx))
      by (by eapply Lfu_store_insert_eq).
    simpl. rewrite list_insert_insert_eq.
    rewrite list_lookup_insert_ne by done. rewrite Ht0. simpl.
    rewrite Hprev. simpl.
    rewrite (Lfu_update_Some _ _ _ d0)
      by (by rewrite list_lookup_insert_ne).
    simpl.
    rewrite (Lfu_update_Some _ _ _ (Lfu.set_next (Some x) d0)).
    - by rewrite list_insert_insert_eq.
    - eapply Lfu_store_insert_eq. by rewrite list_lookup_insert_ne. }
  rewrite (Hadd a h d na Hah Hat Ht Hd Ha). cbn [mbind option_bind].
  set (h1 := <[Lfu.dummyHead_ l :=
                 Lfu.set_prev (Some a) (Lfu.set_next (Some a) d)]>
               (<[a := Lfu.set_next (Some (Lfu.dummyTail_ l))
                         (Lfu.set_prev (Some (Lfu.dummyHead_ l)) na)]> h)).
  assert (Ht1 : h1 !! Lfu.dummyTail_ l = Some t).
  { subst h1. by rewrite !list_lookup_insert_ne by done. }
  assert (Hd1 : h1 !! Lfu.dummyHead_ l
                = Some (Lfu.set_prev (Some a) (Lfu.set_next (Some a) d))).
  { subst h1. eapply Lfu_store_insert_eq. by rewrite list_lookup_insert_ne. }
  assert (Hb1 : h1 !! b = Some nb).
  { subst h1. by rewrite !list_lookup_insert_ne by done. }
  assert (Ha1 : h1 !! a = Some (Lfu.set_next (Some (Lfu.dummyTail_ l))
                                  (Lfu.set_prev (Some (Lfu.dummyHead_ l)) na))).
  { subst h1. rewrite list_lookup_insert_ne by done.
    by eapply Lfu_store_insert_eq. }
  eexists. split; [exact (Hadd b h1 _ nb Hbh Hbt Ht1 Hd1 Hb1)|].
  assert (Hhead : ∀ x y (h0 : list (Lfu.Node Key Value)) d0,
    h0 !! Lfu.dummyHead_ l = Some d0 →
    <[Lfu.dummyHead_ l := x]> (<[b := y]> h0) !! Lfu.dummyHead_ l = Some x).
  { intros x y h0 d0 H0. eapply Lfu_store_insert_eq.
    by rewrite list_lookup_insert_ne. }
  unfold Lfu.getFirstNode, Lfu.isEmpty.
  rewrite (Hhead _ _ _ _ Hd1). simpl. split; [done|].
  rewrite (list_lookup_insert_ne _ (Lfu.dummyHead_ l) b) by done.
  rewrite (Lfu_store_insert_eq _ _ _ _ Hb1). simpl. split; [done|].
  rewrite !(list_lookup_insert_ne _ _ a) by done. rewrite Ha1. simpl.
  split; [done|].
  rewrite !(list_lookup_insert_ne _ _ (Lfu.dummyTail_ l)) by done.
  split.
  { etrans; [exact (f_equal (fmap Lfu.prev) Ht1)|]. simpl. by rewrite Hprev. }
  rewrite bool_decide_eq_false_2; [done|]. intros [= Heq]. done.
Qed.

Lemma Lfu_addNode_eq (l : Lfu.FreqList) (x : Lfu.NodePtr) h
    (t d nx : Lfu.Node Key Value) :
  x ≠ Lfu.dummyHead_ l → x ≠ Lfu.dummyTail_ l →
  h !! Lfu.dummyTail_ l = Some t → Lfu.prev t = Some (Lfu.dummyHead_ l) →
  h !! Lfu.dummyHead_ l = Some d → h !! x = Some nx →
  Lfu.addNode l x h
  = Some (<[Lfu.dummyHead_ l :=
             Lfu.set_prev (Some x) (Lfu.set_next (Some x) d)]>
           (<[x := Lfu.set_next (Some (Lfu.dummyTail_ l))
                     (Lfu.set_prev (Some (Lfu.dummyHead_ l)) nx)]> h)).
Proof.
  intros Hxh Hxt Ht0 Hprev Hd0 Hx. unfold Lfu.addNode.
  unfold Lfu.NodePtr in *. rewrite Ht0. simpl.
  rewrite (Lfu_update_Some _ _ _ _ Hx). simpl.
  rewrite (Lfu_update_Some _ x _ (Lfu.set_prev (Lfu.prev t) nx))
    by (by eapply Lfu_store_insert_eq).
  simpl. rewrite list_insert_insert_eq.
  rewrite list_lookup_insert_ne by done. rewrite Ht0. simpl.
  rewrite Hprev. simpl.
  rewrite (Lfu_update_Some _ _ _ d)
    by (by rewrite list_lookup_insert_ne).
  simpl.
  rewrite (Lfu_update_Some _ _ _ (Lfu.set_next (Some x) d)).
  - by rewrite list_insert_insert_eq.
  - eapply Lfu_store_insert_eq. by rewrite list_lookup_insert_ne.
Qed.

(** X22.  [addNode] then [removeNode] of the same node leaves the
    bucket empty, whatever it held.  In a bucket whose tail sentinel has
    the head sentinel as its [prev] (as constructed, and as [addNode]
    leaves it), adding a node and removing it again returns a store in
    which the bucket is empty, the [prev] of the tail sentinel is still
    the head sentinel and the node has neither [prev] nor [next]. *)
Theorem Lfu_addNode_then_removeNode (l : Lfu.FreqList) (a : Lfu.NodePtr)
    h (t : Lfu.Node Key Value) :
  Lfu.dummyHead_ l ≠ Lfu.dummyTail_ l →
  a ≠ Lfu.dummyHead_ l → a ≠ Lfu.dummyTail_ l →
  h !! Lfu.dummyTail_ l = Some t → Lfu.prev t = Some (Lfu.dummyHead_ l) →
  is_Some (h !! Lfu.dummyHead_ l) → is_Some (h !! a) →
  ∃ h', (Lfu.addNode l a h ≫= Lfu.removeNode l a) = Some h'
    ∧ Lfu.isEmpty l h' = Some true
    ∧ Lfu.prev <$> h' !! Lfu.dummyTail_ l = Some (Some (Lfu.dummyHead_ l))
    ∧ Lfu.prev <$> h' !! a = Some None
    ∧ Lfu.next <$> h' !! a = Some None.
Proof.
  intros Hht Hah Hat Ht Hprev [d Hd] [na Ha].
  rewrite (Lfu_addNode_eq l a h t d na Hah Hat Ht Hprev Hd Ha).
  unfold Lfu.NodePtr in *. cbn [mbind option_bind].
  match goal with |- context [<[a := ?x]> h] => set (na1 := x) end.
  set (d1 := Lfu.set_prev (Some a) (Lfu.set_next (Some a) d)).
  match goal with |- context [Lfu.removeNode l a ?x] => set (h1 := x) end.
  assert (Ht1 : h1 !! Lfu.dummyTail_ l = Some t).
  { subst h1. by rewrite !list_lookup_insert_ne by done. }
  assert (Hd1 : h1 !! Lfu.dummyHead_ l = Some d1).
  { subst h1. eapply Lfu_store_insert_eq. by rewrite list_lookup_insert_ne. }
  assert (Ha1 : h1 !! a = Some na1).
  { subst h1. rewrite list_lookup_insert_ne by done.
    by eapply Lfu_store_insert_eq. }
  unfold Lfu.removeNode. unfold Lfu.NodePtr in *. rewrite Ha1. simpl.
  rewrite (Lfu_update_Some _ _ _ _ Hd1). simpl.
  rewrite (list_lookup_insert_ne h1 (Lfu.dummyHead_ l) a) by done.
  rewrite Ha1. simpl.
  rewrite (Lfu_update_Some _ _ _ t) by (by rewrite list_lookup_insert_ne).
  simpl.
  rewrite (Lfu_update_Some _ _ _ na1)
    by (by rewrite !list_lookup_insert_ne by done).
  eexists. split; [reflexivity|].
  unfold Lfu.isEmpty.
  rewrite (list_lookup_insert_ne _ a (Lfu.dummyHead_ l)) by done.
  rewrite (list_lookup_insert_ne _ (Lfu.dummyTail_ l) (Lfu.dummyHead_ l)) by done.
  rewrite (Lfu_store_insert_eq _ _ _ _ Hd1). simpl.
  split; [by rewrite bool_decide_eq_true_2|].
  split.
  - rewrite (list_lookup_insert_ne _ a (Lfu.dummyTail_ l)) by done.
    erewrite Lfu_store_insert_eq; [done|].
    by rewrite list_lookup_insert_ne.
  - erewrite Lfu_store_insert_eq; [done|].
    by rewrite !list_lookup_insert_ne by done.
Qed.

Lemma Lfu_removeFromFreqList_buckets c c' node :
  Lfu.removeFromFreqList node c = Some c' →
  Lfu.freqToFreqList_ c' = Lfu.freqToFreqList_ c.
Proof.
  unfold Lfu.removeFromFreqList.
  destruct (Lfu.store c !! node) as [n|]; simpl; [|done].
  destruct (Lfu.freqToFreqList_ c !! Lfu.freq n) as [l|]; [|by intros [= <-]].
  destruct (Lfu.removeNode l node (Lfu.store c)); simpl; [|done].
  by intros [= <-].
Qed.

(** X12.  The private insertion [putInternal] has no defined result
    whenever the cache has no bucket of frequency 1: the bucket is
    created and then reached through the end iterator.  A cache as
    constructed has no bucket at all. *)
Theorem Lfu_putInternal_needs_bucket c (k : Key) (v : Value) :
  Lfu.freqToFreqList_ c !! 1 = None → Lfu.putInternal k v c = None.
Proof.
  intros Hb. unfold Lfu.putInternal.
  assert (Hc1 : ∀ c1, Lfu.freqToFreqList_ c1 = Lfu.freqToFreqList_ c →
    Lfu.addToFreqList (length (Lfu.store c1))
      (Lfu.set_nodeMap (<[k := length (Lfu.store c1)]> (Lfu.nodeMap_ c1))
         (Lfu.set_store (Lfu.store c1 ++ [Lfu.mkNode 1 k v None None]) c1))
    = None).
  { intros c1 Hf. unfold Lfu.addToFreqList. simpl.
    rewrite lookup_app_r by lia. rewrite Nat.sub_diag. simpl.
    by rewrite Hf, Hb. }
  destruct (decide _) as [Hfull|Hroom].
  - destruct (Lfu.kickOut c) as [c1|] eqn:Hk; simpl; [|done].
    rewrite Hc1; [done|]. unfold Lfu.kickOut in Hk.
    destruct (Lfu.freqToFreqList_ c !! Lfu.minFreq_ c) as [l|]; simpl in Hk; [|done].
    destruct (Lfu.getFirstNode l (Lfu.store c)) as [node|]; simpl in Hk; [|done].
    destruct (Lfu.removeFromFreqList node c) as [c2|] eqn:Hr; simpl in Hk; [|done].
    destruct (Lfu.store c2 !! node) as [n|]; simpl in Hk; [|done].
    injection Hk as <-. simpl. by apply Lfu_removeFromFreqList_buckets in Hr.
  - simpl. by rewrite Hc1.
Qed.

(** X13.  No public operation of [LfuCache] touches a frequency: from
    any state, [put], both [get]s and [purge] leave [capacity_],
    [maxAvgNum_], [minFreq_], [curTotalNum_] and [curAvgNum_] as they
    were, and every node of the store keeps its frequency, key and
    links. *)
Theorem Lfu_step_keeps_frequencies (dflt : Value) (o : Lfu.Op Key Value) c c' :
  Lfu.step dflt o c = Some c' →
  Lfu.capacity_ c' = Lfu.capacity_ c
  ∧ Lfu.maxAvgNum_ c' = Lfu.maxAvgNum_ c
  ∧ Lfu.minFreq_ c' = Lfu.minFreq_ c
  ∧ Lfu.curTotalNum_ c' = Lfu.curTotalNum_ c
  ∧ Lfu.curAvgNum_ c' = Lfu.curAvgNum_ c
  ∧ ∀ q n, Lfu.store c !! q = Some n →
      ∃ n', Lfu.store c' !! q = Some n'
            ∧ Lfu.freq n' = Lfu.freq n ∧ Lfu.key n' = Lfu.key n
            ∧ Lfu.prev n' = Lfu.prev n ∧ Lfu.next n' = Lfu.next n.
Proof.
  assert (Hid : ∀ q n, Lfu.store c !! q = Some n →
      ∃ n', Lfu.store c !! q = Some n'
            ∧ Lfu.freq n' = Lfu.freq n ∧ Lfu.key n' = Lfu.key n
            ∧ Lfu.prev n' = Lfu.prev n ∧ Lfu.next n' = Lfu.next n)
    by (intros q n Hq; by exists n).
  destruct o as [k v|k v|k|]; simpl.
  - unfold Lfu.put. destruct (decide _) as [Hz|Hz]; [by intros [= <-]|].
    destruct (Lfu.nodeMap_ c !! k) as [p|]; [|by intros [= <-]].
    unfold Lfu.update. destruct (Lfu.store c !! p) as [n0|] eqn:Hp; simpl; [|done].
    intros [= <-]. simpl. repeat split; try done.
    intros q n Hq. destruct (decide (q = p)) as [->|Hne].
    + rewrite (Lfu_store_insert_eq _ _ _ _ Hp). eexists. split; [done|].
      pose proof (eq_trans (eq_sym Hq) Hp) as Heq. injection Heq as ->. done.
    + rewrite list_lookup_insert_ne by done. by exists n.
  - intros [= <-]. by rewrite Lfu_get_unfold.
  - intros [= <-]. unfold Lfu.get_value. by rewrite Lfu_get_unfold.
  - by intros [= <-].
Qed.

End LfuStore.

Lemma Lfu_updateMinFreq_spec_witness :
  ∃ c', Lfu.updateMinFreq Scenario.lfu_hot = Some c'
    ∧ c' = Lfu.set_minFreq (Lfu.minFreq_ c') Scenario.lfu_hot
    ∧ Lfu.minFreq_ c' < MachineInt.INT8_MAX
    ∧ ((∃ f l, Lfu.freqToFreqList_ Scenario.lfu_hot !! f = Some l
               ∧ Lfu.isEmpty l (Lfu.store Scenario.lfu_hot) = Some false
               ∧ f < MachineInt.INT8_MAX) →
       (∃ l, Lfu.freqToFreqList_ Scenario.lfu_hot !! Lfu.minFreq_ c' = Some l
             ∧ Lfu.isEmpty l (Lfu.store Scenario.lfu_hot) = Some false)
       ∧ ∀ f l, Lfu.freqToFreqList_ Scenario.lfu_hot !! f = Some l →
                Lfu.isEmpty l (Lfu.store Scenario.lfu_hot) = Some false →
                Lfu.minFreq_ c' ≤ f)
    ∧ ((∀ f l, Lfu.freqToFreqList_ Scenario.lfu_hot !! f = Some l →
               Lfu.isEmpty l (Lfu.store Scenario.lfu_hot) = Some false →
               MachineInt.INT8_MAX ≤ f) →
       Lfu.minFreq_ c' = 1).
Proof.
  apply (Lfu_updateMinFreq_spec Scenario.lfu_hot).
  intros f l Hf. simpl in Hf.
  apply lookup_insert_Some in Hf as [[_ <-]|[_ Hf]]; [by eexists|].
  apply lookup_singleton_Some in Hf as [_ <-]. by eexists.
Defined.

Lemma Lfu_addNode_keeps_only_last_witness :
  ∃ h', (Lfu.addNode Scenario.bucket 2%nat Scenario.bucket_store
           ≫= Lfu.addNode Scenario.bucket 3%nat) = Some h'
    ∧ Lfu.getFirstNode Scenario.bucket h' = Some 3%nat
    ∧ Lfu.next <$> h' !! 3%nat = Some (Some 1%nat)
    ∧ Lfu.next <$> h' !! 2%nat = Some (Some 1%nat)
    ∧ Lfu.prev <$> h' !! 1%nat = Some (Some 0%nat)
    ∧ Lfu.isEmpty Scenario.bucket h' = Some false.
Proof.
  apply (Lfu_addNode_keeps_only_last Scenario.bucket 2%nat 3%nat
           Scenario.bucket_store (Lfu.mkNode 1 0 EmptyString (Some 0%nat) None));
    try done; by eexists.
Defined.

Lemma Lfu_addNode_then_removeNode_witness :
  ∃ h', (Lfu.addNode Scenario.bucket 2%nat Scenario.bucket_store
           ≫= Lfu.removeNode Scenario.bucket 2%nat) = Some h'
    ∧ Lfu.isEmpty Scenario.bucket h' = Some true
    ∧ Lfu.prev <$> h' !! 1%nat = Some (Some 0%nat)
    ∧ Lfu.prev <$> h' !! 2%nat = Some None
    ∧ Lfu.next <$> h' !! 2%nat = Some None.
Proof.
  apply (Lfu_addNode_then_removeNode Scenario.bucket 2%nat
           Scenario.bucket_store (Lfu.mkNode 1 0 EmptyString (Some 0%nat) None));
    try done; by eexists.
Defined.

Lemma Lfu_putInternal_needs_bucket_witness :
  Lfu.putInternal 1 "a"%string (Lfu.new 2 10) = None.
Proof.
  apply (Lfu_putInternal_needs_bucket (Key:=Z) (Lfu.new 2 10) 1 "a"%string).
  reflexivity.
Defined.

Lemma Lfu_step_keeps_frequencies_witness :
  ∃ c', Lfu.step EmptyString (Lfu.Put 1 "b"%string) Scenario.lfu_one = Some c'
    ∧ Lfu.capacity_ c' = Lfu.capacity_ Scenario.lfu_one
    ∧ Lfu.maxAvgNum_ c' = Lfu.maxAvgNum_ Scenario.lfu_one
    ∧ Lfu.minFreq_ c' = Lfu.minFreq_ Scenario.lfu_one
    ∧ Lfu.curTotalNum_ c' = Lfu.curTotalNum_ Scenario.lfu_one
    ∧ Lfu.curAvgNum_ c' = Lfu.curAvgNum_ Scenario.lfu_one
    ∧ ∀ q n, Lfu.store Scenario.lfu_one !! q = Some n →
        ∃ n', Lfu.store c' !! q = Some n'
              ∧ Lfu.freq n' = Lfu.freq n ∧ Lfu.key n' = Lfu.key n
              ∧ Lfu.prev n' = Lfu.prev n ∧ Lfu.next n' = Lfu.next n.
Proof.
  eexists. split; [reflexivity|].
  apply (Lfu_step_keeps_frequencies EmptyString (Lfu.Put 1 "b"%string)
           Scenario.lfu_one).
  reflexivity.
Defined.

(** ** ArcLfuPart *)

Section ArcLfuMore.
Context {Key : Type} `{Countable Key} {Value : Type}.
Implicit Types (p : ArcLfu.ArcLfuPart Key Value).

(** X15.  In an [ArcLfuPart] of capacity other than 0 whose ghost index
    agrees with its ghost list, [put(k, v)] returns true and the [get(k)]
    that follows is a hit with [v]. *)
Theorem ArcLfu_put_then_get p key value out :
  ghost_ok (ArcLfu.ghostCache_ p) (ArcLfu.ghost p) →
  ArcLfu.capacity_ p ≠ 0 →
  ∃ p1, ArcLfu.put key value p = Some (true, p1)
        ∧ (ArcLfu.get key out p1).1 = (true, value).
Proof.
  intros Hg Hc. unfold ArcLfu.put. rewrite decide_False by done.
  destruct (ArcLfu.mainCache_ p !! key) as [n|] eqn:Hk.
  - eexists. split; [reflexivity|]. unfold ArcLfu.get.
    unfold ArcLfu.updateNodeFrequency at 1. simpl. by rewrite lookup_insert_eq.
  - unfold ArcLfu.addNewNode.
    assert (Hp1 : ∃ p1,
      (if decide (ArcLfu.capacity_ p ≤ Z.of_nat (size (ArcLfu.mainCache_ p)))
       then ArcLfu.evictLeastFrequency p else Some p) = Some p1).
    { destruct (decide _); [|by eexists].
      destruct (ArcLfu_evictLeastFrequency_total p Hg) as (p1 & -> & _). by eexists. }
    destruct Hp1 as (p1 & ->). simpl.
    eexists. split; [reflexivity|]. unfold ArcLfu.get. simpl.
    by rewrite lookup_insert_eq.
Qed.

(** X16.  A ghost hit is consumed: after [checkGhost(k)], which
    returns whether [k] was in the ghost index, a second [checkGhost(k)]
    returns false and changes nothing; the other keys of the ghost
    index, the main cache and the capacity are untouched by both. *)
Theorem ArcLfu_checkGhost_once p key :
  ghost_ok (ArcLfu.ghostCache_ p) (ArcLfu.ghost p) →
  ∃ p', ArcLfu.checkGhost key p
        = Some (bool_decide (is_Some (ArcLfu.ghostCache_ p !! key)), p')
        ∧ ArcLfu.checkGhost key p' = Some (false, p')
        ∧ (∀ k, k ≠ key →
                ArcLfu.ghostCache_ p' !! k = ArcLfu.ghostCache_ p !! k)
        ∧ ArcLfu.mainCache_ p' = ArcLfu.mainCache_ p
        ∧ ArcLfu.capacity_ p' = ArcLfu.capacity_ p.
Proof.
  intros Hg. unfold ArcLfu.checkGhost.
  destruct (ArcLfu.ghostCache_ p !! key) as [x|] eqn:Hk.
  - destruct (Hg key x Hk) as [Hin Hkey].
    unfold ArcLfu.removeFromGhost. rewrite decide_True by done. simpl.
    eexists. split; [done|]. simpl. rewrite lookup_delete_eq.
    repeat split; try done. intros k Hne. by rewrite lookup_delete_ne.
  - exists p. rewrite Hk. done.
Qed.

End ArcLfuMore.

(** ** The sharded wrappers *)

Section HashFacts.
Context {Key : Type} `{Countable Key} {Value : Type}.
Variable Hash : Key → Z.

(** X17.  [HashLfuCache]: a [put] of a key that its shard does not hold
    changes nothing in any shard, and the [get] of that key that follows
    returns false and leaves the out parameter. *)
Theorem HashLfu_put_absent_changes_nothing (c : HashLfu.HashLfuCache Key Value)
    (key : Key) (value out : Value) (i : nat) (s : Lfu.LfuCache Key Value) :
  HashLfu.index Hash key c = Some i →
  HashLfu.lfuSliceCaches_ c !! i = Some s →
  Lfu.nodeMap_ s !! key = None →
  HashLfu.put Hash key value c = Some c
  ∧ HashLfu.get Hash key out c = Some (false, out, c).
Proof.
  intros Hi Hs Hk. destruct c as [cap n l]. simpl in *.
  assert (Hp : Lfu.put key value s = Some s).
  { unfold Lfu.put. destruct (decide _); [done|]. by rewrite Hk. }
  unfold HashLfu.put, HashLfu.get. rewrite Hi. simpl. rewrite Hs. simpl.
  rewrite Hp. simpl. unfold Lfu.get. rewrite Hk. simpl.
  by rewrite list_insert_id.
Qed.

(** X18.  [HashLfuCache]: after [purge()] every [get] whose shard
    exists returns false, leaves the out parameter and changes
    nothing. *)
Theorem HashLfu_purge_then_get_misses (c : HashLfu.HashLfuCache Key Value)
    (key : Key) (out : Value) (i : nat) :
  HashLfu.index Hash key c = Some i →
  (i < length (HashLfu.lfuSliceCaches_ c))%nat →
  HashLfu.get Hash key out (HashLfu.purge c) = Some (false, out, HashLfu.purge c).
Proof.
  intros Hi Hlen. unfold HashLfu.get.
  assert (Hi' : HashLfu.index Hash key (HashLfu.purge c) = Some i) by done.
  rewrite Hi'. simpl.
  destruct (lookup_lt_is_Some_2 _ _ Hlen) as [s Hs].
  rewrite list_lookup_fmap, Hs. simpl.
  rewrite list_insert_id; [done|]. by rewrite list_lookup_fmap, Hs.
Qed.

(** X19.  [HashLruCaches]: a [put] of a key that its shard does not
    hold changes nothing in any shard, and the [get] of that key that
    follows returns false and leaves the out parameter. *)
Theorem HashLru_put_absent_changes_nothing (c : HashLru.HashLruCaches Key Value)
    (key : Key) (value out : Value) (i : nat) (s : Lru.LruCache Key Value) :
  HashLru.index Hash key c = Some i →
  HashLru.lruSliceCaches_ c !! i = Some s →
  Lru.nodeMap_ s !! key = None →
  HashLru.put Hash key value c = Some c
  ∧ HashLru.get Hash key out c = Some (false, out, c).
Proof.
  intros Hi Hs Hk. destruct c as [cap n l]. simpl in *.
  unfold HashLru.put, HashLru.get. rewrite Hi. simpl. rewrite Hs. simpl.
  rewrite (Lru_put_absent s key value Hk), (Lru_get_absent s key out Hk).
  simpl. by rewrite list_insert_id.
Qed.

End HashFacts.

Lemma ArcLfu_new_ghost_ok (capacity transformThreshold : Z) :
  ghost_ok (ArcLfu.ghostCache_ (ArcLfu.new capacity transformThreshold
                                  : ArcLfu.ArcLfuPart Z string))
           (ArcLfu.ghost (ArcLfu.new capacity transformThreshold
                            : ArcLfu.ArcLfuPart Z string)).
Proof. intros k h Hk. simpl in Hk. by rewrite lookup_empty in Hk. Qed.

Lemma ArcLfu_put_then_get_witness :
  ∃ p1, ArcLfu.put 1 "a"%string (ArcLfu.new 2 2) = Some (true, p1)
        ∧ (ArcLfu.get 1 EmptyString p1).1 = (true, "a"%string).
Proof.
  apply (ArcLfu_put_then_get (ArcLfu.new 2 2) 1 "a"%string EmptyString).
  - apply ArcLfu_new_ghost_ok.
  - discriminate.
Defined.

(** The scenario part with a ghost entry is the one the two calls
    build, and its ghost index agrees with its ghost list. *)
Lemma arclfu_ghost_reached :
  (ArcLfu.step (ArcLfu.Put 1 "a"%string) (ArcLfu.new 1 1)
     ≫= ArcLfu.step (ArcLfu.Put 2 "b"%string))
  = Some Scenario.arclfu_ghost.
Proof. vm_compute. reflexivity. Qed.

Lemma arclfu_ghost_ok :
  ghost_ok (ArcLfu.ghostCache_ Scenario.arclfu_ghost)
           (ArcLfu.ghost Scenario.arclfu_ghost).
Proof.
  intros k h Hk. simpl in Hk. apply lookup_singleton_Some in Hk as [<- <-].
  split; [|done]. by apply list_elem_of_singleton.
Qed.

Lemma ArcLfu_checkGhost_once_witness :
  ∃ p', ArcLfu.checkGhost 1 Scenario.arclfu_ghost = Some (true, p')
        ∧ ArcLfu.checkGhost 1 p' = Some (false, p')
        ∧ (∀ k, k ≠ 1 →
                ArcLfu.ghostCache_ p' !! k
                = ArcLfu.ghostCache_ Scenario.arclfu_ghost !! k)
        ∧ ArcLfu.mainCache_ p' = ArcLfu.mainCache_ Scenario.arclfu_ghost
        ∧ ArcLfu.capacity_ p' = ArcLfu.capacity_ Scenario.arclfu_ghost.
Proof.
  apply (ArcLfu_checkGhost_once Scenario.arclfu_ghost 1).
  apply arclfu_ghost_ok.
Defined.

Lemma HashLfu_put_absent_changes_nothing_witness :
  HashLfu.put (λ k : Z, k) 2 "x"%string
    (HashLfu.mkCache 4 2 [Scenario.lfu_one; Lfu.new 2 10])
  = Some (HashLfu.mkCache 4 2 [Scenario.lfu_one; Lfu.new 2 10])
  ∧ HashLfu.get (λ k : Z, k) 2 "zz"%string
      (HashLfu.mkCache 4 2 [Scenario.lfu_one; Lfu.new 2 10])
    = Some (false, "zz"%string,
            HashLfu.mkCache 4 2 [Scenario.lfu_one; Lfu.new 2 10]).
Proof.
  apply (HashLfu_put_absent_changes_nothing (λ k : Z, k)
           (HashLfu.mkCache 4 2 [Scenario.lfu_one; Lfu.new 2 10])
           2 "x"%string "zz"%string 0%nat Scenario.lfu_one).
  - by vm_compute.
  - reflexivity.
  - by vm_compute.
Defined.

Lemma HashLfu_purge_then_get_misses_witness :
  HashLfu.get (λ k : Z, k) 1 "zz"%string
    (HashLfu.purge (HashLfu.mkCache 4 2 [Lfu.new 2 10; Scenario.lfu_one]))
  = Some (false, "zz"%string,
          HashLfu.purge (HashLfu.mkCache 4 2 [Lfu.new 2 10; Scenario.lfu_one])).
Proof.
  apply (HashLfu_purge_then_get_misses (λ k : Z, k)
           (HashLfu.mkCache 4 2 [Lfu.new 2 10; Scenario.lfu_one])
           1 "zz"%string 1%nat).
  - by vm_compute.
  - simpl. lia.
Defined.

Lemma HashLru_put_absent_changes_nothing_witness :
  HashLru.put (λ k : Z, k) 4 "x"%string
    (HashLru.mkCache 4 2 [Scenario.lru_two; Lru.new 2])
  = Some (HashLru.mkCache 4 2 [Scenario.lru_two; Lru.new 2])
  ∧ HashLru.get (λ k : Z, k) 4 "zz"%string
      (HashLru.mkCache 4 2 [Scenario.lru_two; Lru.new 2])
    = Some (false, "zz"%string,
            HashLru.mkCache 4 2 [Scenario.lru_two; Lru.new 2]).
Proof.
  apply (HashLru_put_absent_changes_nothing (λ k : Z, k)
           (HashLru.mkCache 4 2 [Scenario.lru_two; Lru.new 2])
           4 "x"%string "zz"%string 0%nat Scenario.lru_two).
  - by vm_compute.
  - reflexivity.
  - by vm_compute.
Defined.

(** ** ArcLfuPart: the main cache and the frequency lists *)

Section ArcLfuFreq.
Context {Key : Type} `{Countable Key} {Value : Type}.
Implicit Types (main : gmap Key (ArcLfu.ArcNode Key Value))
  (fm : gmap Z (list (NodePtr Key))) (n : ArcLfu.ArcNode Key Value)
  (l : list (NodePtr Key)) (x : NodePtr Key).

Lemma foldr_min_elem (k : Z) (ks : list Z) : foldr Z.min k ks ∈ k :: ks.
Proof.
  induction ks as [|a ks IH]; simpl; [apply list_elem_of_here|].
  destruct (Z.min_spec a (foldr Z.min k ks)) as [[_ ->]|[_ ->]].
  - apply list_elem_of_further, list_elem_of_here.
  - apply elem_of_cons in IH as [->|IH].
    + apply list_elem_of_here.
    + by do 2 apply list_elem_of_further.
Qed.

Lemma min_key_Some {A : Type} (m : gmap Z A) :
  m ≠ ∅ → ∃ k, ArcLfu.min_key m = Some k ∧ is_Some (m !! k).
Proof.
  intros Hne. unfold ArcLfu.min_key.
  destruct (map_to_list m) as [|[k0 v0] rest] eqn:Hl.
  { by apply map_to_list_empty_iff in Hl. }
  exists (foldr Z.min k0 (rest.*1)). split; [done|].
  pose proof (foldr_min_elem k0 (rest.*1)) as Hin.
  change (k0 :: rest.*1) with (((k0, v0) :: rest).*1) in Hin.
  rewrite <- Hl in Hin. apply list_elem_of_fmap in Hin as ([k v] & Heq & Hkv).
  rewrite Heq. simpl. apply elem_of_map_to_list in Hkv. by exists v.
Qed.

Lemma incr_neq (z : Z) : MachineInt.incr z ≠ z.
Proof.
  unfold MachineInt.incr, MachineInt.to_size_t. intros Heq.
  assert (H0 : 0 ≤ (z + 1) mod 2 ^ 64 < 2 ^ 64) by (apply Z.mod_pos_bound; lia).
  destruct (decide (z + 1 < 2 ^ 64)) as [Hlt|Hge].
  - rewrite Z.mod_small in Heq by lia. lia.
  - assert (z = 2 ^ 64 - 1) as -> by lia.
    replace (2 ^ 64 - 1 + 1) with (1 * 2 ^ 64) in Heq by lia.
    rewrite Z.mod_mul in Heq by lia. lia.
Qed.

(** Eviction of the first node of the list of [mf]. *)
Lemma freq_ok_pop main fm (mf : Z) x l :
  freq_ok main fm mf → fm !! mf = Some (x :: l) →
  is_Some (main !! ptr_key x)
  ∧ freq_ok (delete (ptr_key x) main)
      (match l with [] => delete mf fm | _ :: _ => <[mf := l]> fm end)
      (match l with
       | [] => default mf (ArcLfu.min_key (delete mf fm))
       | _ :: _ => mf
       end).
Proof.
  intros (Ha & Hb & Hc & Hd) Hmf.
  destruct (Hb mf (x :: l) x Hmf) as (nx & Hnx & Hpx & Hax);
    [apply list_elem_of_here|].
  destruct (Hc mf _ Hmf) as [_ Hnd]. apply NoDup_cons in Hnd as [Hxl Hndl].
  split; [by eexists|].
  set (fm' := match l with [] => delete mf fm | _ :: _ => <[mf := l]> fm end).
  assert (Hfm_ne : ∀ f, f ≠ mf → fm' !! f = fm !! f).
  { intros f Hf. subst fm'. destruct l.
    - by rewrite lookup_delete_ne.
    - by rewrite lookup_insert_ne. }
  assert (Hfm_mf : ∀ l', fm' !! mf = Some l' → l' = l ∧ l ≠ []).
  { intros l'. subst fm'. destruct l.
    - by rewrite lookup_delete_eq.
    - rewrite lookup_insert_eq. by intros [= <-]. }
  assert (Hfm_l : l ≠ [] → fm' !! mf = Some l).
  { intros Hl. subst fm'. destruct l; [done|]. by rewrite lookup_insert_eq. }
  assert (Ha' : ∀ k n, delete (ptr_key x) main !! k = Some n →
            ArcLfu.key_ n = k
            ∧ ∃ l0, fm' !! ArcLfu.accessCount_ n = Some l0 ∧ ArcLfu.ptr_of n ∈ l0).
  { intros k n Hk. apply lookup_delete_Some in Hk as [Hne Hk].
    destruct (Ha k n Hk) as (Hkey & l0 & Hl0 & Hin). split; [done|].
    destruct (decide (ArcLfu.accessCount_ n = mf)) as [Hmfn|Hmfn].
    - rewrite Hmfn in Hl0. rewrite Hmf in Hl0. injection Hl0 as <-.
      apply elem_of_cons in Hin as [Hin|Hin].
      { exfalso. apply Hne. rewrite <- Hin. simpl. done. }
      exists l. split; [|done]. rewrite Hmfn. apply Hfm_l.
      intros ->. by apply elem_of_nil in Hin.
    - exists l0. split; [|done]. by rewrite Hfm_ne. }
  split; [exact Ha'|]. split; [|split].
  - intros f l0 y Hl0 Hy.
    assert (Hy' : ∃ l1, fm !! f = Some l1 ∧ y ∈ l1 ∧ y ≠ x).
    { destruct (decide (f = mf)) as [->|Hf].
      - apply Hfm_mf in Hl0 as [-> _]. exists (x :: l).
        split; [done|]. split; [by apply list_elem_of_further|].
        intros ->. done.
      - rewrite Hfm_ne in Hl0 by done. exists l0. split; [done|].
        split; [done|]. intros ->.
        destruct (Hb f l0 x Hl0 Hy) as (n' & Hn' & _ & Hf').
        rewrite Hnx in Hn'. injection Hn' as <-. congruence. }
    destruct Hy' as (l1 & Hl1 & Hy1 & Hyx).
    destruct (Hb f l1 y Hl1 Hy1) as (ny & Hny & Hpy & Hay).
    exists ny. split; [|done]. rewrite lookup_delete_ne; [done|].
    intros Heq. rewrite <- Heq in Hny. rewrite Hnx in Hny.
    injection Hny as <-. congruence.
  - intros f l0 Hl0. destruct (decide (f = mf)) as [->|Hf].
    + apply Hfm_mf in Hl0 as [-> ?]. done.
    + rewrite Hfm_ne in Hl0 by done. by apply Hc in Hl0.
  - intros Hne. apply map_choose in Hne as (k & n & Hk).
    destruct (Ha' k n Hk) as (_ & l0 & Hl0 & _).
    destruct l as [|y l'].
    + subst fm'.
      destruct (min_key_Some (delete mf fm)) as (km & -> & Hkm); [|done].
      intros He. by rewrite He, lookup_empty in Hl0.
    + subst fm'. rewrite lookup_insert_eq. by eexists.
Qed.

(** Insertion of a new node for an absent key. *)
Lemma freq_ok_new main fm (mf : Z) (key : Key) (value : Value) (id : nat) :
  freq_ok main fm mf → main !! key = None →
  freq_ok (<[key := ArcLfu.mkNode id key value 1]> main)
    (<[1 := default [] (fm !! 1) ++ [mkPtr id key]]> fm) 1.
Proof.
  intros (Ha & Hb & Hc & Hd) Hkey.
  assert (Hfresh : ∀ f l y, fm !! f = Some l → y ∈ l → ptr_key y ≠ key).
  { intros f l y Hl Hy Heq. destruct (Hb f l y Hl Hy) as (ny & Hny & _).
    congruence. }
  split; [|split; [|split]].
  - intros k n Hk. rewrite lookup_insert in Hk. case_decide as Hkk.
    + injection Hk as <-. subst k. split; [done|]. simpl.
      rewrite lookup_insert_eq. eexists. split; [done|].
      apply elem_of_app. right. by apply list_elem_of_singleton.
    + destruct (Ha k n Hk) as (Hkn & l & Hl & Hin). split; [done|].
      destruct (decide (ArcLfu.accessCount_ n = 1)) as [H1|H1].
      * rewrite H1 in *. rewrite lookup_insert_eq, Hl. eexists. split; [done|].
        apply elem_of_app. by left.
      * rewrite lookup_insert_ne by done. eauto.
  - intros f l y Hl Hy. rewrite lookup_insert in Hl. case_decide as Hf.
    + subst f. injection Hl as <-. apply elem_of_app in Hy as [Hy|Hy].
      * destruct (fm !! 1) as [l1|] eqn:Hl1; [|by apply elem_of_nil in Hy].
        destruct (Hb 1 l1 y Hl1 Hy) as (ny & Hny & Hpy & Hay).
        exists ny. split; [|done]. rewrite lookup_insert_ne; [done|].
        intros Heq. by apply (Hfresh 1 l1 y Hl1 Hy).
      * apply list_elem_of_singleton in Hy. subst y. simpl.
        rewrite lookup_insert_eq. by eexists.
    + destruct (Hb f l y Hl Hy) as (ny & Hny & Hpy & Hay).
      exists ny. split; [|done]. rewrite lookup_insert_ne; [done|].
      intros Heq. by apply (Hfresh f l y Hl Hy).
  - intros f l Hl. rewrite lookup_insert in Hl. case_decide as Hf.
    + subst f. injection Hl as <-. split.
      * intros Happ. by apply app_eq_nil in Happ as [_ ?].
      * apply NoDup_app. split; [|split; [|apply NoDup_singleton]].
        -- destruct (fm !! 1) as [l1|] eqn:Hl1; [|apply NoDup_nil_2].
           by apply Hc in Hl1 as [_ ?].
        -- intros y Hy Hy'. apply list_elem_of_singleton in Hy'. subst y.
           destruct (fm !! 1) as [l1|] eqn:Hl1; [|by apply elem_of_nil in Hy].
           by apply (Hfresh 1 l1 _ Hl1 Hy).
    + by apply Hc in Hl.
  - intros _. rewrite lookup_insert_eq. by eexists.
Qed.

(** A hit: the node of [k] moves from the list of its access count to
    the back of the list of the next one. *)
Lemma freq_ok_bump main fm (mf : Z) (k : Key) n (node : ArcLfu.ArcNode Key Value) :
  freq_ok main fm mf → main !! k = Some n →
  ArcLfu.ptr_of node = ArcLfu.ptr_of n →
  ArcLfu.accessCount_ node = ArcLfu.accessCount_ n →
  let old := ArcLfu.accessCount_ node in
  let new := MachineInt.incr old in
  let oldList :=
    filter (λ y, y ≠ ArcLfu.ptr_of node) (default [] (fm !! old)) in
  let fm1 := match oldList with
             | [] => delete old fm
             | _ :: _ => <[old := oldList]> fm
             end in
  let mf1 := match oldList with
             | [] => if decide (mf = old) then new else mf
             | _ :: _ => mf
             end in
  freq_ok (<[k := ArcLfu.incrementAccessCount node]> main)
    (<[new := default [] (fm1 !! new) ++ [ArcLfu.ptr_of node]]> fm1) mf1.
Proof.
  intros (Ha & Hb & Hc & Hd) Hk Hptr Hcnt old new oldList fm1 mf1.
  assert (Hkey : ArcLfu.key_ node = k).
  { destruct (Ha k n Hk) as [Hkn _]. apply (f_equal ptr_key) in Hptr.
    simpl in Hptr. congruence. }
  destruct (Ha k n Hk) as (Hkn & lold & Hlold & Hinold).
  rewrite <- Hcnt in Hlold. fold old in Hlold. rewrite <- Hptr in Hinold.
  assert (Hno : new ≠ old) by apply incr_neq.
  assert (HoldList : oldList = filter (λ y, y ≠ ArcLfu.ptr_of node) lold).
  { subst oldList. by rewrite Hlold. }
  assert (Hfm1_ne : ∀ f, f ≠ old → fm1 !! f = fm !! f).
  { intros f Hf. subst fm1. destruct oldList.
    - by rewrite lookup_delete_ne.
    - by rewrite lookup_insert_ne. }
  assert (Hfm1_old : ∀ l, fm1 !! old = Some l → l = oldList ∧ oldList ≠ []).
  { intros l. subst fm1. destruct oldList.
    - by rewrite lookup_delete_eq.
    - rewrite lookup_insert_eq. by intros [= <-]. }
  assert (Hfm1_old' : oldList ≠ [] → fm1 !! old = Some oldList).
  { intros Hl. subst fm1. destruct oldList; [done|]. by rewrite lookup_insert_eq. }
  set (newList := default [] (fm1 !! new) ++ [ArcLfu.ptr_of node]).
  assert (HnewList : newList = default [] (fm !! new) ++ [ArcLfu.ptr_of node]).
  { subst newList. by rewrite Hfm1_ne. }
  assert (Hsame : ∀ y ny, main !! ptr_key y = Some ny → ArcLfu.ptr_of ny = y →
            y ≠ ArcLfu.ptr_of node → ptr_key y ≠ k).
  { intros y ny Hny Hpy Hne Heq. rewrite Heq, Hk in Hny. injection Hny as <-.
    congruence. }
  assert (Hcount : ∀ y ny, main !! ptr_key y = Some ny →
            ArcLfu.accessCount_ ny ≠ old → ptr_key y ≠ k).
  { intros y ny Hny Hne Heq. rewrite Heq, Hk in Hny. injection Hny as <-.
    apply Hne. by rewrite <- Hcnt. }
  split; [|split; [|split]].
  - intros k' n' Hk'. rewrite lookup_insert in Hk'. case_decide as Hkk.
    + injection Hk' as <-. subst k'. split; [done|]. simpl. fold old new.
      rewrite lookup_insert_eq. eexists. split; [done|].
      apply elem_of_app. right. by apply list_elem_of_singleton.
    + destruct (Ha k' n' Hk') as (Hkn' & l' & Hl' & Hin'). split; [done|].
      assert (Hne : ArcLfu.ptr_of n' ≠ ArcLfu.ptr_of node).
      { intros Heq. apply (f_equal ptr_key) in Heq. simpl in Heq. congruence. }
      destruct (decide (ArcLfu.accessCount_ n' = new)) as [Hn|Hn].
      * rewrite Hn in *. rewrite lookup_insert_eq. eexists. split; [done|].
        rewrite HnewList, Hl'. apply elem_of_app. by left.
      * rewrite lookup_insert_ne by done.
        destruct (decide (ArcLfu.accessCount_ n' = old)) as [Ho|Ho].
        -- rewrite Ho in *. rewrite Hlold in Hl'. injection Hl' as <-.
           assert (Hin2 : ArcLfu.ptr_of n' ∈ oldList).
           { rewrite HoldList. by apply list_elem_of_filter. }
           exists oldList. split; [|done]. apply Hfm1_old'.
           intros He. rewrite He in Hin2. by apply elem_of_nil in Hin2.
        -- rewrite Hfm1_ne by done. eauto.
  - intros f l y Hl Hy. rewrite lookup_insert in Hl. case_decide as Hf.
    + subst f. injection Hl as <-. rewrite HnewList in Hy.
      apply elem_of_app in Hy as [Hy|Hy].
      * destruct (fm !! new) as [lnew|] eqn:Hlnew; [|by apply elem_of_nil in Hy].
        destruct (Hb new lnew y Hlnew Hy) as (ny & Hny & Hpy & Hay).
        exists ny. split; [|done]. rewrite lookup_insert_ne; [done|].
        intros Heq. apply (Hcount y ny Hny); [|done]. by rewrite Hay.
      * apply list_elem_of_singleton in Hy. subst y. simpl. rewrite Hkey.
        rewrite lookup_insert_eq. by eexists.
    + destruct (decide (f = old)) as [->|Hfo].
      * apply Hfm1_old in Hl as [-> _]. rewrite HoldList in Hy.
        apply list_elem_of_filter in Hy as [Hne Hy].
        destruct (Hb old lold y Hlold Hy) as (ny & Hny & Hpy & Hay).
        exists ny. split; [|done]. rewrite lookup_insert_ne; [done|].
        intros Heq. by apply (Hsame y ny Hny Hpy Hne).
      * rewrite Hfm1_ne in Hl by done.
        destruct (Hb f l y Hl Hy) as (ny & Hny & Hpy & Hay).
        exists ny. split; [|done]. rewrite lookup_insert_ne; [done|].
        intros Heq. apply (Hcount y ny Hny); [|done]. by rewrite Hay.
  - intros f l Hl. rewrite lookup_insert in Hl. case_decide as Hf.
    + subst f. injection Hl as <-. split.
      * intros Happ. by apply app_eq_nil in Happ as [_ ?].
      * rewrite HnewList. apply NoDup_app.
        split; [|split; [|apply NoDup_singleton]].
        -- destruct (fm !! new) as [lnew|] eqn:Hlnew; [|apply NoDup_nil_2].
           by apply Hc in Hlnew as [_ ?].
        -- intros y Hy Hy'. apply list_elem_of_singleton in Hy'. subst y.
           destruct (fm !! new) as [lnew|] eqn:Hlnew; [|by apply elem_of_nil in Hy].
           destruct (Hb new lnew _ Hlnew Hy) as (ny & Hny & Hpy & Hay).
           simpl in Hny. rewrite Hkey, Hk in Hny. injection Hny as <-.
           apply Hno. rewrite <- Hay. by rewrite <- Hcnt.
    + destruct (decide (f = old)) as [->|Hfo].
      * apply Hfm1_old in Hl as [-> Hne]. split; [done|].
        rewrite HoldList. apply NoDup_filter. by apply Hc in Hlold as [_ ?].
      * rewrite Hfm1_ne in Hl by done. by apply Hc in Hl.
  - intros _.
    assert (Hmain : main ≠ ∅).
    { intros He. by rewrite He, lookup_empty in Hk. }
    specialize (Hd Hmain).
    assert (Hany : ∀ f, f ≠ old → is_Some (fm !! f) →
              is_Some (<[new := newList]> fm1 !! f)).
    { intros f Hfo Hs. destruct (decide (f = new)) as [->|Hfn].
      - rewrite lookup_insert_eq. by eexists.
      - rewrite lookup_insert_ne by done. by rewrite Hfm1_ne. }
    assert (Hnew : is_Some (<[new := newList]> fm1 !! new)).
    { rewrite lookup_insert_eq. by eexists. }
    subst mf1. destruct oldList as [|y ys] eqn:HoL.
    + destruct (decide (mf = old)); [done|]. by apply Hany.
    + destruct (decide (mf = old)) as [->|Hmo]; [|by apply Hany].
      rewrite lookup_insert_ne by done. rewrite Hfm1_old' by done.
      by eexists.
Qed.

End ArcLfuFreq.

Section ArcLfuInvariant.
Context {Key : Type} `{Countable Key} {Value : Type}.
Implicit Types (p : ArcLfu.ArcLfuPart Key Value).

Lemma ArcLfu_removeOldestGhost_frame p p' :
  ArcLfu.removeOldestGhost p = Some p' →
  ArcLfu.mainCache_ p' = ArcLfu.mainCache_ p
  ∧ ArcLfu.freqMap_ p' = ArcLfu.freqMap_ p
  ∧ ArcLfu.minFreq_ p' = ArcLfu.minFreq_ p.
Proof.
  unfold ArcLfu.removeOldestGhost. destruct (ArcLfu.ghost p) as [|x l] eqn:Hl.
  - by intros [= <-].
  - unfold ArcLfu.removeFromGhost. destruct (decide _); [|done].
    simpl. by intros [= <-].
Qed.

(** Eviction when the list of [minFreq_] is [x :: rest]: [x] leaves the
    main cache and its list and enters the ghost index. *)
Lemma ArcLfu_evictLeastFrequency_eq p x rest :
  ghost_ok (ArcLfu.ghostCache_ p) (ArcLfu.ghost p) →
  ArcLfu.freqMap_ p !! ArcLfu.minFreq_ p = Some (x :: rest) →
  ∃ p', ArcLfu.evictLeastFrequency p = Some p'
    ∧ ghost_ok (ArcLfu.ghostCache_ p') (ArcLfu.ghost p')
    ∧ ArcLfu.capacity_ p' = ArcLfu.capacity_ p
    ∧ ArcLfu.mainCache_ p' = delete (ptr_key x) (ArcLfu.mainCache_ p)
    ∧ ArcLfu.freqMap_ p'
      = match rest with
        | [] => delete (ArcLfu.minFreq_ p) (ArcLfu.freqMap_ p)
        | _ :: _ => <[ArcLfu.minFreq_ p := rest]> (ArcLfu.freqMap_ p)
        end
    ∧ ArcLfu.minFreq_ p'
      = match rest with
        | [] => default (ArcLfu.minFreq_ p)
                  (ArcLfu.min_key (delete (ArcLfu.minFreq_ p) (ArcLfu.freqMap_ p)))
        | _ :: _ => ArcLfu.minFreq_ p
        end
    ∧ ArcLfu.ghostCache_ p' !! ptr_key x = Some x.
Proof.
  intros Hg Hl0.
  unfold ArcLfu.evictLeastFrequency.
  rewrite decide_False.
  2:{ apply map_size_non_empty_iff. intros He.
      by rewrite He, lookup_empty in Hl0. }
  rewrite Hl0. simpl.
  set (p1 := match rest with [] => _ | _ :: _ => _ end).
  assert (Hp1 : ghost_ok (ArcLfu.ghostCache_ p1) (ArcLfu.ghost p1)
                ∧ ArcLfu.capacity_ p1 = ArcLfu.capacity_ p
                ∧ ArcLfu.mainCache_ p1 = ArcLfu.mainCache_ p
                ∧ ArcLfu.freqMap_ p1
                  = match rest with
                    | [] => delete (ArcLfu.minFreq_ p) (ArcLfu.freqMap_ p)
                    | _ :: _ => <[ArcLfu.minFreq_ p := rest]> (ArcLfu.freqMap_ p)
                    end
                ∧ ArcLfu.minFreq_ p1
                  = match rest with
                    | [] => default (ArcLfu.minFreq_ p)
                              (ArcLfu.min_key
                                 (delete (ArcLfu.minFreq_ p) (ArcLfu.freqMap_ p)))
                    | _ :: _ => ArcLfu.minFreq_ p
                    end).
  { subst p1. by destruct rest. }
  clearbody p1. destruct Hp1 as (Hg1 & Hc1 & Hm1 & Hfm1 & Hmf1).
  assert (Hp2 : ∃ p2,
    (if decide (ArcLfu.ghostCapacity_ p1 ≤ Z.of_nat (size (ArcLfu.ghostCache_ p1)))
     then ArcLfu.removeOldestGhost p1 else Some p1) = Some p2
    ∧ ghost_ok (ArcLfu.ghostCache_ p2) (ArcLfu.ghost p2)
    ∧ ArcLfu.capacity_ p2 = ArcLfu.capacity_ p1
    ∧ ArcLfu.mainCache_ p2 = ArcLfu.mainCache_ p1
    ∧ ArcLfu.freqMap_ p2 = ArcLfu.freqMap_ p1
    ∧ ArcLfu.minFreq_ p2 = ArcLfu.minFreq_ p1).
  { destruct (decide _); [|by exists p1].
    destruct (ArcLfu_removeOldestGhost_total p1 Hg1) as (p2 & Hr & Hg2 & Hc2).
    destruct (ArcLfu_removeOldestGhost_frame _ _ Hr) as (? & ? & ?).
    by exists p2. }
  destruct Hp2 as (p2 & -> & Hg2 & Hc2 & Hm2 & Hfm2 & Hmf2). simpl.
  eexists. split; [reflexivity|]. simpl.
  split; [by apply ghost_ok_link|]. split; [congruence|].
  split; [congruence|]. split; [congruence|]. split; [congruence|].
  apply lookup_insert_eq.
Qed.

(** Eviction from a non-empty main cache under the invariant. *)
Lemma ArcLfu_evictLeastFrequency_inv p :
  ArcLfu_inv p → ArcLfu.mainCache_ p ≠ ∅ →
  ∃ p', ArcLfu.evictLeastFrequency p = Some p' ∧ ArcLfu_inv p'
        ∧ ArcLfu.capacity_ p' = ArcLfu.capacity_ p
        ∧ S (size (ArcLfu.mainCache_ p')) = size (ArcLfu.mainCache_ p)
        ∧ ∀ k, ArcLfu.mainCache_ p !! k = None →
               ArcLfu.mainCache_ p' !! k = None.
Proof.
  intros [Hg Hf] Hne.
  pose proof Hf as (_ & _ & Hc & Hd).
  destruct (Hd Hne) as [l0 Hl0].
  destruct (Hc _ _ Hl0) as [Hnil _].
  destruct l0 as [|x rest]; [done|].
  destruct (freq_ok_pop _ _ _ _ _ Hf Hl0) as [Hx Hpop].
  destruct (ArcLfu_evictLeastFrequency_eq p x rest Hg Hl0)
    as (p' & He & Hg' & Hc' & Hm' & Hfm' & Hmf' & _).
  exists p'. split; [done|]. split; [split; [done|]|split; [done|split]].
  - by rewrite Hm', Hfm', Hmf'.
  - rewrite Hm'. rewrite map_size_delete_Some by done.
    assert (size (ArcLfu.mainCache_ p) ≠ 0%nat)
      by by apply map_size_non_empty_iff.
    lia.
  - intros k Hk. rewrite Hm'. apply lookup_delete_None. by right.
Qed.

(** A hit on the node [n] stored under [key]; [node] is [n] itself or
    [n] with a new value. *)
Lemma ArcLfu_updateNodeFrequency_inv p key n (node : ArcLfu.ArcNode Key Value) :
  ArcLfu_inv p → ArcLfu.mainCache_ p !! key = Some n →
  ArcLfu.ptr_of node = ArcLfu.ptr_of n →
  ArcLfu.accessCount_ node = ArcLfu.accessCount_ n →
  ArcLfu_inv (ArcLfu.updateNodeFrequency key node p)
  ∧ ArcLfu.capacity_ (ArcLfu.updateNodeFrequency key node p) = ArcLfu.capacity_ p
  ∧ size (ArcLfu.mainCache_ (ArcLfu.updateNodeFrequency key node p))
    = size (ArcLfu.mainCache_ p).
Proof.
  intros [Hg Hf] Hk Hptr Hcnt.
  pose proof (freq_ok_bump _ _ _ key n node Hf Hk Hptr Hcnt) as Hb.
  cbv zeta in Hb. unfold ArcLfu.updateNodeFrequency. cbv zeta.
  destruct (filter _ _) as [|y ys]; simpl.
  - split; [split; [exact Hg|exact Hb]|]. split; [done|].
    by apply map_size_insert_Some.
  - split; [split; [exact Hg|exact Hb]|]. split; [done|].
    by apply map_size_insert_Some.
Qed.

Lemma ArcLfu_new_inv (capacity transformThreshold : Z) :
  ArcLfu_inv (ArcLfu.new capacity transformThreshold : ArcLfu.ArcLfuPart Key Value).
Proof.
  split; [intros k h Hk; simpl in Hk; by rewrite lookup_empty in Hk|].
  simpl. split; [|split; [|split]].
  - intros k n Hk. by rewrite lookup_empty in Hk.
  - intros f l x Hl. by rewrite lookup_empty in Hl.
  - intros f l Hl. by rewrite lookup_empty in Hl.
  - done.
Qed.

(** X14.  Every public operation of [ArcLfuPart] returns and keeps the
    part consistent: from a part whose ghost index agrees with its ghost
    list and whose main cache agrees with its frequency lists, holding at
    most [capacity] entries with a capacity of at least 0 (and, for
    [increaseCapacity], below [SIZE_MAX]), the operation has a defined
    result in which the same agreement holds, the capacity is at least 0
    and the main cache holds at most [capacity] entries. *)
Theorem ArcLfu_step_keeps_invariant (o : ArcLfu.Op Key Value) p :
  ArcLfu_inv p →
  0 ≤ ArcLfu.capacity_ p →
  Z.of_nat (size (ArcLfu.mainCache_ p)) ≤ ArcLfu.capacity_ p →
  (o = ArcLfu.IncreaseCapacity → ArcLfu.capacity_ p < MachineInt.SIZE_MAX) →
  ∃ p', ArcLfu.step o p = Some p' ∧ ArcLfu_inv p'
        ∧ 0 ≤ ArcLfu.capacity_ p'
        ∧ Z.of_nat (size (ArcLfu.mainCache_ p')) ≤ ArcLfu.capacity_ p'.
Proof.
  intros Hinv Hc0 Hsz Hmax. pose proof Hinv as [Hg Hf].
  destruct o as [key value|key value|key| |]; simpl.
  - unfold ArcLfu.put. destruct (decide _) as [Hz|Hz]; [by exists p|].
    destruct (ArcLfu.mainCache_ p !! key) as [n|] eqn:Hk.
    + simpl.
      destruct (ArcLfu_updateNodeFrequency_inv p key n (ArcLfu.setValue value n)
                  Hinv Hk eq_refl eq_refl) as (Hi & Hc & Hs).
      eexists. split; [reflexivity|]. split; [exact Hi|]. lia.
    + unfold ArcLfu.addNewNode.
      assert (Hp1 : ∃ p1,
        (if decide (ArcLfu.capacity_ p ≤ Z.of_nat (size (ArcLfu.mainCache_ p)))
         then ArcLfu.evictLeastFrequency p else Some p) = Some p1
        ∧ ArcLfu_inv p1 ∧ ArcLfu.capacity_ p1 = ArcLfu.capacity_ p
        ∧ Z.of_nat (size (ArcLfu.mainCache_ p1)) < ArcLfu.capacity_ p
        ∧ ArcLfu.mainCache_ p1 !! key = None).
      { destruct (decide _) as [Hfull|Hfull].
        - assert (Hne : ArcLfu.mainCache_ p ≠ ∅).
          { apply map_size_non_empty_iff. lia. }
          destruct (ArcLfu_evictLeastFrequency_inv p Hinv Hne)
            as (p1 & He & Hi & Hc & Hs & Hfr).
          exists p1. do 3 (split; [done|]). split; [lia|by apply Hfr].
        - exists p. do 3 (split; [done|]). split; [lia|done]. }
      destruct Hp1 as (p1 & -> & [Hg1 Hf1] & Hc1 & Hs1 & Hk1). simpl.
      eexists. split; [reflexivity|]. simpl. split; [split|].
      * exact Hg1.
      * by apply (freq_ok_new _ _ (ArcLfu.minFreq_ p1)).
      * rewrite map_size_insert_None by done. lia.
  - unfold ArcLfu.get. destruct (ArcLfu.mainCache_ p !! key) as [n|] eqn:Hk.
    + simpl.
      destruct (ArcLfu_updateNodeFrequency_inv p key n n Hinv Hk eq_refl eq_refl)
        as (Hi & Hc & Hs).
      eexists. split; [reflexivity|]. split; [exact Hi|]. lia.
    + by exists p.
  - unfold ArcLfu.checkGhost.
    destruct (ArcLfu.ghostCache_ p !! key) as [x|] eqn:Hk; [|by exists p].
    destruct (Hg key x Hk) as [Hin Hkey].
    unfold ArcLfu.removeFromGhost. rewrite decide_True by done. simpl.
    eexists. split; [reflexivity|]. simpl. split; [split|done]; [|exact Hf].
    rewrite <- Hkey. by apply ghost_ok_unlink.
  - eexists. split; [reflexivity|]. simpl. split; [done|].
    rewrite incr_in_range by auto. lia.
  - unfold ArcLfu.decreaseCapacity.
    destruct (decide (ArcLfu.capacity_ p ≤ 0)) as [Hz|Hz]; [by exists p|].
    assert (Hp1 : ∃ p1,
      (if decide (Z.of_nat (size (ArcLfu.mainCache_ p)) = ArcLfu.capacity_ p)
       then ArcLfu.evictLeastFrequency p else Some p) = Some p1
      ∧ ArcLfu_inv p1 ∧ ArcLfu.capacity_ p1 = ArcLfu.capacity_ p
      ∧ Z.of_nat (size (ArcLfu.mainCache_ p1)) < ArcLfu.capacity_ p).
    { destruct (decide _) as [Hfull|Hfull].
      - assert (Hne : ArcLfu.mainCache_ p ≠ ∅).
        { apply map_size_non_empty_iff. lia. }
        destruct (ArcLfu_evictLeastFrequency_inv p Hinv Hne)
          as (p1 & He & Hi & Hc & Hs & Hfr).
        exists p1. do 3 (split; [done|]). lia.
      - exists p. do 3 (split; [done|]). lia. }
    destruct Hp1 as (p1 & -> & [Hg1 Hf1] & Hc1 & Hs1). simpl.
    eexists. split; [reflexivity|]. simpl. split; [done|]. lia.
Qed.

End ArcLfuInvariant.

Lemma ArcLfu_step_keeps_invariant_witness :
  ∃ p', ArcLfu.step (ArcLfu.Put 1 "a"%string)
          (ArcLfu.new 2 2 : ArcLfu.ArcLfuPart Z string) = Some p'
        ∧ ArcLfu_inv p'
        ∧ 0 ≤ ArcLfu.capacity_ p'
        ∧ Z.of_nat (size (ArcLfu.mainCache_ p')) ≤ ArcLfu.capacity_ p'.
Proof.
  apply (ArcLfu_step_keeps_invariant (ArcLfu.Put 1 "a"%string)
           (ArcLfu.new 2 2 : ArcLfu.ArcLfuPart Z string)).
  - apply ArcLfu_new_inv.
  - simpl. lia.
  - by vm_compute.
  - discriminate.
Defined.

(** ** ArcLfuPart: which entry is evicted *)

Section ArcLfuOrder.
Context {Key : Type} `{Countable Key} {Value : Type}.
Implicit Types (p : ArcLfu.ArcLfuPart Key Value)
  (fm : gmap Z (list (NodePtr Key))).

Lemma foldr_min_le (k : Z) (ks : list Z) (x : Z) :
  x ∈ k :: ks → foldr Z.min k ks ≤ x.
Proof.
  induction ks as [|a ks IH]; simpl; intros Hx.
  - apply list_elem_of_singleton in Hx. lia.
  - apply elem_of_cons in Hx as [->|Hx].
    + specialize (IH (list_elem_of_here _ _)). lia.
    + apply elem_of_cons in Hx as [->|Hx]; [lia|].
      specialize (IH (list_elem_of_further _ _ _ Hx)). lia.
Qed.

Lemma min_key_le {A : Type} (m : gmap Z A) (k f : Z) :
  ArcLfu.min_key m = Some k → is_Some (m !! f) → k ≤ f.
Proof.
  unfold ArcLfu.min_key. intros Hk [v Hf]. apply elem_of_map_to_list in Hf.
  destruct (map_to_list m) as [|[k0 v0] rest] eqn:Hl; [done|].
  injection Hk as <-. apply foldr_min_le.
  apply (list_elem_of_fmap_2 fst) in Hf. exact Hf.
Qed.

Lemma freq_min_pop fm (mf : Z) (x : NodePtr Key) (l : list (NodePtr Key)) :
  freq_min fm mf → fm !! mf = Some (x :: l) →
  freq_min (match l with [] => delete mf fm | _ :: _ => <[mf := l]> fm end)
    (match l with
     | [] => default mf (ArcLfu.min_key (delete mf fm))
     | _ :: _ => mf
     end).
Proof.
  intros Hm Hmf. destruct l as [|y l].
  - intros f l0 Hl0. pose proof Hl0 as Hl1.
    apply lookup_delete_Some in Hl0 as [Hne Hl0].
    split; [by apply (Hm f l0)|].
    destruct (ArcLfu.min_key (delete mf fm)) as [k|] eqn:Hk; simpl.
    + apply (min_key_le _ _ _ Hk). by eexists.
    + by apply (Hm f l0).
  - intros f l0 Hl0. apply lookup_insert_Some in Hl0 as [[<- <-]|[Hne Hl0]].
    + by apply (Hm mf (x :: y :: l)).
    + by apply (Hm f l0).
Qed.

Lemma freq_min_bump fm (mf old : Z) (oldList newList : list (NodePtr Key)) :
  freq_min fm mf → is_Some (fm !! old) → old < MachineInt.SIZE_MAX →
  freq_min
    (<[MachineInt.incr old := newList]>
       (match oldList with
        | [] => delete old fm
        | _ :: _ => <[old := oldList]> fm
        end))
    (match oldList with
     | [] => if decide (mf = old) then MachineInt.incr old else mf
     | _ :: _ => mf
     end).
Proof.
  intros Hm [lo Hlo] Hlt. destruct (Hm old lo Hlo) as [H1 Hmo].
  rewrite incr_in_range by lia.
  intros f l Hl. apply lookup_insert_Some in Hl as [[<- <-]|[Hne Hl]].
  - split; [lia|]. destruct oldList; [destruct (decide _)|]; lia.
  - destruct oldList as [|y ys].
    + apply lookup_delete_Some in Hl as [Hfo Hl]. destruct (Hm f l Hl).
      split; [done|]. destruct (decide (mf = old)); lia.
    + apply lookup_insert_Some in Hl as [[<- <-]|[Hfo Hl]]; [done|].
      by apply (Hm f l).
Qed.

Lemma freq_min_new fm (mf : Z) (newList : list (NodePtr Key)) :
  freq_min fm mf → freq_min (<[1 := newList]> fm) 1.
Proof.
  intros Hm f l Hl. apply lookup_insert_Some in Hl as [[<- <-]|[Hne Hl]]; [lia|].
  destruct (Hm f l Hl). lia.
Qed.

Lemma ArcLfu_evictLeastFrequency_min p :
  ghost_ok (ArcLfu.ghostCache_ p) (ArcLfu.ghost p) →
  freq_min (ArcLfu.freqMap_ p) (ArcLfu.minFreq_ p) →
  ∃ p', ArcLfu.evictLeastFrequency p = Some p'
        ∧ ghost_ok (ArcLfu.ghostCache_ p') (ArcLfu.ghost p')
        ∧ freq_min (ArcLfu.freqMap_ p') (ArcLfu.minFreq_ p').
Proof.
  intros Hg Hm.
  destruct (ArcLfu.freqMap_ p !! ArcLfu.minFreq_ p) as [[|x rest]|] eqn:Hl.
  - unfold ArcLfu.evictLeastFrequency. destruct (decide _); [by exists p|].
    rewrite Hl. simpl. eexists. split; [done|]. simpl. split; [done|].
    intros f l Hf. apply lookup_delete_Some in Hf as [_ Hf]. by apply (Hm f l).
  - destruct (ArcLfu_evictLeastFrequency_eq p x rest Hg Hl)
      as (p' & He & Hg' & _ & _ & Hfm' & Hmf' & _).
    exists p'. split; [done|]. split; [done|]. rewrite Hfm', Hmf'.
    by apply (freq_min_pop _ _ x).
  - unfold ArcLfu.evictLeastFrequency. destruct (decide _); [by exists p|].
    rewrite Hl. simpl. eexists. split; [done|]. simpl. split; [done|].
    intros f l Hf. apply lookup_delete_Some in Hf as [_ Hf]. by apply (Hm f l).
Qed.

Lemma ArcLfu_updateNodeFrequency_min p key n (node : ArcLfu.ArcNode Key Value) :
  ArcLfu_inv p → freq_min (ArcLfu.freqMap_ p) (ArcLfu.minFreq_ p) →
  ArcLfu.mainCache_ p !! key = Some n →
  ArcLfu.accessCount_ node = ArcLfu.accessCount_ n →
  ArcLfu.accessCount_ n < MachineInt.SIZE_MAX →
  freq_min (ArcLfu.freqMap_ (ArcLfu.updateNodeFrequency key node p))
    (ArcLfu.minFreq_ (ArcLfu.updateNodeFrequency key node p)).
Proof.
  intros [Hg (Ha & _)] Hm Hk Hcnt Hlt.
  destruct (Ha key n Hk) as (_ & l & Hl & _). rewrite <- Hcnt in Hl, Hlt.
  assert (Hs : is_Some (ArcLfu.freqMap_ p !! ArcLfu.accessCount_ node))
    by by eexists.
  unfold ArcLfu.updateNodeFrequency. cbv zeta.
  destruct (filter _ _) as [|y ys]; simpl.
  - exact (freq_min_bump _ _ _ [] _ Hm Hs Hlt).
  - exact (freq_min_bump _ _ _ (y :: ys) _ Hm Hs Hlt).
Qed.

(** X20.  [minFreq_] stays a lower bound.  In a consistent part in which
    [minFreq_] is at most every access count that has a frequency list,
    these counts are at least 1 and no entry has reached [SIZE_MAX]
    accesses, every public operation returns a part in which [minFreq_]
    is again at most every access count that has a frequency list, and
    these counts are at least 1. *)
Theorem ArcLfu_step_keeps_minFreq (o : ArcLfu.Op Key Value) p :
  ArcLfu_inv p →
  freq_min (ArcLfu.freqMap_ p) (ArcLfu.minFreq_ p) →
  (∀ k n, ArcLfu.mainCache_ p !! k = Some n →
          ArcLfu.accessCount_ n < MachineInt.SIZE_MAX) →
  ∃ p', ArcLfu.step o p = Some p'
        ∧ freq_min (ArcLfu.freqMap_ p') (ArcLfu.minFreq_ p').
Proof.
  intros Hinv Hm Hlt. pose proof Hinv as [Hg Hf].
  destruct o as [key value|key value|key| |]; simpl.
  - unfold ArcLfu.put. destruct (decide _) as [Hz|Hz]; [by exists p|].
    destruct (ArcLfu.mainCache_ p !! key) as [n|] eqn:Hk.
    + simpl. eexists. split; [reflexivity|].
      apply (ArcLfu_updateNodeFrequency_min p key n); try done.
      by apply (Hlt key).
    + unfold ArcLfu.addNewNode.
      assert (Hp1 : ∃ p1,
        (if decide (ArcLfu.capacity_ p ≤ Z.of_nat (size (ArcLfu.mainCache_ p)))
         then ArcLfu.evictLeastFrequency p else Some p) = Some p1
        ∧ freq_min (ArcLfu.freqMap_ p1) (ArcLfu.minFreq_ p1)).
      { destruct (decide _); [|by exists p].
        destruct (ArcLfu_evictLeastFrequency_min p Hg Hm) as (p1 & ? & _ & ?).
        by exists p1. }
      destruct Hp1 as (p1 & -> & Hm1). simpl.
      eexists. split; [reflexivity|]. simpl.
      by apply (freq_min_new _ (ArcLfu.minFreq_ p1)).
  - unfold ArcLfu.get. destruct (ArcLfu.mainCache_ p !! key) as [n|] eqn:Hk.
    + simpl. eexists. split; [reflexivity|].
      apply (ArcLfu_updateNodeFrequency_min p key n); try done.
      by apply (Hlt key).
    + by exists p.
  - unfold ArcLfu.checkGhost.
    destruct (ArcLfu.ghostCache_ p !! key) as [x|] eqn:Hk; [|by exists p].
    destruct (Hg key x Hk) as [Hin Hkey].
    unfold ArcLfu.removeFromGhost. rewrite decide_True by done. simpl.
    by eexists.
  - by eexists.
  - unfold ArcLfu.decreaseCapacity.
    destruct (decide (ArcLfu.capacity_ p ≤ 0)) as [Hz|Hz]; [by exists p|].
    assert (Hp1 : ∃ p1,
      (if decide (Z.of_nat (size (ArcLfu.mainCache_ p)) = ArcLfu.capacity_ p)
       then ArcLfu.evictLeastFrequency p else Some p) = Some p1
      ∧ freq_min (ArcLfu.freqMap_ p1) (ArcLfu.minFreq_ p1)).
    { destruct (decide _); [|by exists p].
      destruct (ArcLfu_evictLeastFrequency_min p Hg Hm) as (p1 & ? & _ & ?).
      by exists p1. }
    destruct Hp1 as (p1 & -> & Hm1). simpl. by eexists.
Qed.

(** X21.  Eviction takes a least frequently used entry and remembers
    it.  In a consistent, non-empty part in which [minFreq_] is at most
    every access count that has a frequency list,
    [evictLeastFrequency] returns; the entry it removes from the main
    cache has an access count that is at most the access count of every
    entry, no other entry is removed, and the [checkGhost] of the removed
    key that follows returns true. *)
Theorem ArcLfu_evicts_least_frequent p :
  ArcLfu_inv p →
  freq_min (ArcLfu.freqMap_ p) (ArcLfu.minFreq_ p) →
  ArcLfu.mainCache_ p ≠ ∅ →
  ∃ p' p'' victim,
    ArcLfu.evictLeastFrequency p = Some p'
    ∧ ArcLfu.mainCache_ p !! ArcLfu.key_ victim = Some victim
    ∧ (∀ k n, ArcLfu.mainCache_ p !! k = Some n →
              ArcLfu.accessCount_ victim ≤ ArcLfu.accessCount_ n)
    ∧ ArcLfu.mainCache_ p' = delete (ArcLfu.key_ victim) (ArcLfu.mainCache_ p)
    ∧ ArcLfu.checkGhost (ArcLfu.key_ victim) p' = Some (true, p'').
Proof.
  intros [Hg Hf] Hm Hne. pose proof Hf as (Ha & Hb & Hc & Hd).
  destruct (Hd Hne) as [l0 Hl0].
  destruct (Hc _ _ Hl0) as [Hnil _].
  destruct l0 as [|x rest]; [done|].
  destruct (Hb _ _ x Hl0 (list_elem_of_here _ _)) as (nx & Hnx & Hpx & Hax).
  assert (Hkx : ptr_key x = ArcLfu.key_ nx) by (by rewrite <- Hpx).
  destruct (ArcLfu_evictLeastFrequency_eq p x rest Hg Hl0)
    as (p' & He & Hg' & _ & Hm' & _ & _ & Hgx).
  destruct (ArcLfu_checkGhost_total p' (ArcLfu.key_ nx) Hg') as (p'' & Hcg & _).
  rewrite Hkx in Hnx, Hm', Hgx.
  rewrite bool_decide_eq_true_2 in Hcg by (by eexists).
  exists p', p'', nx. split; [done|]. split; [done|]. split; [|done].
  intros k n Hk. destruct (Ha k n Hk) as (_ & l & Hl & _).
  destruct (Hm _ _ Hl) as [_ Hle]. by rewrite Hax.
Qed.

End ArcLfuOrder.

(** The scenario part is the one the three calls build. *)
Lemma arclfu_two_reached :
  ((ArcLfu.step (ArcLfu.Put 1 "a"%string) (ArcLfu.new 2 2)
      ≫= ArcLfu.step (ArcLfu.Put 2 "b"%string))
     ≫= ArcLfu.step (ArcLfu.Get 1 EmptyString))
  = Some Scenario.arclfu_two.
Proof. vm_compute. reflexivity. Qed.

(** The scenario part satisfies the invariants. *)
Lemma arclfu_two_inv :
  ArcLfu_inv Scenario.arclfu_two
  ∧ freq_min (ArcLfu.freqMap_ Scenario.arclfu_two)
      (ArcLfu.minFreq_ Scenario.arclfu_two).
Proof.
  pose proof (ArcLfu_new_inv (Key:=Z) (Value:=string) 2 2) as [_ P0].
  pose proof (freq_ok_new _ _ _ 1 "a"%string 0%nat P0 eq_refl) as P1.
  pose proof (freq_ok_new _ _ _ 2 "b"%string 1%nat P1 eq_refl) as P2.
  pose proof (freq_ok_bump _ _ _ 1 (ArcLfu.mkNode 0%nat 1 "a"%string 1)
                (ArcLfu.mkNode 0%nat 1 "a"%string 1) P2 eq_refl eq_refl eq_refl)
    as P3.
  assert (M0 : freq_min (∅ : gmap Z (list (NodePtr Z))) 0).
  { intros f l Hl. by rewrite lookup_empty in Hl. }
  pose proof (freq_min_new _ _ [mkPtr 0%nat 1] M0) as M1.
  pose proof (freq_min_new _ _ [mkPtr 0%nat 1; mkPtr 1%nat 2] M1) as M2.
  pose proof (freq_min_bump _ _ 1 [mkPtr 1%nat 2] [mkPtr 0%nat 1] M2) as M3.
  split; [split|].
  - intros k h Hk. simpl in Hk. by rewrite lookup_empty in Hk.
  - exact P3.
  - apply M3; [by eexists|done].
Qed.

Lemma ArcLfu_step_keeps_minFreq_witness :
  ∃ p', ArcLfu.step (ArcLfu.Get 2 EmptyString) Scenario.arclfu_two = Some p'
        ∧ freq_min (ArcLfu.freqMap_ p') (ArcLfu.minFreq_ p').
Proof.
  apply (ArcLfu_step_keeps_minFreq (ArcLfu.Get 2 EmptyString) Scenario.arclfu_two).
  - apply arclfu_two_inv.
  - apply arclfu_two_inv.
  - intros k n Hk. unfold Scenario.arclfu_two in Hk. cbn [ArcLfu.mainCache_] in Hk.
    apply lookup_insert_Some in Hk as [[_ <-]|[_ Hk]]; [done|].
    apply lookup_insert_Some in Hk as [[_ <-]|[_ Hk]]; [done|].
    by rewrite lookup_empty in Hk.
Defined.

Lemma ArcLfu_evicts_least_frequent_witness :
  ∃ p' p'' victim,
    ArcLfu.evictLeastFrequency Scenario.arclfu_two = Some p'
    ∧ ArcLfu.mainCache_ Scenario.arclfu_two !! ArcLfu.key_ victim = Some victim
    ∧ (∀ k n, ArcLfu.mainCache_ Scenario.arclfu_two !! k = Some n →
              ArcLfu.accessCount_ victim ≤ ArcLfu.accessCount_ n)
    ∧ ArcLfu.mainCache_ p'
      = delete (ArcLfu.key_ victim) (ArcLfu.mainCache_ Scenario.arclfu_two)
    ∧ ArcLfu.checkGhost (ArcLfu.key_ victim) p' = Some (true, p'').
Proof.
  apply (ArcLfu_evicts_least_frequent Scenario.arclfu_two).
  - apply arclfu_two_inv.
  - apply arclfu_two_inv.
  - intros He. apply (f_equal (λ m, m !! 1)) in He. discriminate He.
Defined.
